(** * Incremental translation engine: flatten, detect, merge

    Shallow embedding of the diff/merge core of
    [scripts/process-translation-claude-fixed.js]
    (class [IncrementalTranslationProcessor]) together with the language
    validation of its sibling class [IntelligentTranslationProcessorClaude].

    Modelling conventions.
    - A call either returns, throws, or goes beyond the model: it reads
      a member that an object inherits from a built-in prototype, or
      changes the prototype of an object. What the program does from
      there on depends on the built-in objects of the engine, which are
      not modelled; no property below says anything about such a call.
    - An object is the list of its own enumerable properties in
      enumeration order: array indices in ascending order, then the
      other keys in the order of their creation. Assignment to an
      existing key replaces the value in place.
    - The dictionaries that the program keys by file name (names ending
      in [.json]) or by language code are association lists to which a
      new key is appended.
    - An array carries the identity of the JavaScript object that holds
      it, because [===] compares arrays by reference, its [length], and
      its own properties; an index below [length] with no property is a
      hole.
    - JSON numbers are integers ([Z]); a string is the list of its
      characters.
    - Console output is left out, except that a template literal which
      throws while rendering a value is a throw of the method. *)

From Stdlib Require Import List String Ascii ZArith NArith Bool Arith Lia.
From Stdlib Require Import DecimalString DecimalNat Permutation.
Import ListNotations.
Local Open Scope string_scope.
Local Open Scope list_scope.

(** ** Completions *)

(** How a call ends: it returns a value, throws an error of the given
    name, or goes beyond the model. *)
Inductive completion (A : Type) : Type :=
| Returns (a : A)
| Throws (error : string)
| Beyond.

Arguments Returns {A} a.
Arguments Throws {A} error.
Arguments Beyond {A}.

(** Sequencing: [k] runs on what [c] returns. *)
Definition and_then {A B : Type} (c : completion A) (k : A -> completion B)
  : completion B :=
  match c with
  | Returns a => k a
  | Throws error => Throws error
  | Beyond => Beyond
  end.

Notation "'let*' x ':=' c 'in' k" := (and_then c (fun x => k))
  (at level 10, x name, c at level 100, k at level 200).

(** A loop whose body may throw. *)
Definition fold_throwing {S X : Type} (body : S -> X -> completion S)
    (xs : list X) (init : S) : completion S :=
  fold_left (fun acc x => let* s := acc in body s x) xs (Returns init).

(** ** JSON values *)

Unset Elimination Schemes.
Inductive value : Type :=
| VNull
| VBool (b : bool)
| VNum (n : Z)
| VStr (s : string)
| VArray (id : nat) (len : nat) (props : list (string * value))
| VObj (props : list (string * value)).
Set Elimination Schemes.

(** A dictionary object: own properties in enumeration order. *)
Abbreviation jsobject A := (list (string * A)) (only parsing).

(** A JSON document, or any nested mapping. *)
Abbreviation obj := (jsobject value) (only parsing).

(** [l.includes(x)] on a list of strings. *)
Definition includes (l : list string) (x : string) : bool :=
  existsb (String.eqb x) l.

(** The array index that a property key denotes, if any: the canonical
    decimal form of an integer below 2^32 - 1. *)
Definition array_index (k : string) : option N :=
  match NilEmpty.uint_of_string k with
  | Some u =>
      let n := N.of_uint u in
      if String.eqb (NilEmpty.string_of_uint (N.to_uint n)) k
         && (n <? 4294967295)%N
      then Some n
      else None
  | None => None
  end.

Section Properties.
Context {A : Type}.

(** [o[k]] on own properties; [None] is [undefined]. *)
Fixpoint prop_get (o : jsobject A) (k : string) : option A :=
  match o with
  | [] => None
  | (k', v) :: rest => if String.eqb k' k then Some v else prop_get rest k
  end.

(** [o[k] = v] on a dictionary keyed by file names or language codes. *)
Fixpoint prop_set (o : jsobject A) (k : string) (v : A) : jsobject A :=
  match o with
  | [] => [(k, v)]
  | (k', v') :: rest =>
      if String.eqb k' k then (k', v) :: rest
      else (k', v') :: prop_set rest k v
  end.

(** [delete o[k]]. *)
Fixpoint prop_delete (o : jsobject A) (k : string) : jsobject A :=
  match o with
  | [] => []
  | (k', v') :: rest =>
      if String.eqb k' k then prop_delete rest k
      else (k', v') :: prop_delete rest k
  end.

(** [Object.keys(o)]. *)
Definition own_keys (o : jsobject A) : list string := map fst o.

(** [Object.prototype.hasOwnProperty] applied to [o] and [k]. *)
Definition hasOwnProperty (o : jsobject A) (k : string) : bool :=
  match prop_get o k with Some _ => true | None => false end.

(** The place of the new array index [n], written [k], among the own
    properties: before the first larger index and before the keys that
    are no index. *)
Fixpoint insert_index (n : N) (k : string) (v : A) (o : jsobject A)
  : jsobject A :=
  match o with
  | [] => [(k, v)]
  | (k', v') :: rest =>
      match array_index k' with
      | Some n' =>
          if (n' <? n)%N then (k', v') :: insert_index n k v rest
          else (k, v) :: o
      | None => (k, v) :: o
      end
  end.

(** A new own property [k] of [o]: an array index takes its place among
    the indices, any other key comes last. *)
Definition define_property (o : jsobject A) (k : string) (v : A)
  : jsobject A :=
  match array_index k with
  | Some n => insert_index n k v o
  | None => o ++ [(k, v)]
  end.
End Properties.

(** ** Primitive operations of the language *)

(** Truthiness of a string: [s ? _ : _]. *)
Definition truthy_string (s : string) : bool :=
  match s with EmptyString => false | _ => true end.

(** Truthiness of a value. *)
Definition truthy (v : value) : bool :=
  match v with
  | VNull => false
  | VBool b => b
  | VNum n => negb (Z.eqb n 0)
  | VStr s => truthy_string s
  | VArray _ _ _ => true
  | VObj _ => true
  end.

(** Truthiness of a property read; [None] is [undefined]. *)
Definition truthy_read (read : option value) : bool :=
  match read with Some v => truthy v | None => false end.

(** [typeof v === 'object' && v !== null && !Array.isArray(v)]. *)
Definition is_mapping (v : value) : bool :=
  match v with VObj _ => true | _ => false end.

(** [typeof v === 'object' && v !== null]. *)
Definition is_object (v : value) : bool :=
  match v with VObj _ | VArray _ _ _ => true | _ => false end.

(** [typeof v === 'object']. *)
Definition typeof_object (v : value) : bool :=
  match v with VNull | VObj _ | VArray _ _ _ => true | _ => false end.

(** [a === b] on the leaves of a flat map: primitives by type and value,
    arrays by reference. *)
Definition strict_eq (a b : value) : bool :=
  match a, b with
  | VNull, VNull => true
  | VBool x, VBool y => Bool.eqb x y
  | VNum x, VNum y => Z.eqb x y
  | VStr x, VStr y => String.eqb x y
  | VArray i _ _, VArray j _ _ => Nat.eqb i j
  | _, _ => false
  end.

(** [s.split('.')]. *)
Fixpoint split_dot (s : string) : list string :=
  match s with
  | EmptyString => [EmptyString]
  | String c rest =>
      if Ascii.eqb c "." then EmptyString :: split_dot rest
      else match split_dot rest with
           | [] => [String c EmptyString]
           | h :: t => String c h :: t
           end
  end.

(** The template literal [`${prefix}.${key}`]. *)
Definition dotted (prefix key : string) : string :=
  (prefix ++ "." ++ key)%string.

(** Decimal rendering of an array index, as used for property names. *)
Definition index_key (i : nat) : string :=
  NilEmpty.string_of_uint (Nat.to_uint i).

(** The elements of a dense array as its own properties. *)
Fixpoint indexed (i : nat) (l : list value) : obj :=
  match l with
  | [] => []
  | x :: rest => (index_key i, x) :: indexed (S i) rest
  end.

(** The array [[x0, x1, ...]] held by the object [id]. *)
Definition VArr (id : nat) (elems : list value) : value :=
  VArray id (List.length elems) (indexed 0 elems).

(** The one-character strings of a string, its indexed properties. *)
Fixpoint string_chars (s : string) : list value :=
  match s with
  | EmptyString => []
  | String c rest => VStr (String c EmptyString) :: string_chars rest
  end.

(** ** Members of the built-in prototypes (ECMAScript 2023, Annex B
    included) *)

Definition object_prototype : list string :=
  ["constructor"; "__defineGetter__"; "__defineSetter__"; "hasOwnProperty";
   "__lookupGetter__"; "__lookupSetter__"; "isPrototypeOf";
   "propertyIsEnumerable"; "toString"; "valueOf"; "__proto__";
   "toLocaleString"].

Definition array_prototype : list string :=
  ["at"; "concat"; "copyWithin"; "fill"; "find"; "findIndex"; "findLast";
   "findLastIndex"; "lastIndexOf"; "pop"; "push"; "reverse"; "shift";
   "unshift"; "slice"; "sort"; "splice"; "includes"; "indexOf"; "join";
   "keys"; "entries"; "values"; "forEach"; "filter"; "flat"; "flatMap";
   "map"; "every"; "some"; "reduce"; "reduceRight"; "toReversed";
   "toSorted"; "toSpliced"; "with"].

Definition string_prototype : list string :=
  ["anchor"; "at"; "big"; "blink"; "bold"; "charAt"; "charCodeAt";
   "codePointAt"; "concat"; "endsWith"; "fontcolor"; "fontsize"; "fixed";
   "includes"; "indexOf"; "isWellFormed"; "italics"; "lastIndexOf"; "link";
   "localeCompare"; "match"; "matchAll"; "normalize"; "padEnd"; "padStart";
   "repeat"; "replace"; "replaceAll"; "search"; "slice"; "small"; "split";
   "strike"; "sub"; "substr"; "substring"; "sup"; "startsWith";
   "toWellFormed"; "trim"; "trimStart"; "trimLeft"; "trimEnd"; "trimRight";
   "toLocaleLowerCase"; "toLocaleUpperCase"; "toLowerCase"; "toUpperCase"].

Definition number_prototype : list string :=
  ["toExponential"; "toFixed"; "toPrecision"].

(** Whether [k] names a member that an object whose prototype has the
    members [own] inherits, from it or from [Object.prototype]. *)
Definition inherited (own : list string) (k : string) : bool :=
  includes own k || includes object_prototype k.

(** ** Reading, writing and deleting a property *)

(** The read [current[k]]: an own property of a mapping, of an array
    (its properties and [length]) or of a string (its characters and
    [length]), or [undefined]. Reading an inherited member goes beyond
    the model, reading a property of [null] throws. *)
Definition js_get (current : value) (k : string)
  : completion (option value) :=
  match current with
  | VObj o =>
      match prop_get o k with
      | Some x => Returns (Some x)
      | None => if inherited [] k then Beyond else Returns None
      end
  | VArray _ len props =>
      if String.eqb k "length" then Returns (Some (VNum (Z.of_nat len)))
      else match prop_get props k with
           | Some x => Returns (Some x)
           | None =>
               if inherited array_prototype k then Beyond else Returns None
           end
  | VStr s =>
      if String.eqb k "length"
      then Returns (Some (VNum (Z.of_nat (String.length s))))
      else match prop_get (indexed 0 (string_chars s)) k with
           | Some x => Returns (Some x)
           | None =>
               if inherited string_prototype k then Beyond else Returns None
           end
  | VNum _ => if inherited number_prototype k then Beyond else Returns None
  | VBool _ => if inherited [] k then Beyond else Returns None
  | VNull => Throws "TypeError"
  end.

(** The assignment [o[k] = v] on an ordinary object: an own property is
    replaced in place; the inherited setter [__proto__] changes the
    prototype when [v] is an object or [null] and does nothing
    otherwise; any other key becomes a new own property. *)
Definition js_assign (o : obj) (k : string) (v : value) : completion obj :=
  match prop_get o k with
  | Some _ => Returns (prop_set o k v)
  | None =>
      if String.eqb k "__proto__" then
        if typeof_object v then Beyond else Returns o
      else Returns (define_property o k v)
  end.

(** [Object.assign(target, source)]. *)
Definition object_assign (target source : obj) : completion obj :=
  fold_throwing (fun r kv => js_assign r (fst kv) (snd kv)) source target.

(** The own properties that [arr.length = n] keeps. *)
Definition truncate (n : nat) (props : obj) : obj :=
  filter
    (fun kv =>
       match array_index (fst kv) with
       | Some i => (i <? N.of_nat n)%N
       | None => true
       end)
    props.

(** The assignment [arr[k] = v] on the array [id]. Assigning a number
    to [length] truncates or extends the array, assigning a mapping to
    it throws, and the conversion of any other value is not modelled. *)
Definition array_assign (id len : nat) (props : obj) (k : string)
    (v : value) : completion value :=
  if String.eqb k "length" then
    match v with
    | VNum n =>
        if (0 <=? n)%Z && (n <=? 4294967295)%Z
        then Returns (VArray id (Z.to_nat n) (truncate (Z.to_nat n) props))
        else Throws "RangeError"
    | VObj o =>
        Throws (if hasOwnProperty o "toString" then "TypeError"
                else "RangeError")
    | _ => Beyond
    end
  else
    match prop_get props k with
    | Some _ => Returns (VArray id len (prop_set props k v))
    | None =>
        if String.eqb k "__proto__" then
          if typeof_object v then Beyond else Returns (VArray id len props)
        else
          Returns
            (VArray id
               (match array_index k with
                | Some n => Nat.max len (S (N.to_nat n))
                | None => len
                end)
               (define_property props k v))
    end.

(** The assignment [current[k] = v] of [setNestedValue] and
    [unflattenObject], whatever the walk has reached. In strict mode,
    which a class body is in, an assignment to a property of a string,
    a number or a boolean throws, unless it runs the setter
    [__proto__], which does nothing on a primitive. *)
Definition assign_prop (current : value) (k : string) (v : value)
  : completion value :=
  match current with
  | VObj o => let* o' := js_assign o k v in Returns (VObj o')
  | VArray id len props => array_assign id len props k v
  | VNull => Throws "TypeError"
  | _ => if String.eqb k "__proto__" then Returns current
         else Throws "TypeError"
  end.

(** [delete current[k]]. Deleting a property the object lacks, or any
    property of a number or boolean, does nothing; deleting an element
    of an array leaves a hole; deleting [length], or a character of a
    string, throws in strict mode. *)
Definition js_delete (current : value) (k : string) : completion value :=
  match current with
  | VObj o => Returns (VObj (prop_delete o k))
  | VArray id len props =>
      if String.eqb k "length" then Throws "TypeError"
      else Returns (VArray id len (prop_delete props k))
  | VStr s =>
      if String.eqb k "length" then Throws "TypeError"
      else match prop_get (indexed 0 (string_chars s)) k with
           | Some _ => Throws "TypeError"
           | None => Returns current
           end
  | VNull => Throws "TypeError"
  | _ => Returns current
  end.

(** The value [current] once the object it holds at [k] has been
    mutated into [child]; the [length] of an array and the properties
    of a string are primitive values, which nothing mutates. *)
Definition js_replace (current : value) (k : string) (child : value)
  : value :=
  match current with
  | VObj o => VObj (prop_set o k child)
  | VArray id len props =>
      if String.eqb k "length" then current
      else match prop_get props k with
           | Some _ => VArray id len (prop_set props k child)
           | None => current
           end
  | _ => current
  end.

(** ** Flattener *)

Section FlattenLoop.
Context (flatten : value -> string -> completion obj) (prefix : string).

(** The loop [for (const [key, value] of Object.entries(obj))] of
    [flattenObject], [flatten] being the recursive call. *)
Fixpoint flatten_loop (entries : list (string * value)) (result : obj)
  : completion obj :=
  match entries with
  | [] => Returns result
  | (key, value) :: rest =>
      let newKey :=
        if truthy_string prefix then dotted prefix key else key in
      let* result' :=
        if is_mapping value
        then let* nested := flatten value newKey in
             object_assign result nested
        else js_assign result newKey value in
      flatten_loop rest result'
  end.
End FlattenLoop.

(** [flattenObject(obj, prefix)], by recursion on the nesting of [v]. *)
Fixpoint flattenValue (v : value) (prefix : string) : completion obj :=
  match v with
  | VObj props => flatten_loop flattenValue prefix props []
  | _ => Returns []
  end.

Definition flattenObject (o : obj) (prefix : string) : completion obj :=
  flattenValue (VObj o) prefix.

(** The walk shared by [unflattenObject] and [setNestedValue]:
    [if (!current[k]) current[k] = {}; current = current[k]] for every
    key but the last, then the assignment. The object held at an
    intermediate key is updated in place, so the key keeps its
    position. *)
Fixpoint set_path (current : value) (keys : list string) (v : value)
  : completion value :=
  match keys with
  | [] => Returns current
  | [k] => assign_prop current k v
  | k :: rest =>
      let* read := js_get current k in
      let* current' :=
        if truthy_read read then Returns current
        else assign_prop current k (VObj []) in
      let* next := js_get current' k in
      match next with
      | Some child =>
          let* child' := set_path child rest v in
          Returns (js_replace current' k child')
      | None => Throws "TypeError"
      end
  end.

(** [setNestedValue(obj, key, value)]: the object once the call has
    returned. *)
Definition setNestedValue (o : obj) (key : string) (v : value)
  : completion obj :=
  let* o' := set_path (VObj o) (split_dot key) v in
  match o' with
  | VObj props => Returns props
  | _ => Beyond
  end.

(** [unflattenObject(flatObj)]. *)
Definition unflattenObject (flatObj : obj) : completion obj :=
  fold_throwing (fun result kv => setNestedValue result (fst kv) (snd kv))
    flatObj [].

(** ** Change detector *)

(** An entry [{ key, value }] of [newKeys]. *)
Record NewKey : Type := mkNewKey { nk_key : string; nk_value : value }.

(** An entry [{ key, oldValue, newValue }] of [modifiedKeys]. *)
Record ModifiedKey : Type :=
  mkModifiedKey { mk_key : string; mk_oldValue : value; mk_newValue : value }.

(** The per-document change set built by [detectFileChanges]. *)
Record FileChanges : Type := mkFileChanges {
  fc_hasChanges : bool;
  fc_newKeys : list NewKey;
  fc_modifiedKeys : list ModifiedKey;
  fc_deletedKeys : list string
}.

Definition no_file_changes : FileChanges :=
  mkFileChanges false [] [] [].

(** The call [flat.hasOwnProperty(key)] on a flat map: the method is
    looked up on the flat map itself, where a key of that name hides
    the inherited one behind a leaf, which is no function. *)
Definition call_hasOwnProperty (flat : obj) (key : string)
  : completion bool :=
  match prop_get flat "hasOwnProperty" with
  | Some _ => Throws "TypeError"
  | None => Returns (hasOwnProperty flat key)
  end.

(** Whether [k] names an element of an array of length [len]. *)
Definition is_element (len : nat) (k : string) : bool :=
  match array_index k with
  | Some n => (n <? N.of_nat len)%N
  | None => false
  end.

(** Whether rendering [v] in a template literal, [`${v}`], throws: a
    mapping with an own [toString], which is no function, cannot be
    converted; an array is converted by joining its elements, unless an
    own [join] hides the inherited one. *)
Fixpoint template_throws (v : value) : bool :=
  match v with
  | VObj props => hasOwnProperty props "toString"
  | VArray _ len props =>
      hasOwnProperty props "toString"
      || negb (hasOwnProperty props "join")
         && existsb
              (fun '(k, x) => is_element len k && template_throws x)
              props
  | _ => false
  end.

(** The console output of a value. *)
Definition log_value (v : value) : completion unit :=
  if template_throws v then Throws "TypeError" else Returns tt.

(** Body of the first loop of [detectFileChanges]. *)
Definition detect_current_entry (previousFlat : obj)
    (changes : FileChanges) (entry : string * value)
  : completion FileChanges :=
  let (key, value) := entry in
  let* known := call_hasOwnProperty previousFlat key in
  if negb known then
    let* _ := log_value value in
    Returns
      (mkFileChanges true
         (fc_newKeys changes ++ [mkNewKey key value])
         (fc_modifiedKeys changes) (fc_deletedKeys changes))
  else
    match prop_get previousFlat key with
    | Some old =>
        if negb (strict_eq old value) then
          let* _ := log_value old in
          let* _ := log_value value in
          Returns
            (mkFileChanges true (fc_newKeys changes)
               (fc_modifiedKeys changes ++ [mkModifiedKey key old value])
               (fc_deletedKeys changes))
        else Returns changes
    | None => Returns changes
    end.

(** Body of the second loop of [detectFileChanges]. *)
Definition detect_previous_key (currentFlat : obj)
    (changes : FileChanges) (key : string) : completion FileChanges :=
  let* known := call_hasOwnProperty currentFlat key in
  if negb known then
    Returns
      (mkFileChanges true (fc_newKeys changes) (fc_modifiedKeys changes)
         (fc_deletedKeys changes ++ [key]))
  else Returns changes.

(** [detectFileChanges(previousContent, currentContent, fileName)]. *)
Definition detectFileChanges (previousContent currentContent : obj)
  : completion FileChanges :=
  let* previousFlat := flattenObject previousContent "" in
  let* currentFlat := flattenObject currentContent "" in
  let* changes :=
    fold_throwing (detect_current_entry previousFlat) currentFlat
      no_file_changes in
  fold_throwing (detect_previous_key currentFlat) (own_keys previousFlat)
    changes.

(** A set of documents by file name. *)
Abbreviation files := (jsobject obj) (only parsing).

(** The run-level record built by [detectChanges]. *)
Record Changes : Type := mkChanges {
  hasChanges : bool;
  newFiles : list string;
  modifiedFiles : list string;
  newKeys : jsobject (list NewKey);
  modifiedKeys : jsobject (list ModifiedKey);
  deletedKeys : jsobject (list string)
}.

Definition no_changes : Changes := mkChanges false [] [] [] [] [].

(** Body of the first loop of [detectChanges]; a document is an object,
    hence truthy whenever it is present. *)
Definition detect_new_file (previousFiles : files)
    (changes : Changes) (fileName : string) : Changes :=
  match prop_get previousFiles fileName with
  | None =>
      mkChanges true (newFiles changes ++ [fileName]) (modifiedFiles changes)
        (newKeys changes) (modifiedKeys changes) (deletedKeys changes)
  | Some _ => changes
  end.

(** Body of the second loop of [detectChanges]. *)
Definition detect_existing_file (previousFiles : files)
    (changes : Changes) (entry : string * obj) : completion Changes :=
  let (fileName, currentContent) := entry in
  match prop_get previousFiles fileName with
  | Some previousContent =>
      let* fileChanges := detectFileChanges previousContent currentContent in
      if fc_hasChanges fileChanges then
        Returns
          (mkChanges true (newFiles changes)
             (modifiedFiles changes ++ [fileName])
             (prop_set (newKeys changes) fileName (fc_newKeys fileChanges))
             (prop_set (modifiedKeys changes) fileName
                (fc_modifiedKeys fileChanges))
             (prop_set (deletedKeys changes) fileName
                (fc_deletedKeys fileChanges)))
      else Returns changes
  | None => Returns changes
  end.

(** [detectChanges(previousFiles, currentFiles)]. *)
Definition detectChanges (previousFiles currentFiles : files)
  : completion Changes :=
  let changes :=
    fold_left (detect_new_file previousFiles) (own_keys currentFiles)
      no_changes in
  fold_throwing (detect_existing_file previousFiles) currentFiles changes.

(** ** Delta builder *)

(** [setNestedValue(contentToTranslate[fileName], key, value)]. *)
Definition set_in_file (fileName : string) (content : files)
    (key : string) (v : value) : completion files :=
  match prop_get content fileName with
  | Some doc =>
      let* doc' := setNestedValue doc key v in
      Returns (prop_set content fileName doc')
  | None => Throws "TypeError"
  end.

(** Body of the loop over [changes.modifiedFiles] in [translateChanges]. *)
Definition add_modified_file (changes : Changes) (content : files)
    (fileName : string) : completion files :=
  let content1 :=
    match prop_get content fileName with
    | Some _ => content
    | None => prop_set content fileName []
    end in
  let* content2 :=
    match prop_get (newKeys changes) fileName with
    | Some nks =>
        fold_throwing
          (fun c nk => set_in_file fileName c (nk_key nk) (nk_value nk))
          nks content1
    | None => Returns content1
    end in
  match prop_get (modifiedKeys changes) fileName with
  | Some mks =>
      fold_throwing
        (fun c mk => set_in_file fileName c (mk_key mk) (mk_newValue mk))
        mks content2
  | None => Returns content2
  end.

(** The object [contentToTranslate] that [translateChanges] builds from
    the change record and the base files read again from disk. A new
    file that the second read no longer has would be stored as
    [undefined], which is beyond the model. *)
Definition contentToTranslate (changes : Changes) (currentFiles : files)
  : completion files :=
  let* content :=
    fold_throwing
      (fun content fileName =>
         match prop_get currentFiles fileName with
         | Some doc => Returns (prop_set content fileName doc)
         | None => Beyond
         end)
      (newFiles changes) [] in
  fold_throwing (add_modified_file changes) (modifiedFiles changes) content.

(** What [translateChanges] asks of the translation collaborator. *)
Inductive Request : Type :=
| NoCall
| CallClaude (content : files).

Definition translateChanges_request (changes : Changes)
    (currentFiles : files) : completion Request :=
  if negb (hasChanges changes) then Returns NoCall
  else
    let* content := contentToTranslate changes currentFiles in
    if Nat.eqb (List.length (own_keys content)) 0 then Returns NoCall
    else Returns (CallClaude content).

(** Translated documents by language, then by file name. *)
Abbreviation translations := (jsobject files) (only parsing).

(** ** Merger *)

(** The spread [{ ...target }]: own enumerable properties of a mapping
    or of an array. *)
Definition spread (target : value) : obj :=
  match target with
  | VObj o => o
  | VArray _ _ props => props
  | _ => []
  end.

Section MergeLoop.
Context (merge : value -> value -> completion obj).

(** The loop [for (const [key, value] of Object.entries(source))] of
    [deepMerge]; [merge value existing] is the recursive call
    [deepMerge(result[key], value)]. Where [result] has no own [key],
    [result[key]] reads the inherited member: an object for
    [__proto__], a function for any other. *)
Fixpoint merge_loop (entries : list (string * value)) (result : obj)
  : completion obj :=
  match entries with
  | [] => Returns result
  | (key, value) :: rest =>
      let* result' :=
        if is_mapping value then
          match prop_get result key with
          | Some existing =>
              if is_object existing
              then let* merged := merge value existing in
                   js_assign result key (VObj merged)
              else js_assign result key value
          | None =>
              if String.eqb key "__proto__" then Beyond
              else js_assign result key value
          end
        else js_assign result key value in
      merge_loop rest result'
  end.
End MergeLoop.

(** [deepMerge(target, source)], by recursion on the nesting of
    [source]. *)
Fixpoint deepMergeValue (source : value) (target : value)
  : completion obj :=
  match source with
  | VObj props => merge_loop deepMergeValue props (spread target)
  | _ => Returns (spread target)
  end.

Definition deepMerge (target source : obj) : completion obj :=
  deepMergeValue (VObj source) (VObj target).

(** The walk of [deleteNestedKey]. *)
Fixpoint delete_path (current : value) (keys : list string)
  : completion value :=
  match keys with
  | [] => Returns current
  | [k] => js_delete current k
  | k :: rest =>
      let* read := js_get current k in
      match read with
      | Some child =>
          if truthy child then
            let* child' := delete_path child rest in
            Returns (js_replace current k child')
          else Returns current
      | None => Returns current
      end
  end.

(** [deleteNestedKey(obj, key)]: the object once the call has
    returned. *)
Definition deleteNestedKey (o : obj) (key : string) : completion obj :=
  let* o' := delete_path (VObj o) (split_dot key) in
  match o' with
  | VObj props => Returns props
  | _ => Beyond
  end.

(** ** JSON text *)

(** The elements that [JSON.stringify] writes for an array of length
    [len]: a hole is written [null]. *)
Definition dense (len : nat) (props : obj) : list value :=
  map
    (fun i =>
       match prop_get props (index_key i) with
       | Some x => x
       | None => VNull
       end)
    (seq 0 len).

Section CloneLoops.
Context {A : Type} (clone_elt : A -> nat -> A * nat).

(** Clone of a dictionary whose values are cloned by [clone_elt]. *)
Fixpoint clone_map (m : jsobject A) (next : nat) : jsobject A * nat :=
  match m with
  | [] => ([], next)
  | (k, x) :: rest =>
      let '(x', n1) := clone_elt x next in
      let '(rest', n2) := clone_map rest n1 in
      ((k, x') :: rest', n2)
  end.
End CloneLoops.

(** [JSON.parse(JSON.stringify(v))]: the tree that the text of [v]
    denotes, every array being a new object; [next] is the first unused
    array identity. *)
Fixpoint json_clone (v : value) (next : nat) : value * nat :=
  match v with
  | VArray _ len props =>
      let '(props', next') := clone_map json_clone props next in
      (VArr next' (dense len props'), S next')
  | VObj props =>
      let '(props', next') := clone_map json_clone props next in
      (VObj props', next')
  | _ => (v, next)
  end.

Definition clone_doc (d : obj) (next : nat) : obj * nat :=
  match json_clone (VObj d) next with
  | (VObj d', n) => (d', n)
  | (_, n) => (d, n)
  end.

(** The documents that [JSON.parse] makes of the texts of a set of
    files. *)
Definition parse_files (texts : files) (next : nat) : files * nat :=
  clone_map clone_doc texts next.

Definition clone_translations (t : translations) (next : nat)
  : translations * nat :=
  clone_map (clone_map clone_doc) t next.

(** The tree that the text [JSON.stringify(v)] denotes: arrays dense,
    their identities forgotten. Two values are structurally identical
    when these trees are equal. *)
Fixpoint erase (v : value) : value :=
  match v with
  | VArray _ len props =>
      VArr 0 (dense len (map (fun '(k, x) => (k, erase x)) props))
  | VObj props => VObj (map (fun '(k, x) => (k, erase x)) props)
  | _ => v
  end.

Definition erase_map {A : Type} (e : A -> A) (m : jsobject A) : jsobject A :=
  map (fun '(k, x) => (k, e x)) m.

Definition erase_doc (d : obj) : obj := erase_map erase d.

Definition erase_files (f : files) : files := erase_map erase_doc f.

Definition erase_translations (t : translations) : translations :=
  erase_map erase_files t.

(** [this.targetLanguages] of [IncrementalTranslationProcessor]. *)
Definition targetLanguages : list string :=
  ["de"; "es"; "fr"; "fr-ca"; "ja"; "ko"; "nl"; "pt"; "zh-cn"; "zh-hk"; "it"].

(** Body of the loop over [Object.entries(newTranslations[language])].
    The file names of a reply are whatever the reply has: one that names
    a member of [Object.prototype] and no document of [merged] is read
    from the prototype, and a new name that is an array index takes its
    place among the indices. *)
Definition merge_file (merged : files) (entry : string * obj)
  : completion files :=
  let (fileName, newContent) := entry in
  match prop_get merged fileName with
  | None =>
      if includes object_prototype fileName then Beyond
      else Returns (define_property merged fileName newContent)
  | Some existing =>
      let* result := deepMerge existing newContent in
      Returns (prop_set merged fileName result)
  end.

(** Body of the loop over [changes.modifiedFiles]: the deletions of one
    file, applied to one language. *)
Definition delete_in_file (changes : Changes) (merged : files)
    (fileName : string) : completion files :=
  match prop_get (deletedKeys changes) fileName, prop_get merged fileName with
  | Some deleted, Some doc =>
      let* doc' := fold_throwing deleteNestedKey deleted doc in
      Returns (prop_set merged fileName doc')
  | _, _ => Returns merged
  end.

(** Body of the loop over [this.targetLanguages] in [mergeTranslations]. *)
Definition merge_language (newTranslations : translations)
    (changes : Changes) (mergedTranslations : translations)
    (language : string) : completion translations :=
  let current :=
    match prop_get mergedTranslations language with
    | Some fs => fs
    | None => []
    end in
  let* added :=
    match prop_get newTranslations language with
    | Some newFiles => fold_throwing merge_file newFiles current
    | None => Returns current
    end in
  let* final :=
    fold_throwing (delete_in_file changes) (modifiedFiles changes) added in
  Returns (prop_set mergedTranslations language final).

(** [mergeTranslations(existingTranslations, newTranslations, changes)];
    [next] is the first array identity the deep clone may use. *)
Definition mergeTranslations (next : nat)
    (existingTranslations newTranslations : translations)
    (changes : Changes) : completion translations :=
  let mergedTranslations :=
    fst (clone_translations existingTranslations next) in
  fold_throwing (merge_language newTranslations changes)
    targetLanguages mergedTranslations.

(** ** The run: collaborators at the boundary *)

(** [loadExistingTranslations()]: for every target language, the
    non-empty documents found on [disk]. *)
Definition loadExistingTranslations (disk : translations) : translations :=
  fold_left
    (fun existing language =>
       prop_set existing language
         (match prop_get disk language with
          | Some langFiles =>
              fold_left
                (fun loaded entry =>
                   if Nat.ltb 0 (List.length (own_keys (snd entry)))
                   then prop_set loaded (fst entry) (snd entry)
                   else loaded)
                langFiles []
          | None => []
          end))
    targetLanguages [].

(** The parsed reply of the remote service, as a function of the content
    embedded in the prompt; [inl] is a thrown error message. *)
Definition Collaborator : Type := files -> string + translations.

(** The tail of [callAnthropicAPI] and of [callClaudeOAuth] in
    [IncrementalTranslationProcessor]: the parsed reply is returned as it
    is. *)
Definition callAnthropicAPI (api : Collaborator) (content : files)
  : string + translations :=
  match api content with
  | inr parsed => inr parsed
  | inl message => inl message
  end.

(** [callClaude(contentToTranslate)]: errors are wrapped and thrown
    again. *)
Definition callClaude (api : Collaborator) (content : files)
  : string + translations :=
  match callAnthropicAPI api content with
  | inr parsed => inr parsed
  | inl message => inl ("Error calling Claude: " ++ message)%string
  end.

(** [translateChanges(changes)]: the reply of the collaborator to the
    content built from the change record, or no translation at all when
    there is nothing to ask; [currentFiles] is what the second call of
    [readBaseFiles] returns. *)
Definition translateChanges (api : Collaborator) (changes : Changes)
    (currentFiles : files) : completion (string + translations) :=
  let* request := translateChanges_request changes currentFiles in
  match request with
  | NoCall => Returns (inr [])
  | CallClaude content => Returns (callClaude api content)
  end.

(** A call of [fs.writeFile] by [saveTranslations], [w_content] being
    the object handed to [JSON.stringify]. *)
Record Write : Type :=
  mkWrite { w_language : string; w_fileName : string; w_content : obj }.

(** [saveTranslations(translations)]: the files written, in order. *)
Definition saveTranslations (t : translations) : list Write :=
  flat_map
    (fun entry =>
       if includes targetLanguages (fst entry)
       then map (fun f => mkWrite (fst entry) (fst f) (snd f)) (snd entry)
       else [])
    t.

(** The arrays held in a tree, by identity, an array before the arrays
    it holds. *)
Fixpoint arrays_of (v : value) : list (nat * value) :=
  match v with
  | VArray id _ props => (id, v) :: flat_map (fun '(_, x) => arrays_of x) props
  | VObj props => flat_map (fun '(_, x) => arrays_of x) props
  | _ => []
  end.

(** The array that [table] holds under the identity [id]. *)
Fixpoint array_of (table : list (nat * value)) (id : nat) : option value :=
  match table with
  | [] => None
  | (id', a) :: rest => if Nat.eqb id' id then Some a else array_of rest id
  end.

(** The tree [v] as it is once the arrays of [table], some of which it
    may hold, have been written into. *)
Fixpoint refresh (table : list (nat * value)) (v : value) : value :=
  match v with
  | VArray id len props =>
      match array_of table id with
      | Some a => a
      | None => VArray id len (map (fun '(k, x) => (k, refresh table x)) props)
      end
  | VObj props => VObj (map (fun '(k, x) => (k, refresh table x)) props)
  | _ => v
  end.

(** The text that [saveCurrentState(currentFiles)] writes, as the tree
    it denotes. The leaves of [currentFiles] that are arrays are the
    very objects that [translateChanges] has stored in [content], and
    possibly written into. *)
Definition saved_state (content currentFiles : files) : files :=
  let table :=
    flat_map (fun '(_, doc) => arrays_of (VObj doc)) content in
  erase_files
    (map
       (fun '(fileName, doc) =>
          (fileName, map (fun '(k, x) => (k, refresh table x)) doc))
       currentFiles).

(** How [translateIncremental] ends. [Exit] is [process.exit(1)] after
    the error caught has been reported: it carries the message of an
    error thrown by the collaborator, and the name of an error thrown
    by the language. [Unmodelled] is the end of a run that went beyond
    the model. *)
Inductive Outcome : Type :=
| Exit (message : string)
| NothingToTranslate
| Updated (written : list Write) (state : files)
| Unmodelled.

(** The end of a run whose body has completed: what was thrown is
    caught and ends the process. *)
Definition finish (c : completion Outcome) : Outcome :=
  match c with
  | Returns outcome => outcome
  | Throws error => Exit error
  | Beyond => Unmodelled
  end.

(** [translateIncremental()]: [baseFiles] is the content of the base
    files, [stateFile] that of the state file (empty when there is
    none), both parsed anew by every read, [disk] the translated files
    present before the run, and [next] the first unused array
    identity. *)
Definition translateIncremental (next : nat) (api : Collaborator)
    (baseFiles stateFile : files) (disk : translations) : Outcome :=
  let '(currentFiles, next1) := parse_files baseFiles next in
  let '(previousFiles, next2) := parse_files stateFile next1 in
  finish
    (let* changes := detectChanges previousFiles currentFiles in
     if hasChanges changes then
       let existingTranslations := loadExistingTranslations disk in
       let '(reread, next3) := parse_files baseFiles next2 in
       let* content := contentToTranslate changes reread in
       let* reply := translateChanges api changes reread in
       match reply with
       | inl message => Returns (Exit message)
       | inr newTranslations =>
           let* mergedTranslations :=
             mergeTranslations next3 existingTranslations newTranslations
               changes in
           Returns
             (Updated (saveTranslations mergedTranslations)
                (saved_state content currentFiles))
       end
     else Returns NothingToTranslate).

(** The sibling class of the same file, which translates every document
    in full. *)
Module IntelligentTranslationProcessorClaude.

(** Its [this.targetLanguages]. *)
Definition targetLanguages : list string :=
  ["de"; "es"; "fr"; "fr-ca"; "ja"; "ko"; "nl"; "pt"; "zh-cn"; "zh-hk";
   "it"].

(** The validation loop [for (const lang of expectedLanguages)]: the
    message thrown for the first language the reply lacks. *)
Fixpoint validate (expectedLanguages : list string)
    (parsed : translations) : option string :=
  match expectedLanguages with
  | [] => None
  | lang :: rest =>
      match prop_get parsed lang with
      | None => Some ("Missing translation for language: " ++ lang)%string
      | Some _ => validate rest parsed
      end
  end.

(** The tail of its [callAnthropicAPI]: parse, validate, and wrap what
    was thrown. *)
Definition callAnthropicAPI (api : Collaborator) (content : files)
  : string + translations :=
  match api content with
  | inr parsed =>
      match validate targetLanguages parsed with
      | Some message => inl ("JSON Parse Error: " ++ message)%string
      | None => inr parsed
      end
  | inl message => inl message
  end.
(** Its [saveTranslations(translations)]: the files written, or the
    message thrown, before anything is written, for the first target
    language that [translations] lacks. A language outside the target
    list is skipped. *)
Definition saveTranslations (t : translations) : string + list Write :=
  match
    find (fun language => negb (hasOwnProperty t language)) targetLanguages
  with
  | Some language =>
      inl ("Missing translations for language: " ++ language)%string
  | None =>
      inr (flat_map
             (fun entry =>
                if includes targetLanguages (fst entry)
                then map (fun f => mkWrite (fst entry) (fst f) (snd f))
                       (snd entry)
                else [])
             t)
  end.
End IntelligentTranslationProcessorClaude.

(** [l] with its element at position [i] replaced. *)
Fixpoint replace_nth {A : Type} (l : list A) (i : nat) (x : A) : list A :=
  match l, i with
  | [], _ => []
  | _ :: rest, O => x :: rest
  | y :: rest, S i' => y :: replace_nth rest i' x
  end.

(** ** The merger on a heap of objects

    The same merger with objects held in a store and passed by
    reference, as the JavaScript runs it: a property assignment or a
    [delete] changes the object for every holder of a reference to it. *)

Module Heap.

Definition loc : Type := nat.

(** A value as a variable or a property holds it. *)
Inductive hval : Type :=
| HNull
| HBool (b : bool)
| HNum (n : Z)
| HStr (s : string)
| HRef (l : loc).

(** An object of the store: a mapping, or an array with its [length];
    the elements of an array are its properties named by index. *)
Record hobject : Type :=
  mkObject { array_length : option nat; fields : jsobject hval }.

Abbreviation heap := (list hobject) (only parsing).

(** A computation on the store that may throw. *)
Definition M (A : Type) : Type := heap -> option (A * heap).

Definition ret {A : Type} (a : A) : M A := fun h => Some (a, h).

Definition throw {A : Type} : M A := fun _ => None.

Definition bind {A B : Type} (c : M A) (k : A -> M B) : M B :=
  fun h => match c h with Some (a, h') => k a h' | None => None end.

Notation "x <- c ;; k" := (bind c (fun x => k))
  (at level 61, c at next level, right associativity).
Notation "c ;;; k" := (bind c (fun _ => k))
  (at level 61, right associativity).

(** A new object. *)
Definition alloc (o : hobject) : M loc :=
  fun h => Some (List.length h, h ++ [o]).

Definition load (l : loc) : M hobject :=
  fun h => match nth_error h l with Some o => Some (o, h) | None => None end.

Definition store (l : loc) (o : hobject) : M unit :=
  fun h => if Nat.ltb l (List.length h) then Some (tt, replace_nth h l o)
           else None.

(** [for (const x of xs) body]. *)
Fixpoint for_each {X : Type} (xs : list X) (body : X -> M unit) : M unit :=
  match xs with
  | [] => ret tt
  | x :: rest => body x ;;; for_each rest body
  end.

Section MapM.
Context {X Y : Type} (f : X -> M Y).

Fixpoint map_m (xs : list X) : M (list Y) :=
  match xs with
  | [] => ret []
  | x :: rest => y <- f x ;; ys <- map_m rest ;; ret (y :: ys)
  end.
End MapM.

Definition truthy (v : hval) : bool :=
  match v with
  | HNull => false
  | HBool b => b
  | HNum n => negb (Z.eqb n 0)
  | HStr s => truthy_string s
  | HRef _ => true
  end.

(** Truthiness of a property read; [None] is [undefined]. *)
Definition truthy_opt (o : option hval) : bool :=
  match o with Some v => truthy v | None => false end.

(** The characters of a string as own properties. *)
Fixpoint chars (i : nat) (s : string) : jsobject hval :=
  match s with
  | EmptyString => []
  | String c rest => (index_key i, HStr (String c EmptyString)) :: chars (S i) rest
  end.

(** The read [v[k]]; reading a property of [null] throws. *)
Definition get_prop (v : hval) (k : string) : M (option hval) :=
  match v with
  | HRef l =>
      o <- load l ;;
      ret (match array_length o with
           | Some n =>
               if String.eqb k "length" then Some (HNum (Z.of_nat n))
               else prop_get (fields o) k
           | None => prop_get (fields o) k
           end)
  | HStr s =>
      ret (if String.eqb k "length"
           then Some (HNum (Z.of_nat (String.length s)))
           else prop_get (chars 0 s) k)
  | HNull => throw
  | _ => ret None
  end.

(** The assignment [v[k] = x]. On a primitive it throws; on an array it
    is outside the model. *)
Definition set_prop (v : hval) (k : string) (x : hval) : M unit :=
  match v with
  | HRef l =>
      o <- load l ;;
      match array_length o with
      | None => store l (mkObject None (prop_set (fields o) k x))
      | Some _ => throw
      end
  | _ => throw
  end.

(** [delete v[k]]. Deleting an element of an array leaves a hole;
    deleting [length] or a character of a string throws. *)
Definition delete_prop (v : hval) (k : string) : M unit :=
  match v with
  | HRef l =>
      o <- load l ;;
      match array_length o with
      | None => store l (mkObject None (prop_delete (fields o) k))
      | Some n =>
          if String.eqb k "length" then throw
          else store l (mkObject (Some n) (prop_delete (fields o) k))
      end
  | HStr s =>
      if String.eqb k "length" then throw
      else match prop_get (chars 0 s) k with
           | Some _ => throw
           | None => ret tt
           end
  | HNull => throw
  | _ => ret tt
  end.

(** [typeof v === 'object' && v !== null && !Array.isArray(v)]. *)
Definition is_mapping (v : hval) : M bool :=
  match v with
  | HRef l =>
      o <- load l ;;
      ret (match array_length o with None => true | Some _ => false end)
  | _ => ret false
  end.

(** [typeof v === 'object' && v !== null]. *)
Definition is_object (v : option hval) : bool :=
  match v with Some (HRef _) => true | _ => false end.

(** [Object.entries(v)]. *)
Definition object_entries (v : hval) : M (jsobject hval) :=
  match v with
  | HRef l => o <- load l ;; ret (fields o)
  | HStr s => ret (chars 0 s)
  | HNull => throw
  | _ => ret []
  end.

(** The walk of [deleteNestedKey]. *)
Fixpoint delete_walk (current : hval) (keys : list string) : M unit :=
  match keys with
  | [] => ret tt
  | [k] => delete_prop current k
  | k :: rest =>
      next <- get_prop current k ;;
      match next with
      | Some child => if truthy child then delete_walk child rest else ret tt
      | None => ret tt
      end
  end.

(** [deleteNestedKey(obj, key)]. *)
Definition deleteNestedKey (o : hval) (key : string) : M unit :=
  delete_walk o (split_dot key).

(** [deepMerge(target, source)]; [fuel] bounds the nesting of
    [source]. *)
Fixpoint deepMerge (fuel : nat) (target source : hval) : M hval :=
  match fuel with
  | O => throw
  | S fuel' =>
      copied <- object_entries target ;;
      result <- alloc (mkObject None copied) ;;
      entries <- object_entries source ;;
      for_each entries
        (fun entry =>
           let (key, value) := entry in
           nested <- is_mapping value ;;
           if nested then
             existing <- get_prop (HRef result) key ;;
             if is_object existing then
               match existing with
               | Some e =>
                   merged <- deepMerge fuel' e value ;;
                   set_prop (HRef result) key merged
               | None => throw
               end
             else set_prop (HRef result) key value
           else set_prop (HRef result) key value) ;;;
      ret (HRef result)
  end.

(** [JSON.stringify(v)], as the tree it denotes; [fuel] bounds the
    nesting, and a cyclic structure throws. *)
Fixpoint stringify (fuel : nat) (v : hval) : M value :=
  match v with
  | HNull => ret VNull
  | HBool b => ret (VBool b)
  | HNum n => ret (VNum n)
  | HStr s => ret (VStr s)
  | HRef l =>
      match fuel with
      | O => throw
      | S fuel' =>
          o <- load l ;;
          match array_length o with
          | None =>
              props <- map_m
                         (fun kx => x <- stringify fuel' (snd kx) ;;
                                    ret (fst kx, x))
                         (fields o) ;;
              ret (VObj props)
          | Some n =>
              elems <- map_m
                         (fun i =>
                            match prop_get (fields o) (index_key i) with
                            | Some x => stringify fuel' x
                            | None => ret VNull
                            end)
                         (seq 0 n) ;;
              ret (VArr 0 elems)
          end
      end
  end.

(** [JSON.parse(text)] for the text of [v]: every mapping and array is
    a new object. *)
Fixpoint parse (v : value) : M hval :=
  match v with
  | VNull => ret HNull
  | VBool b => ret (HBool b)
  | VNum n => ret (HNum n)
  | VStr s => ret (HStr s)
  | VArray _ len props =>
      fs <- map_m (fun kx => x <- parse (snd kx) ;; ret (fst kx, x)) props ;;
      l <- alloc (mkObject (Some len) fs) ;;
      ret (HRef l)
  | VObj props =>
      fs <- map_m (fun kx => x <- parse (snd kx) ;; ret (fst kx, x)) props ;;
      l <- alloc (mkObject None fs) ;;
      ret (HRef l)
  end.

(** [mergedTranslations[language][fileName]]. *)
Definition get_document (merged : hval) (language fileName : string)
  : M (option hval) :=
  files <- get_prop merged language ;;
  match files with
  | Some fs => get_prop fs fileName
  | None => throw
  end.

(** [mergedTranslations[language][fileName] = x]. *)
Definition set_document (merged : hval) (language fileName : string)
    (x : hval) : M unit :=
  files <- get_prop merged language ;;
  match files with
  | Some fs => set_prop fs fileName x
  | None => throw
  end.

(** Body of the loop over [this.targetLanguages]. *)
Definition merge_language (fuel : nat) (newTranslations : hval)
    (changes : Changes) (merged : hval) (language : string) : M unit :=
  current <- get_prop merged language ;;
  (if truthy_opt current then ret tt
   else created <- alloc (mkObject None []) ;;
        set_prop merged language (HRef created)) ;;;
  added <- get_prop newTranslations language ;;
  match added with
  | Some newFiles =>
      if truthy newFiles then
        entries <- object_entries newFiles ;;
        for_each entries
          (fun entry =>
             let (fileName, newContent) := entry in
             existing <- get_document merged language fileName ;;
             match existing with
             | Some doc =>
                 if truthy doc then
                   result <- deepMerge fuel doc newContent ;;
                   set_document merged language fileName result
                 else set_document merged language fileName newContent
             | None => set_document merged language fileName newContent
             end)
      else ret tt
  | None => ret tt
  end ;;;
  for_each (modifiedFiles changes)
    (fun fileName =>
       match prop_get (deletedKeys changes) fileName with
       | Some deleted =>
           existing <- get_document merged language fileName ;;
           if truthy_opt existing then
             for_each deleted
               (fun deletedKey =>
                  doc <- get_document merged language fileName ;;
                  match doc with
                  | Some d => deleteNestedKey d deletedKey
                  | None => throw
                  end)
           else ret tt
       | None => ret tt
       end).

(** [mergeTranslations(existingTranslations, newTranslations, changes)]. *)
Definition mergeTranslations (fuel : nat)
    (existingTranslations newTranslations : hval) (changes : Changes)
  : M hval :=
  text <- stringify fuel existingTranslations ;;
  mergedTranslations <- parse text ;;
  for_each targetLanguages
    (merge_language fuel newTranslations changes mergedTranslations) ;;;
  ret mergedTranslations.

(** The objects that a value leads to in a store. *)
Inductive reach (h : heap) : hval -> loc -> Prop :=
| reach_root : forall l o,
    nth_error h l = Some o -> reach h (HRef l) l
| reach_step : forall v l o k l' o',
    reach h v l ->
    nth_error h l = Some o ->
    In (k, HRef l') (fields o) ->
    nth_error h l' = Some o' ->
    reach h v l'.

End Heap.
(** ** Notions used to state the properties *)

(** The document of [fileName] in [language], if any. *)
Definition document_of (t : translations) (language fileName : string)
  : option obj :=
  match prop_get t language with
  | Some fs => prop_get fs fileName
  | None => None
  end.

(** ASCII code 46. *)
Definition dot : ascii := "."%char.

(** A key that the dotted-path encoding can carry: not empty, no dot. *)
Fixpoint dot_free (s : string) : bool :=
  match s with
  | EmptyString => true
  | String c rest => negb (Ascii.eqb c dot) && dot_free rest
  end.

Definition plain_key (s : string) : bool := truthy_string s && dot_free s.

(** [P] holds of every value stored in the dictionary. *)
Fixpoint all_values (P : value -> Prop) (l : list (string * value)) : Prop :=
  match l with
  | [] => True
  | (_, x) :: rest => P x /\ all_values P rest
  end.

(** Every mapping of the tree, arrays being opaque, has pairwise distinct
    plain keys. *)
Fixpoint plain_keys (v : value) : Prop :=
  match v with
  | VObj props =>
      NoDup (own_keys props)
      /\ forallb plain_key (own_keys props) = true
      /\ all_values plain_keys props
  | _ => True
  end.

(** No mapping nested in the tree is empty. *)
Fixpoint no_empty_mapping (v : value) : Prop :=
  match v with
  | VObj props =>
      all_values (fun x => x <> VObj [] /\ no_empty_mapping x) props
  | _ => True
  end.

(** The flat path of a sequence of keys: the keys joined by dots. *)
Fixpoint join_path (keys : list string) : string :=
  match keys with
  | [] => EmptyString
  | [k] => k
  | k :: rest => dotted k (join_path rest)
  end.

Section Leaves.
Context (leaves : value -> list (list string * value)).

(** The leaves below the entries of a mapping, in order. *)
Fixpoint leaves_of_entries (entries : list (string * value))
  : list (list string * value) :=
  match entries with
  | [] => []
  | (k, x) :: rest =>
      (if is_mapping x
       then map (fun pl => (k :: fst pl, snd pl)) (leaves x)
       else [([k], x)])
      ++ leaves_of_entries rest
  end.
End Leaves.

(** The leaves of a tree with the sequence of keys that leads to each,
    depth first; arrays are leaves. *)
Fixpoint leaves (v : value) : list (list string * value) :=
  match v with
  | VObj props => leaves_of_entries leaves props
  | _ => []
  end.

(** The value reached from [v] through nested mappings along [keys]. *)
Fixpoint lookup_path (v : value) (keys : list string) : option value :=
  match keys with
  | [] => Some v
  | k :: rest =>
      match v with
      | VObj o =>
          match prop_get o k with
          | Some x => lookup_path x rest
          | None => None
          end
      | _ => None
      end
  end.

(** Whether [keys] leads, through nested mappings, to a leaf of [v]. *)
Definition leaf_at (v : value) (keys : list string) : bool :=
  match lookup_path v keys with
  | Some l => negb (is_mapping l)
  | None => false
  end.


(** The chain of reads [v?.[k1]?.[k2]...]: what the path addresses in
    [v], own properties of arrays and strings included; [None] is
    [undefined]. *)
Fixpoint read_path (v : value) (keys : list string)
  : completion (option value) :=
  match keys with
  | [] => Returns (Some v)
  | k :: rest =>
      match v with
      | VNull => Returns None
      | _ =>
          let* read := js_get v k in
          match read with
          | Some child => read_path child rest
          | None => Returns None
          end
      end
  end.

(** A key that no object inherits a member for. *)
Definition ordinary_key (k : string) : bool := negb (inherited [] k).

(** Every key of every mapping of the tree, arrays being opaque, is
    ordinary. *)
Fixpoint ordinary_keys (v : value) : Prop :=
  match v with
  | VObj props =>
      forallb ordinary_key (own_keys props) = true
      /\ all_values ordinary_keys props
  | _ => True
  end.

Section SameTree.
Context (same : value -> value -> Prop) (other : list (string * value)).

(** Every entry of the list has its like in [other]. *)
Fixpoint entries_in (entries : list (string * value)) : Prop :=
  match entries with
  | [] => True
  | (k, x) :: rest =>
      match prop_get other k with
      | Some y => same x y
      | None => False
      end
      /\ entries_in rest
  end.
End SameTree.

(** Two trees with the same keys in every mapping, whatever their
    order, and the same leaves under them. *)
Fixpoint same_tree (a b : value) : Prop :=
  match a with
  | VObj props =>
      match b with
      | VObj props' =>
          List.length props = List.length props'
          /\ entries_in same_tree props' props
      | _ => False
      end
  | _ => a = b
  end.

(** A sequence of plain keys. *)
Definition plain_path (keys : list string) : Prop :=
  forallb plain_key keys = true.

(** [P] holds of every value stored in [o]. *)
Definition values_satisfy (P : value -> Prop) (o : obj) : Prop :=
  Forall (fun kv => P (snd kv)) o.

(** A value that the flattener does not descend into. *)
Definition is_leaf (v : value) : Prop := is_mapping v = false.

(** Two leaves that are the same value: the same primitive value of the
    same type, or one and the same array. *)
Definition same_value (a b : value) : Prop :=
  match a, b with
  | VNull, VNull => True
  | VBool x, VBool y => x = y
  | VNum x, VNum y => x = y
  | VStr x, VStr y => x = y
  | VArray i _ _, VArray j _ _ => i = j
  | _, _ => False
  end.

(** The entry of [newKeys] that a path of the current flat map gives rise
    to, if any. *)
Definition new_of (previousFlat : obj) (entry : string * value)
  : list NewKey :=
  if hasOwnProperty previousFlat (fst entry) then []
  else [mkNewKey (fst entry) (snd entry)].

(** The entry of [modifiedKeys] that a path of the current flat map gives
    rise to, if any. *)
Definition modified_of (previousFlat : obj) (entry : string * value)
  : list ModifiedKey :=
  match prop_get previousFlat (fst entry) with
  | Some old =>
      if strict_eq old (snd entry) then []
      else [mkModifiedKey (fst entry) old (snd entry)]
  | None => []
  end.

(** Every file name that a change record mentions belongs to [names]. *)
Definition mentions_only (names : list string) (changes : Changes) : Prop :=
  forall fileName,
    In fileName (newFiles changes)
    \/ In fileName (modifiedFiles changes)
    \/ In fileName (own_keys (newKeys changes))
    \/ In fileName (own_keys (modifiedKeys changes))
    \/ In fileName (own_keys (deletedKeys changes)) ->
    In fileName names.

Section Ownership.
Import Heap.
Context (h0 : list hobject) (W : loc -> Prop).

(** A value that does not refer to an object outside [W]. *)
Definition ok_val (v : hval) : Prop :=
  match v with HRef l => W l | _ => True end.

Definition ok_opt (o : option hval) : Prop :=
  match o with Some v => ok_val v | None => True end.

Definition ok_fields (fs : jsobject hval) : Prop :=
  forall k v, In (k, v) fs -> ok_val v.

(** The state of a store reached from [h0] by writing only to the
    objects of [W]: the objects of [h0] outside [W] are as they were in
    [h0], and the objects of [W] refer to objects of [W] only. *)
Record inv (h : list hobject) : Prop := mkInv {
  inv_grows : List.length h0 <= List.length h;
  inv_frame : forall l,
      l < List.length h0 -> ~ W l -> nth_error h l = nth_error h0 l;
  inv_closed : forall l o,
      W l -> nth_error h l = Some o -> ok_fields (fields o)
}.

(** A computation that keeps [inv] and whose result satisfies [post]. *)
Definition safe {A : Type} (c : M A) (post : A -> Prop) : Prop :=
  forall h a h', inv h -> c h = Some (a, h') -> inv h' /\ post a.
End Ownership.

(** The objects that a merge may write to: those created after [h] was
    the store, and those that [newTranslations] leads to in [h]. *)
Definition writable (h : list Heap.hobject) (newTranslations : Heap.hval)
    (l : Heap.loc) : Prop :=
  List.length h <= l \/ Heap.reach h newTranslations l.

(** What [deepMerge] leaves under a key of the new subtree, given what
    the target holds there: the recursive merge when the new value is a
    nested mapping and the existing one an object; the new value
    otherwise, except that [__proto__], where the target has no such
    key of its own, names the inherited setter, which stores nothing. *)
Definition merge_result (existing : option value) (key : string)
    (new : value) (got : option value) : Prop :=
  match existing with
  | Some old =>
      if is_mapping new && is_object old
      then exists merged,
             deepMergeValue new old = Returns merged
             /\ got = Some (VObj merged)
      else got = Some new
  | None =>
      if String.eqb key "__proto__" then got = None else got = Some new
  end.

(** Translations as one JSON value. *)
Definition value_of_translations (t : translations) : value :=
  VObj (map (fun lf =>
               (fst lf,
                VObj (map (fun fd => (fst fd, VObj (snd fd))) (snd lf))))
          t).

(** Every mapping of the tree, arrays being opaque, has pairwise distinct
    keys, as every JavaScript object has. *)
Fixpoint unique_keys (v : value) : Prop :=
  match v with
  | VObj props => NoDup (own_keys props) /\ all_values unique_keys props
  | _ => True
  end.

(** The test of the second loop of [detectChanges]: the document was
    there before and [detectFileChanges] reports a change in it. *)
Definition file_changed (previousFiles : files) (entry : string * obj)
  : bool :=
  match prop_get previousFiles (fst entry) with
  | Some previousContent =>
      match detectFileChanges previousContent (snd entry) with
      | Returns fileChanges => fc_hasChanges fileChanges
      | _ => false
      end
  | None => false
  end.

(** The test [previousFlat[key] !== value] on a path both flat maps
    have. *)
Definition value_changed (previousFlat : obj) (entry : string * value)
  : bool :=
  match prop_get previousFlat (fst entry) with
  | Some old => negb (strict_eq old (snd entry))
  | None => false
  end.

(** Whether two paths part at some key, so that neither leads through
    the other. *)
Fixpoint diverge (p q : list string) : bool :=
  match p, q with
  | k :: p', k' :: q' => if String.eqb k k' then diverge p' q' else true
  | _, _ => false
  end.

(** The paths that [translateChanges] sets in the document it sends for
    a modified file, with their values: the new keys, then the modified
    keys with their new values. *)
Definition changed_entries (fileChanges : FileChanges) : obj :=
  map (fun nk => (nk_key nk, nk_value nk)) (fc_newKeys fileChanges)
  ++ map (fun mk => (mk_key mk, mk_newValue mk))
       (fc_modifiedKeys fileChanges).

(** Every leaf of [part] is a leaf of [whole], at the same path. *)
Definition leaves_within (whole part : value) : Prop :=
  forall q l,
    lookup_path part q = Some l -> is_mapping l = false ->
    lookup_path whole q = Some l.

(** Whether the new subtree [source] passes by the path [q] of the
    target: at the first key of [q] it has nothing, or a mapping that
    passes by the rest of the path. *)
Fixpoint passes_by (source : value) (q : list string) : bool :=
  match q with
  | [] => false
  | k :: q' =>
      match source with
      | VObj props =>
          match prop_get props k with
          | Some x => is_mapping x && passes_by x q'
          | None => true
          end
      | _ => true
      end
  end.

(** The store [h] has every object of [h0] as it was in [h0], and
    possibly new ones after them. *)
Definition extends (h0 h : list Heap.hobject) : Prop :=
  List.length h0 <= List.length h
  /\ forall l, l < List.length h0 -> nth_error h l = nth_error h0 l.

(** A reference to an object created after [h0] was the store. *)
Definition created_after (h0 : list Heap.hobject) (v : Heap.hval) : Prop :=
  match v with Heap.HRef l => List.length h0 <= l | _ => False end.

(** A computation that leaves the objects of [h0] as they are, and whose
    result satisfies [post]. *)
Definition preserves {A : Type} (h0 : list Heap.hobject) (c : Heap.M A)
    (post : A -> Prop) : Prop :=
  forall h a h', extends h0 h -> c h = Some (a, h') -> extends h0 h' /\ post a.


(** The object [o'] is [o] with [x] stored under [k]: the key holds
    [x], every other key holds what it held, and the keys stay
    distinct. *)
Definition stored (o : obj) (k : string) (x : value) (o' : obj) : Prop :=
  prop_get o' k = Some x
  /\ (forall k', k <> k' -> prop_get o' k' = prop_get o k')
  /\ (forall k' y, In (k', y) o' -> (k' = k /\ y = x) \/ In (k', y) o)
  /\ (NoDup (own_keys o) -> NoDup (own_keys o')).

(** Every leaf of the tree is at the path [p] or at a path that parts
    from it: [p] leads through no leaf, and ends at a leaf or at
    nothing. *)
Definition clear_of_leaves (v : value) (p : list string) : Prop :=
  forall q l,
    lookup_path v q = Some l -> is_mapping l = false ->
    q = p \/ diverge q p = true.
(** ** Scenarios *)

Module Scenario.
(** One greeting, reworded between two runs. *)
Definition previous_greeting : files :=
  [("a.json", [("greeting", VStr "Hi")])].
Definition current_greeting : files :=
  [("a.json", [("greeting", VStr "Hello")])].

(** Spanish and French translations already on disk. *)
Definition disk : translations :=
  [("es", [("a.json", [("greeting", VStr "Hola")])]);
   ("fr", [("a.json", [("greeting", VStr "Salut")])])].

Definition translated (text : string) : files :=
  [("a.json", [("greeting", VStr text)])].

(** A reply that has every target language except ["fr"]. *)
Definition reply_without_fr : translations :=
  [("de", translated "Hallo"); ("es", translated "Hola2");
   ("fr-ca", translated "Bonjour"); ("ja", translated "Konnichiwa");
   ("ko", translated "Annyeong"); ("nl", translated "Hallo");
   ("pt", translated "Ola"); ("zh-cn", translated "Ni hao");
   ("zh-hk", translated "Nei hou"); ("it", translated "Ciao")].

Definition api_without_fr : Collaborator := fun _ => inr reply_without_fr.

(** A reply that has every target language. *)
Definition reply_with_all : translations :=
  ("fr", translated "Bonjour") :: reply_without_fr.

(** What the loader makes of [disk]: an entry for every language. *)
Definition loaded : translations := loadExistingTranslations disk.

(** A snapshot that still has a document the source tree has lost. *)
Definition previous_with_removed : files :=
  [("a.json", [("greeting", VStr "Hi")]);
   ("old.json", [("title", VStr "Old")])].

(** A source whose keys are themselves dotted, one of which goes away,
    and its Spanish translation. *)
Definition previous_dotted : files :=
  [("a.json", [("title", VStr "Home"); ("button.save", VStr "Save")])].
Definition current_dotted : files :=
  [("a.json", [("title", VStr "Home")])].
Definition existing_dotted : translations :=
  [("es", [("a.json", [("title", VStr "Inicio");
                       ("button.save", VStr "Guardar")])])].

(** A store that holds the Spanish translations of two keys (objects 0
    to 2) and a reply that rewords one of them (objects 3 to 5). *)
Definition store : list Heap.hobject :=
  [Heap.mkObject None [("es", Heap.HRef 1)];
   Heap.mkObject None [("a.json", Heap.HRef 2)];
   Heap.mkObject None
     [("greeting", Heap.HStr "Hola"); ("farewell", Heap.HStr "Adios")];
   Heap.mkObject None [("es", Heap.HRef 4)];
   Heap.mkObject None [("a.json", Heap.HRef 5)];
   Heap.mkObject None [("greeting", Heap.HStr "Hola2")]].

(** The change record of a run that rewords [greeting] and drops
    [farewell]. *)
Definition reword_and_drop : Changes :=
  mkChanges true [] ["a.json"]
    [("a.json", [])]
    [("a.json", [mkModifiedKey "greeting" (VStr "Hi") (VStr "Hello")])]
    [("a.json", ["farewell"])].

(** A key dropped from the source, nothing added or reworded. *)
Definition previous_farewell : files :=
  [("a.json", [("greeting", VStr "Hi"); ("farewell", VStr "Bye")])].
Definition current_farewell : files :=
  [("a.json", [("greeting", VStr "Hi")])].
End Scenario.

(** * Properties *)

(** ** Induction on values *)

Lemma value_ind (P : value -> Prop) :
  P VNull ->
  (forall b, P (VBool b)) ->
  (forall n, P (VNum n)) ->
  (forall s, P (VStr s)) ->
  (forall id len props,
      Forall (fun kv => P (snd kv)) props -> P (VArray id len props)) ->
  (forall props, Forall (fun kv => P (snd kv)) props -> P (VObj props)) ->
  forall v, P v.
Proof.
  intros Hnull Hbool Hnum Hstr Harr Hobj.
  fix IH 1. intros [ | b | n | s | id len props | props].
  - exact Hnull.
  - apply Hbool.
  - apply Hnum.
  - apply Hstr.
  - apply Harr. induction props as [ | [k x] rest IHrest]; constructor.
    + apply IH.
    + exact IHrest.
  - apply Hobj. induction props as [ | [k x] rest IHrest]; constructor.
    + apply IH.
    + exact IHrest.
Qed.

(** ** Completions *)

Lemma and_then_returns {A B : Type} (c : completion A)
    (k : A -> completion B) (b : B) :
  and_then c k = Returns b -> exists a, c = Returns a /\ k a = Returns b.
Proof. destruct c as [a | e | ]; simpl; [eauto | discriminate ..]. Qed.

(** ** Dictionaries *)

Section PropertyFacts.
Context {A : Type}.
Implicit Types (o : jsobject A) (k : string) (v : A).

Lemma prop_get_set_eq o k v : prop_get (prop_set o k v) k = Some v.
Proof.
  induction o as [ | [k' v'] rest IH]; simpl.
  - now rewrite String.eqb_refl.
  - destruct (String.eqb_spec k' k) as [-> | Hne]; simpl.
    + now rewrite String.eqb_refl.
    + destruct (String.eqb_spec k' k); [contradiction | exact IH].
Qed.

Lemma prop_get_set_ne o k k' v :
  k <> k' -> prop_get (prop_set o k v) k' = prop_get o k'.
Proof.
  intros Hne. induction o as [ | [k0 v0] rest IH]; simpl.
  - destruct (String.eqb_spec k k'); [contradiction | reflexivity].
  - destruct (String.eqb_spec k0 k) as [-> | Hk]; simpl.
    + destruct (String.eqb_spec k k'); [contradiction | reflexivity].
    + destruct (String.eqb_spec k0 k'); [reflexivity | exact IH].
Qed.

Lemma prop_set_same o k v : prop_get o k = Some v -> prop_set o k v = o.
Proof.
  induction o as [ | [k' v'] rest IH]; simpl; [discriminate | ].
  destruct (String.eqb_spec k' k) as [-> | Hne].
  - intros [= ->]. reflexivity.
  - intros H. now rewrite IH.
Qed.

Lemma prop_set_absent o k v :
  prop_get o k = None -> prop_set o k v = o ++ [(k, v)].
Proof.
  induction o as [ | [k' v'] rest IH]; simpl; [reflexivity | ].
  destruct (String.eqb_spec k' k) as [-> | Hne]; [discriminate | ].
  intros H. now rewrite IH.
Qed.

Lemma prop_set_set o k v v' :
  prop_set (prop_set o k v) k v' = prop_set o k v'.
Proof.
  induction o as [ | [k0 v0] rest IH]; simpl.
  - now rewrite String.eqb_refl.
  - destruct (String.eqb_spec k0 k) as [-> | Hne]; simpl.
    + now rewrite String.eqb_refl.
    + destruct (String.eqb_spec k0 k); [contradiction | now rewrite IH].
Qed.

Lemma prop_get_None o k : prop_get o k = None <-> ~ In k (own_keys o).
Proof.
  induction o as [ | [k' v'] rest IH]; simpl.
  - tauto.
  - destruct (String.eqb_spec k' k) as [-> | Hne].
    + split; [discriminate | intros H; exfalso; apply H; now left].
    + rewrite IH. tauto.
Qed.

Lemma prop_get_Some_In o k v : prop_get o k = Some v -> In (k, v) o.
Proof.
  induction o as [ | [k' v'] rest IH]; simpl; [discriminate | ].
  destruct (String.eqb_spec k' k) as [-> | Hne].
  - intros [= ->]. now left.
  - intros H. right. now apply IH.
Qed.

Lemma prop_get_In_keys o k v : prop_get o k = Some v -> In k (own_keys o).
Proof.
  intros H. apply prop_get_Some_In in H.
  apply in_map_iff. now exists (k, v).
Qed.

Lemma In_prop_get o k v :
  NoDup (own_keys o) -> In (k, v) o -> prop_get o k = Some v.
Proof.
  induction o as [ | [k' v'] rest IH]; simpl; [tauto | ].
  intros Hnd [[= -> ->] | Hin].
  - now rewrite String.eqb_refl.
  - inversion Hnd as [ | ? ? Hnotin Hnd']; subst.
    destruct (String.eqb_spec k' k) as [-> | Hne].
    + exfalso. apply Hnotin. apply in_map_iff. now exists (k, v).
    + now apply IH.
Qed.

Lemma own_keys_set o k v :
  own_keys (prop_set o k v)
  = if hasOwnProperty o k then own_keys o else own_keys o ++ [k].
Proof.
  unfold hasOwnProperty.
  induction o as [ | [k' v'] rest IH]; simpl; [reflexivity | ].
  destruct (String.eqb_spec k' k) as [-> | Hne]; simpl; [reflexivity | ].
  rewrite IH. now destruct (prop_get rest k).
Qed.

Lemma In_own_keys_set o k v k' :
  In k' (own_keys (prop_set o k v)) <-> k' = k \/ In k' (own_keys o).
Proof.
  rewrite own_keys_set. unfold hasOwnProperty.
  destruct (prop_get o k) as [x | ] eqn:Hget.
  - apply prop_get_In_keys in Hget. split; [tauto | ].
    intros [-> | H]; assumption.
  - rewrite in_app_iff. simpl. intuition congruence.
Qed.

Lemma NoDup_own_keys_set o k v :
  NoDup (own_keys o) -> NoDup (own_keys (prop_set o k v)).
Proof.
  intros Hnd. rewrite own_keys_set. unfold hasOwnProperty.
  destruct (prop_get o k) eqn:Hget; [exact Hnd | ].
  apply prop_get_None in Hget.
  apply NoDup_app; repeat split.
  - exact Hnd.
  - constructor; [simpl; tauto | constructor].
  - intros x Hx [<- | []]. contradiction.
Qed.

Lemma prop_get_delete_ne o k k' :
  k <> k' -> prop_get (prop_delete o k) k' = prop_get o k'.
Proof.
  intros Hne. induction o as [ | [k0 v0] rest IH]; simpl; [reflexivity | ].
  destruct (String.eqb_spec k0 k) as [-> | Hk]; simpl.
  - destruct (String.eqb_spec k k'); [contradiction | exact IH].
  - destruct (String.eqb_spec k0 k'); [reflexivity | exact IH].
Qed.

Lemma prop_delete_absent o k : prop_get o k = None -> prop_delete o k = o.
Proof.
  induction o as [ | [k' v'] rest IH]; simpl; [reflexivity | ].
  destruct (String.eqb_spec k' k) as [-> | Hne]; [discriminate | ].
  intros H. now rewrite IH.
Qed.

Lemma prop_get_delete_eq o k : prop_get (prop_delete o k) k = None.
Proof.
  induction o as [ | [k' v'] rest IH]; simpl; [reflexivity | ].
  destruct (String.eqb_spec k' k) as [-> | Hne]; simpl; [exact IH | ].
  destruct (String.eqb_spec k' k); [contradiction | exact IH].
Qed.

Lemma prop_get_app o o' k :
  prop_get (o ++ o') k
  = match prop_get o k with Some v => Some v | None => prop_get o' k end.
Proof.
  induction o as [ | [k' v'] rest IH]; simpl; [reflexivity | ].
  now destruct (String.eqb k' k).
Qed.
End PropertyFacts.

(** ** New own properties *)

Section DefineFacts.
Context {A : Type}.
Implicit Types (o : jsobject A) (k : string) (v : A).

Lemma insert_index_permutation n o k v :
  Permutation (insert_index n k v o) ((k, v) :: o).
Proof.
  induction o as [ | [k' v'] rest IH]; simpl; [reflexivity | ].
  destruct (array_index k') as [n' | ]; [ | reflexivity].
  destruct (n' <? n)%N; [ | reflexivity].
  rewrite IH. apply perm_swap.
Qed.

Lemma define_property_permutation o k v :
  Permutation (define_property o k v) ((k, v) :: o).
Proof.
  unfold define_property. destruct (array_index k) as [n | ].
  - apply insert_index_permutation.
  - symmetry. apply Permutation_cons_append.
Qed.

Lemma In_define_property o k v (e : string * A) :
  In e (define_property o k v) <-> e = (k, v) \/ In e o.
Proof.
  split; intros H.
  - apply (Permutation_in _ (define_property_permutation o k v)) in H.
    destruct H as [<- | H]; auto.
  - apply (Permutation_in _ (Permutation_sym
                               (define_property_permutation o k v))).
    destruct H as [-> | H]; [now left | now right].
Qed.

Lemma own_keys_define_permutation o k v :
  Permutation (own_keys (define_property o k v)) (k :: own_keys o).
Proof.
  unfold own_keys.
  apply (Permutation_map fst (define_property_permutation o k v)).
Qed.

Lemma In_own_keys_define o k v k' :
  In k' (own_keys (define_property o k v)) <-> k' = k \/ In k' (own_keys o).
Proof.
  split; intros H.
  - apply (Permutation_in _ (own_keys_define_permutation o k v)) in H.
    destruct H as [<- | H]; auto.
  - apply (Permutation_in _ (Permutation_sym
                               (own_keys_define_permutation o k v))).
    destruct H as [-> | H]; [now left | now right].
Qed.

Lemma NoDup_own_keys_define o k v :
  prop_get o k = None -> NoDup (own_keys o) ->
  NoDup (own_keys (define_property o k v)).
Proof.
  intros Hget Hnd.
  apply (Permutation_NoDup
           (Permutation_sym (own_keys_define_permutation o k v))).
  constructor; [now apply prop_get_None | exact Hnd].
Qed.

Lemma prop_get_insert_index n o k v k' :
  prop_get o k = None ->
  prop_get (insert_index n k v o) k'
  = if String.eqb k k' then Some v else prop_get o k'.
Proof.
  induction o as [ | [k0 v0] rest IH]; simpl; [reflexivity | ].
  destruct (String.eqb_spec k0 k) as [-> | Hne]; [discriminate | ].
  intros Hget. specialize (IH Hget).
  assert (Hhead : prop_get ((k, v) :: (k0, v0) :: rest) k'
                  = if String.eqb k k' then Some v
                    else if String.eqb k0 k' then Some v0
                         else prop_get rest k') by reflexivity.
  destruct (array_index k0) as [n' | ]; [ | exact Hhead].
  destruct (n' <? n)%N; [ | exact Hhead].
  simpl. rewrite IH.
  destruct (String.eqb_spec k0 k') as [<- | Hk']; [ | reflexivity].
  destruct (String.eqb_spec k k0); [congruence | reflexivity].
Qed.

Lemma prop_get_define o k v k' :
  prop_get o k = None ->
  prop_get (define_property o k v) k'
  = if String.eqb k k' then Some v else prop_get o k'.
Proof.
  intros Hget. unfold define_property.
  destruct (array_index k) as [n | ].
  - now apply prop_get_insert_index.
  - rewrite prop_get_app. simpl.
    destruct (prop_get o k') as [x | ] eqn:Hk'; [ | reflexivity].
    destruct (String.eqb_spec k k') as [<- | Hne]; [congruence | reflexivity].
Qed.

Lemma define_property_last o k v :
  array_index k = None -> define_property o k v = o ++ [(k, v)].
Proof. intros H. unfold define_property. now rewrite H. Qed.
End DefineFacts.

(** ** Assignment on an ordinary object *)

(** Whether the assignment [o[k] = v] stores a value under [k]: it does
    not when it runs the inherited setter [__proto__]. *)
Lemma js_assign_cases (o : obj) (k : string) (v : value) (o' : obj) :
  js_assign o k v = Returns o' ->
  (exists old, prop_get o k = Some old /\ o' = prop_set o k v)
  \/ (prop_get o k = None /\ k <> "__proto__"
      /\ o' = define_property o k v)
  \/ (prop_get o k = None /\ k = "__proto__" /\ typeof_object v = false
      /\ o' = o).
Proof.
  unfold js_assign. destruct (prop_get o k) as [old | ] eqn:Hget.
  - intros [= <-]. left. eauto.
  - destruct (String.eqb_spec k "__proto__") as [-> | Hne].
    + destruct (typeof_object v) eqn:Hv; [discriminate | ].
      intros [= <-]. right. right. auto.
    + intros [= <-]. right. left. auto.
Qed.

Lemma js_assign_returns (o : obj) (k : string) (v : value) :
  k <> "__proto__" ->
  exists o', js_assign o k v = Returns o'
             /\ forall k', prop_get o' k'
                           = if String.eqb k k' then Some v
                             else prop_get o k'.
Proof.
  intros Hne. unfold js_assign.
  destruct (prop_get o k) as [old | ] eqn:Hget.
  - eexists. split; [reflexivity | ]. intros k'.
    destruct (String.eqb_spec k k') as [<- | Hk].
    + apply prop_get_set_eq.
    + now apply prop_get_set_ne.
  - destruct (String.eqb_spec k "__proto__"); [contradiction | ].
    eexists. split; [reflexivity | ]. intros k'. now apply prop_get_define.
Qed.

Lemma js_assign_get (o : obj) (k : string) (v : value) (o' : obj) :
  js_assign o k v = Returns o' ->
  forall k',
    prop_get o' k' = prop_get o k'
    \/ (k' = k /\ prop_get o' k' = Some v).
Proof.
  intros H k'.
  destruct (js_assign_cases _ _ _ _ H)
    as [(old & Hget & ->) | [(Hget & Hne & ->) | (_ & _ & _ & ->)]].
  - destruct (String.eqb_spec k k') as [<- | Hk].
    + right. split; [reflexivity | apply prop_get_set_eq].
    + left. now apply prop_get_set_ne.
  - rewrite prop_get_define by exact Hget.
    destruct (String.eqb_spec k k') as [<- | Hk]; auto.
  - now left.
Qed.

Lemma js_assign_other (o : obj) (k : string) (v : value) (o' : obj)
    (k' : string) :
  js_assign o k v = Returns o' -> k <> k' -> prop_get o' k' = prop_get o k'.
Proof.
  intros H Hne. destruct (js_assign_get _ _ _ _ H k') as [Hsame | [-> _]];
    [exact Hsame | contradiction].
Qed.

Lemma js_assign_keys (o : obj) (k : string) (v : value) (o' : obj)
    (k' : string) :
  js_assign o k v = Returns o' ->
  In k' (own_keys o') -> k' = k \/ In k' (own_keys o).
Proof.
  intros H Hin.
  destruct (js_assign_cases _ _ _ _ H)
    as [(old & Hget & ->) | [(Hget & Hne & ->) | (_ & _ & _ & ->)]].
  - now apply In_own_keys_set in Hin.
  - now apply In_own_keys_define in Hin.
  - now right.
Qed.

Lemma js_assign_NoDup (o : obj) (k : string) (v : value) (o' : obj) :
  js_assign o k v = Returns o' ->
  NoDup (own_keys o) -> NoDup (own_keys o').
Proof.
  intros H Hnd.
  destruct (js_assign_cases _ _ _ _ H)
    as [(old & Hget & ->) | [(Hget & Hne & ->) | (_ & _ & _ & ->)]].
  - now apply NoDup_own_keys_set.
  - now apply NoDup_own_keys_define.
  - exact Hnd.
Qed.

Lemma In_prop_set_cases {A : Type} (o : jsobject A) (k k' : string)
    (v x : A) :
  In (k', x) (prop_set o k v) -> (k' = k /\ x = v) \/ In (k', x) o.
Proof.
  induction o as [ | [k0 v0] rest IH]; simpl.
  - intros [[= <- <-] | []]. now left.
  - destruct (String.eqb_spec k0 k) as [-> | Hne]; simpl.
    + intros [[= <- <-] | Hin]; [now left | right; now right].
    + intros [Heq | Hin]; [right; now left | ].
      destruct (IH Hin) as [Hnew | Hold]; [now left | right; now right].
Qed.

Lemma js_assign_In (o : obj) (k : string) (v : value) (o' : obj)
    (k' : string) (x : value) :
  js_assign o k v = Returns o' ->
  In (k', x) o' -> (k' = k /\ x = v) \/ In (k', x) o.
Proof.
  intros H Hin.
  destruct (js_assign_cases _ _ _ _ H)
    as [(old & Hget & ->) | [(Hget & Hne & ->) | (_ & _ & _ & ->)]].
  - now apply In_prop_set_cases.
  - apply In_define_property in Hin.
    destruct Hin as [[= -> ->] | Hin]; auto.
  - now right.
Qed.

(** ** Loops that may throw *)

Section FoldThrowing.
Context {S X : Type} (body : S -> X -> completion S).

Lemma fold_left_thrown (xs : list X) (c : completion S) :
  (forall s, c <> Returns s) ->
  fold_left (fun acc x => let* s := acc in body s x) xs c = c.
Proof.
  induction xs as [ | x rest IH]; simpl; intros Hc; [reflexivity | ].
  destruct c as [s | e | ]; [now destruct (Hc s) | ..]; simpl;
    apply IH; discriminate.
Qed.

Lemma fold_throwing_nil (init : S) :
  fold_throwing body [] init = Returns init.
Proof. reflexivity. Qed.

Lemma fold_throwing_cons (x : X) (xs : list X) (init : S) :
  fold_throwing body (x :: xs) init
  = let* s := body init x in fold_throwing body xs s.
Proof.
  unfold fold_throwing. simpl.
  destruct (body init x) as [s | e | ]; simpl;
    [reflexivity | apply fold_left_thrown; discriminate ..].
Qed.

Lemma fold_throwing_app (xs ys : list X) (init : S) :
  fold_throwing body (xs ++ ys) init
  = let* s := fold_throwing body xs init in fold_throwing body ys s.
Proof.
  revert init. induction xs as [ | x rest IH]; intros init; [reflexivity | ].
  simpl app. rewrite !fold_throwing_cons.
  destruct (body init x) as [s | e | ]; simpl; [apply IH | reflexivity ..].
Qed.

(** A loop whose body always returns the state it got returns it. *)
Lemma fold_throwing_fixed (xs : list X) (s : S) :
  (forall x, In x xs -> body s x = Returns s) ->
  fold_throwing body xs s = Returns s.
Proof.
  induction xs as [ | x rest IH]; intros H; [reflexivity | ].
  rewrite fold_throwing_cons, H by now left.
  apply IH. intros y Hy. apply H. now right.
Qed.

(** An invariant of the body is an invariant of the loop. *)
Lemma fold_throwing_invariant (P : S -> Prop) (xs : list X) :
  (forall s x s', In x xs -> P s -> body s x = Returns s' -> P s') ->
  forall init final,
    P init -> fold_throwing body xs init = Returns final -> P final.
Proof.
  induction xs as [ | x rest IH]; intros Hbody init final Hinit.
  - intros [= <-]. exact Hinit.
  - rewrite fold_throwing_cons.
    destruct (body init x) as [s | e | ] eqn:Hstep; [ | discriminate ..].
    apply IH.
    + intros s0 y s' Hy. apply Hbody. now right.
    + eapply Hbody; [now left | exact Hinit | exact Hstep].
Qed.

(** A loop whose body returns on every state that satisfies an
    invariant returns. *)
Lemma fold_throwing_returns (P : S -> Prop) (xs : list X) :
  (forall s x, In x xs -> P s -> exists s', body s x = Returns s' /\ P s') ->
  forall init,
    P init -> exists final, fold_throwing body xs init = Returns final
                            /\ P final.
Proof.
  induction xs as [ | x rest IH]; intros Hbody init Hinit.
  - exists init. split; [reflexivity | exact Hinit].
  - rewrite fold_throwing_cons.
    destruct (Hbody init x (or_introl eq_refl) Hinit) as (s & -> & Hs).
    simpl. apply IH; [ | exact Hs].
    intros s0 y Hy. apply Hbody. now right.
Qed.
End FoldThrowing.

(** ** Structure of a deep clone *)

Section CloneFacts.
Context {A : Type} (clone_elt : A -> nat -> A * nat) (e : A -> A).
Hypothesis clone_elt_erase : forall x n, e (fst (clone_elt x n)) = e x.

Lemma erase_clone_map (m : jsobject A) (n : nat) :
  erase_map e (fst (clone_map clone_elt m n)) = erase_map e m.
Proof.
  revert n. induction m as [ | [k x] rest IH]; intros n; [reflexivity | ].
  simpl. specialize (clone_elt_erase x n).
  destruct (clone_elt x n) as [x' n1].
  specialize (IH n1). destruct (clone_map clone_elt rest n1) as [rest' n2].
  simpl in *. now rewrite clone_elt_erase, IH.
Qed.
End CloneFacts.

Lemma own_keys_clone_map {A : Type} (c : A -> nat -> A * nat)
    (m : jsobject A) (n : nat) :
  own_keys (fst (clone_map c m n)) = own_keys m.
Proof.
  revert n. induction m as [ | [k x] rest IH]; intros n; [reflexivity | ].
  simpl. destruct (c x n) as [x' n1].
  specialize (IH n1). destruct (clone_map c rest n1) as [rest' n2].
  simpl in *. now rewrite IH.
Qed.

Lemma prop_get_erase_map {A : Type} (e : A -> A) (m : jsobject A)
    (k : string) :
  prop_get (erase_map e m) k = option_map e (prop_get m k).
Proof.
  induction m as [ | [k' x] rest IH]; simpl; [reflexivity | ].
  now destruct (String.eqb k' k).
Qed.

Lemma index_key_inj (i j : nat) : index_key i = index_key j -> i = j.
Proof.
  unfold index_key. intros H. apply DecimalNat.Unsigned.to_uint_inj.
  pose proof (NilEmpty.usu (Nat.to_uint i)) as Hi.
  rewrite H, NilEmpty.usu in Hi. now injection Hi.
Qed.

Lemma prop_get_indexed_before (l : list value) (i j : nat) :
  j < i -> prop_get (indexed i l) (index_key j) = None.
Proof.
  revert i. induction l as [ | x rest IH]; intros i Hlt; [reflexivity | ].
  simpl. destruct (String.eqb_spec (index_key i) (index_key j)) as [Heq | _].
  - apply index_key_inj in Heq. lia.
  - apply IH. lia.
Qed.

Lemma dense_indexed_from (l : list value) (i : nat) :
  map
    (fun j =>
       match prop_get (indexed i l) (index_key j) with
       | Some x => x
       | None => VNull
       end)
    (seq i (List.length l))
  = l.
Proof.
  revert i. induction l as [ | x rest IH]; intros i; [reflexivity | ].
  cbn [List.length seq map indexed prop_get].
  rewrite String.eqb_refl. f_equal.
  rewrite <- (IH (S i)) at 2. apply map_ext_in. intros j Hj.
  apply in_seq in Hj.
  destruct (String.eqb_spec (index_key i) (index_key j)) as [Heq | _];
    [ | reflexivity].
  apply index_key_inj in Heq. lia.
Qed.

Lemma dense_indexed (l : list value) :
  dense (List.length l) (indexed 0 l) = l.
Proof. apply dense_indexed_from. Qed.

Lemma indexed_map (f : value -> value) (l : list value) (i : nat) :
  map (fun '(k, x) => (k, f x)) (indexed i l) = indexed i (map f l).
Proof.
  revert i. induction l as [ | x rest IH]; intros i; [reflexivity | ].
  simpl. now rewrite IH.
Qed.

Lemma dense_length (len : nat) (props : obj) :
  List.length (dense len props) = len.
Proof. unfold dense. now rewrite length_map, length_seq. Qed.

(** The text of a dense array lists the texts of its elements. *)
Lemma erase_VArr (id : nat) (elems : list value) :
  erase (VArr id elems) = VArr 0 (map erase elems).
Proof.
  unfold VArr at 1. cbn [erase]. rewrite indexed_map, <- (length_map erase).
  now rewrite dense_indexed.
Qed.

Lemma map_erase_dense (len : nat) (props : obj) :
  map erase (dense len props) = dense len (erase_map erase props).
Proof.
  unfold dense. rewrite map_map. apply map_ext. intros i.
  rewrite prop_get_erase_map. now destruct (prop_get props (index_key i)).
Qed.

Lemma erase_json_clone (v : value) :
  forall n, erase (fst (json_clone v n)) = erase v.
Proof.
  induction v as [ | b | z | s | id len props IH | props IH] using value_ind;
    intros n; try reflexivity.
  - cbn [json_clone].
    assert (Hmap : forall m,
               erase_map erase (fst (clone_map json_clone props m))
               = erase_map erase props).
    { induction IH as [ | [k x] rest Hx Hrest IHrest]; intros m;
        [reflexivity | ].
      simpl. simpl in Hx. specialize (Hx m).
      destruct (json_clone x m) as [x' n1].
      specialize (IHrest n1).
      destruct (clone_map json_clone rest n1) as [rest' n2].
      simpl in *. now rewrite Hx, IHrest. }
    specialize (Hmap n).
    destruct (clone_map json_clone props n) as [props' n'].
    cbn [fst] in *. rewrite erase_VArr, map_erase_dense, Hmap.
    reflexivity.
  - simpl.
    assert (Hmap : forall m,
               erase_map erase (fst (clone_map json_clone props m))
               = erase_map erase props).
    { induction IH as [ | [k x] rest Hx Hrest IHrest]; intros m;
        [reflexivity | ].
      simpl. simpl in Hx. specialize (Hx m).
      destruct (json_clone x m) as [x' n1].
      specialize (IHrest n1).
      destruct (clone_map json_clone rest n1) as [rest' n2].
      simpl in *. now rewrite Hx, IHrest. }
    specialize (Hmap n).
    destruct (clone_map json_clone props n) as [props' n'].
    simpl in *. unfold erase_map in Hmap. now rewrite Hmap.
Qed.

Lemma erase_clone_doc (d : obj) (n : nat) :
  erase_doc (fst (clone_doc d n)) = erase_doc d.
Proof.
  unfold clone_doc. pose proof (erase_json_clone (VObj d) n) as H.
  simpl in *. destruct (clone_map json_clone d n) as [d' n'].
  simpl in *. now injection H.
Qed.

Lemma erase_clone_translations (t : translations) (n : nat) :
  erase_translations (fst (clone_translations t n)) = erase_translations t.
Proof.
  apply erase_clone_map. intros fs m.
  apply erase_clone_map. apply erase_clone_doc.
Qed.

(** ** Merging an empty delta *)

Lemma delete_in_file_nothing (changes : Changes) (merged : files)
    (fileName : string) :
  (forall deleted,
      prop_get (deletedKeys changes) fileName = Some deleted ->
      deleted = []) ->
  delete_in_file changes merged fileName = Returns merged.
Proof.
  intros Hnone. unfold delete_in_file.
  destruct (prop_get (deletedKeys changes) fileName) as [deleted | ];
    [ | reflexivity].
  rewrite (Hnone deleted eq_refl).
  destruct (prop_get merged fileName) as [doc | ] eqn:Hdoc; [ | reflexivity].
  simpl. now rewrite prop_set_same.
Qed.

Lemma merge_language_nothing (changes : Changes) (merged : translations)
    (language : string) :
  (forall fileName deleted,
      prop_get (deletedKeys changes) fileName = Some deleted ->
      deleted = []) ->
  prop_get merged language <> None ->
  merge_language [] changes merged language = Returns merged.
Proof.
  intros Hnone Hlang. unfold merge_language. simpl.
  destruct (prop_get merged language) as [fs | ] eqn:Hfs; [ | congruence].
  rewrite fold_throwing_fixed.
  - simpl. now rewrite prop_set_same.
  - intros f _. apply delete_in_file_nothing. apply Hnone.
Qed.

(** C7, as stated, fails: with no existing translations at all, merging
    an empty delta yields one empty entry per target language. *)
Lemma merge_empty_delta_adds_languages :
  exists merged,
    mergeTranslations 0 [] [] no_changes = Returns merged
    /\ erase_translations merged <> erase_translations [].
Proof.
  eexists. split; [vm_compute; reflexivity | discriminate].
Qed.

(** C7, amended. When the existing translations have an entry for every
    target language and the change record lists no deleted key, merging
    an empty delta returns a structure identical to the existing
    translations. *)
Theorem merge_empty_delta_identity :
  forall (next : nat) (existing : translations) (changes : Changes),
    (forall language,
        In language targetLanguages -> prop_get existing language <> None) ->
    (forall fileName deleted,
        prop_get (deletedKeys changes) fileName = Some deleted ->
        deleted = []) ->
    exists merged,
      mergeTranslations next existing [] changes = Returns merged
      /\ erase_translations merged = erase_translations existing.
Proof.
  intros next existing changes Hlangs Hnone.
  exists (fst (clone_translations existing next)). split.
  - unfold mergeTranslations. apply fold_throwing_fixed.
    intros language Hin. apply merge_language_nothing; [exact Hnone | ].
    intros Habsent. apply prop_get_None in Habsent. apply Habsent.
    unfold clone_translations. rewrite own_keys_clone_map.
    destruct (prop_get existing language) as [fs | ] eqn:Hfs.
    + eapply prop_get_In_keys. exact Hfs.
    + exfalso. now apply (Hlangs language).
  - apply erase_clone_translations.
Qed.

Lemma merge_empty_delta_identity_witness :
  exists merged,
    mergeTranslations 0 Scenario.loaded [] no_changes = Returns merged
    /\ erase_translations merged = erase_translations Scenario.loaded.
Proof.
  apply (merge_empty_delta_identity 0 Scenario.loaded no_changes).
  - intros language Hin. simpl in Hin.
    repeat (destruct Hin as [<- | Hin]; [discriminate | ]). contradiction.
  - intros fileName deleted. simpl. discriminate.
Defined.

(** ** Flat maps *)

Section ValuesOf.
Context (P : value -> Prop).

Lemma values_satisfy_assign (o : obj) (k : string) (v : value) (o' : obj) :
  values_satisfy P o -> P v -> js_assign o k v = Returns o' ->
  values_satisfy P o'.
Proof.
  unfold values_satisfy. rewrite !Forall_forall.
  intros Ho Hv Hset [k' x] Hin. simpl.
  destruct (js_assign_In _ _ _ _ _ _ Hset Hin) as [[_ ->] | Hold];
    [exact Hv | apply (Ho (k', x) Hold)].
Qed.

Lemma values_satisfy_object_assign (o src o' : obj) :
  values_satisfy P o -> values_satisfy P src ->
  object_assign o src = Returns o' -> values_satisfy P o'.
Proof.
  intros Ho Hsrc. unfold object_assign.
  apply fold_throwing_invariant; [ | exact Ho].
  intros s [k v] s' Hin Hs Hstep. simpl in Hstep.
  eapply values_satisfy_assign; [exact Hs | | exact Hstep].
  unfold values_satisfy in Hsrc. rewrite Forall_forall in Hsrc.
  apply (Hsrc (k, v) Hin).
Qed.

Lemma values_satisfy_get (o : obj) (k : string) (v : value) :
  values_satisfy P o -> prop_get o k = Some v -> P v.
Proof.
  intros Ho Hget. apply prop_get_Some_In in Hget.
  unfold values_satisfy in Ho. rewrite Forall_forall in Ho.
  apply (Ho (k, v) Hget).
Qed.
End ValuesOf.

Lemma NoDup_object_assign (o src o' : obj) :
  NoDup (own_keys o) -> object_assign o src = Returns o' ->
  NoDup (own_keys o').
Proof.
  intros Ho. unfold object_assign.
  apply (fold_throwing_invariant _ (fun s : obj => NoDup (own_keys s)));
    [ | exact Ho].
  intros s [k v] s' _ Hs Hstep. eapply js_assign_NoDup; eassumption.
Qed.

Lemma flatten_loop_NoDup (f : value -> string -> completion obj)
    (prefix : string) (entries : list (string * value)) :
  forall result flat,
    NoDup (own_keys result) ->
    flatten_loop f prefix entries result = Returns flat ->
    NoDup (own_keys flat).
Proof.
  induction entries as [ | [key v] rest IH]; intros result flat Hnd.
  - intros [= <-]. exact Hnd.
  - cbn [flatten_loop]. intros Hrun.
    apply and_then_returns in Hrun. destruct Hrun as (result' & Hstep & Hrun).
    apply (IH result' flat); [ | exact Hrun].
    destruct (is_mapping v).
    + apply and_then_returns in Hstep.
      destruct Hstep as (nested & _ & Hassign).
      eapply NoDup_object_assign; eassumption.
    + eapply js_assign_NoDup; eassumption.
Qed.

(** The keys of a flat map are unique. *)
Lemma flattenValue_NoDup (v : value) (prefix : string) (flat : obj) :
  flattenValue v prefix = Returns flat -> NoDup (own_keys flat).
Proof.
  destruct v; simpl; try (intros [= <-]; constructor).
  apply flatten_loop_NoDup. constructor.
Qed.

(** A flat map holds leaves only: no entry is a nested mapping. *)
Lemma flattenValue_leaves (v : value) :
  forall prefix flat,
    flattenValue v prefix = Returns flat -> values_satisfy is_leaf flat.
Proof.
  induction v as [ | b | z | s | id len props _ | props IH] using value_ind;
    intros prefix flat; simpl; try (intros [= <-]; constructor).
  assert (Hloop : forall result,
             values_satisfy is_leaf result ->
             flatten_loop flattenValue prefix props result = Returns flat ->
             values_satisfy is_leaf flat).
  { induction IH as [ | [key x] rest Hx Hrest IHrest]; intros result Hres.
    - intros [= <-]. exact Hres.
    - cbn [flatten_loop]. intros Hrun.
      apply and_then_returns in Hrun.
      destruct Hrun as (result' & Hstep & Hrun).
      apply (IHrest result'); [ | exact Hrun].
      destruct (is_mapping x) eqn:Hmap.
      + apply and_then_returns in Hstep.
        destruct Hstep as (nested & Hnested & Hassign).
        eapply values_satisfy_object_assign; [exact Hres | | exact Hassign].
        eapply Hx. exact Hnested.
      + eapply values_satisfy_assign; [exact Hres | exact Hmap | exact Hstep]. }
  apply Hloop. constructor.
Qed.

(** ** Change detection *)

Lemma fold_left_fixed {S X : Type} (body : S -> X -> S) (xs : list X)
    (s : S) :
  (forall x, In x xs -> body s x = s) -> fold_left body xs s = s.
Proof.
  induction xs as [ | x rest IH]; intros H; [reflexivity | ].
  simpl. rewrite H by now left. apply IH. intros y Hy. apply H. now right.
Qed.

Lemma fold_left_ext_in {S X : Type} (f g : S -> X -> S) (xs : list X) :
  (forall s x, In x xs -> f s x = g s x) ->
  forall s, fold_left f xs s = fold_left g xs s.
Proof.
  induction xs as [ | x rest IH]; intros H s; [reflexivity | ].
  simpl. rewrite H by now left. apply IH. intros s' y Hy. apply H. now right.
Qed.

Lemma fold_throwing_ext_in {S X : Type} (f g : S -> X -> completion S)
    (xs : list X) :
  (forall s x, In x xs -> f s x = g s x) ->
  forall s, fold_throwing f xs s = fold_throwing g xs s.
Proof.
  induction xs as [ | x rest IH]; intros H s; [reflexivity | ].
  rewrite !fold_throwing_cons, H by now left.
  destruct (g s x) as [s' | e | ]; simpl; [ | reflexivity ..].
  apply IH. intros s0 y Hy. apply H. now right.
Qed.

Lemma fold_left_invariant {S X : Type} (P : S -> Prop) (f : S -> X -> S)
    (xs : list X) :
  (forall s x, In x xs -> P s -> P (f s x)) ->
  forall init, P init -> P (fold_left f xs init).
Proof.
  induction xs as [ | x rest IH]; intros Hf init Hinit; [exact Hinit | ].
  simpl. apply IH.
  - intros s y Hy. apply Hf. now right.
  - apply Hf; [now left | exact Hinit].
Qed.

Lemma hasOwnProperty_true {A : Type} (o : jsobject A) (k : string) :
  hasOwnProperty o k = true <-> In k (own_keys o).
Proof.
  unfold hasOwnProperty. destruct (prop_get o k) as [v | ] eqn:Hget.
  - apply prop_get_In_keys in Hget. tauto.
  - apply prop_get_None in Hget. split; [discriminate | contradiction].
Qed.

Lemma call_hasOwnProperty_returns (flat : obj) (key : string) (b : bool) :
  call_hasOwnProperty flat key = Returns b -> b = hasOwnProperty flat key.
Proof.
  unfold call_hasOwnProperty.
  destruct (prop_get flat "hasOwnProperty"); [discriminate | ].
  now intros [= <-].
Qed.

(** What one round of the first loop adds to the change set, when it
    returns. *)
Lemma detect_current_entry_returns (previousFlat : obj)
    (changes after : FileChanges) (entry : string * value) :
  detect_current_entry previousFlat changes entry = Returns after ->
  after
  = mkFileChanges
      (fc_hasChanges changes
       || negb (hasOwnProperty previousFlat (fst entry))
       || value_changed previousFlat entry)
      (fc_newKeys changes ++ new_of previousFlat entry)
      (fc_modifiedKeys changes ++ modified_of previousFlat entry)
      (fc_deletedKeys changes).
Proof.
  destruct entry as [key v]. unfold detect_current_entry. intros Hrun.
  apply and_then_returns in Hrun. destruct Hrun as (known & Hcall & Hrun).
  apply call_hasOwnProperty_returns in Hcall. subst known.
  unfold new_of, modified_of, value_changed, hasOwnProperty in *.
  cbn [fst snd]. destruct (prop_get previousFlat key) as [old | ];
    cbn [negb] in *.
  - destruct (strict_eq old v); cbn [negb] in *.
    + injection Hrun as <-. destruct changes. simpl.
      now rewrite !orb_false_r, !app_nil_r.
    + apply and_then_returns in Hrun. destruct Hrun as (? & _ & Hrun).
      apply and_then_returns in Hrun. destruct Hrun as (? & _ & Hrun).
      injection Hrun as <-. now rewrite orb_true_r, app_nil_r.
  - apply and_then_returns in Hrun. destruct Hrun as (? & _ & Hrun).
    injection Hrun as <-. now rewrite orb_true_r, app_nil_r.
Qed.

(** What one round of the second loop adds to the change set, when it
    returns. *)
Lemma detect_previous_key_returns (currentFlat : obj)
    (changes after : FileChanges) (key : string) :
  detect_previous_key currentFlat changes key = Returns after ->
  after
  = mkFileChanges
      (fc_hasChanges changes || negb (hasOwnProperty currentFlat key))
      (fc_newKeys changes) (fc_modifiedKeys changes)
      (fc_deletedKeys changes
       ++ filter (fun k => negb (hasOwnProperty currentFlat k)) [key]).
Proof.
  unfold detect_previous_key. intros Hrun.
  apply and_then_returns in Hrun. destruct Hrun as (known & Hcall & Hrun).
  apply call_hasOwnProperty_returns in Hcall. subst known.
  cbn [filter]. destruct (hasOwnProperty currentFlat key); cbn [negb] in *;
    injection Hrun as <-.
  - destruct changes. simpl. now rewrite orb_false_r, app_nil_r.
  - now rewrite orb_true_r.
Qed.

(** The three lists of a change set, loop by loop. *)
Lemma detect_current_lists (previousFlat : obj)
    (entries : list (string * value)) :
  forall changes after,
    fold_throwing (detect_current_entry previousFlat) entries changes
    = Returns after ->
    fc_hasChanges after
    = fc_hasChanges changes
      || existsb
           (fun entry =>
              negb (hasOwnProperty previousFlat (fst entry))
              || value_changed previousFlat entry)
           entries
    /\ fc_newKeys after
       = fc_newKeys changes ++ flat_map (new_of previousFlat) entries
    /\ fc_modifiedKeys after
       = fc_modifiedKeys changes
         ++ flat_map (modified_of previousFlat) entries
    /\ fc_deletedKeys after = fc_deletedKeys changes.
Proof.
  induction entries as [ | entry rest IH]; intros changes after.
  - intros [= <-]. simpl. now rewrite orb_false_r, !app_nil_r.
  - rewrite fold_throwing_cons. intros Hrun.
    apply and_then_returns in Hrun. destruct Hrun as (next & Hstep & Hrun).
    apply detect_current_entry_returns in Hstep.
    destruct (IH next after Hrun) as (Hflag & Hnew & Hmod & Hdel).
    rewrite Hflag, Hnew, Hmod, Hdel, Hstep. cbn [fc_hasChanges fc_newKeys
      fc_modifiedKeys fc_deletedKeys existsb flat_map].
    rewrite <- !app_assoc, <- !orb_assoc. auto.
Qed.

Lemma detect_previous_lists (currentFlat : obj) (keys : list string) :
  forall changes after,
    fold_throwing (detect_previous_key currentFlat) keys changes
    = Returns after ->
    fc_hasChanges after
    = fc_hasChanges changes
      || existsb (fun key => negb (hasOwnProperty currentFlat key)) keys
    /\ fc_newKeys after = fc_newKeys changes
    /\ fc_modifiedKeys after = fc_modifiedKeys changes
    /\ fc_deletedKeys after
       = fc_deletedKeys changes
         ++ filter (fun key => negb (hasOwnProperty currentFlat key)) keys.
Proof.
  induction keys as [ | key rest IH]; intros changes after.
  - intros [= <-]. simpl. now rewrite orb_false_r, app_nil_r.
  - rewrite fold_throwing_cons. intros Hrun.
    apply and_then_returns in Hrun. destruct Hrun as (next & Hstep & Hrun).
    apply detect_previous_key_returns in Hstep.
    destruct (IH next after Hrun) as (Hflag & Hnew & Hmod & Hdel).
    rewrite Hflag, Hnew, Hmod, Hdel, Hstep. cbn [fc_hasChanges fc_newKeys
      fc_modifiedKeys fc_deletedKeys existsb filter].
    rewrite <- !orb_assoc.
    destruct (negb (hasOwnProperty currentFlat key)); simpl;
      rewrite <- ?app_assoc; auto.
Qed.

(** The change set that [detectFileChanges] returns, in terms of the two
    flat maps. *)
Lemma detectFileChanges_lists (previous current : obj)
    (changes : FileChanges) :
  detectFileChanges previous current = Returns changes ->
  exists previousFlat currentFlat,
    flattenObject previous "" = Returns previousFlat
    /\ flattenObject current "" = Returns currentFlat
    /\ fc_hasChanges changes
       = existsb
           (fun entry =>
              negb (hasOwnProperty previousFlat (fst entry))
              || value_changed previousFlat entry)
           currentFlat
         || existsb (fun key => negb (hasOwnProperty currentFlat key))
              (own_keys previousFlat)
    /\ fc_newKeys changes = flat_map (new_of previousFlat) currentFlat
    /\ fc_modifiedKeys changes
       = flat_map (modified_of previousFlat) currentFlat
    /\ fc_deletedKeys changes
       = filter (fun key => negb (hasOwnProperty currentFlat key))
           (own_keys previousFlat).
Proof.
  unfold detectFileChanges. intros Hrun.
  apply and_then_returns in Hrun.
  destruct Hrun as (previousFlat & Hprevious & Hrun).
  apply and_then_returns in Hrun.
  destruct Hrun as (currentFlat & Hcurrent & Hrun).
  apply and_then_returns in Hrun. destruct Hrun as (first & Hfirst & Hrun).
  exists previousFlat, currentFlat.
  destruct (detect_current_lists _ _ _ _ Hfirst) as (F1 & N1 & M1 & D1).
  destruct (detect_previous_lists _ _ _ _ Hrun) as (F2 & N2 & M2 & D2).
  rewrite F2, N2, M2, D2, F1, N1, M1, D1. simpl. repeat split; assumption.
Qed.

(** ** Documents that left the source tree *)

Lemma detect_new_file_mentions (previousFiles : files) (names : list string)
    (changes : Changes) (fileName : string) :
  In fileName names -> mentions_only names changes ->
  mentions_only names (detect_new_file previousFiles changes fileName).
Proof.
  intros Hin Hold g. unfold detect_new_file.
  destruct (prop_get previousFiles fileName); [apply Hold | ].
  simpl. rewrite in_app_iff. simpl.
  intros [[H | [<- | []]] | H]; auto; apply Hold; auto.
Qed.

Lemma detect_existing_file_mentions (previousFiles : files)
    (names : list string) (changes after : Changes) (entry : string * obj) :
  In (fst entry) names -> mentions_only names changes ->
  detect_existing_file previousFiles changes entry = Returns after ->
  mentions_only names after.
Proof.
  destruct entry as [fileName content]. simpl.
  intros Hin Hold. unfold detect_existing_file.
  destruct (prop_get previousFiles fileName) as [previous | ];
    [ | now intros [= <-]].
  intros Hrun. apply and_then_returns in Hrun.
  destruct Hrun as (fileChanges & _ & Hrun).
  destruct (fc_hasChanges fileChanges); injection Hrun as <-;
    [ | exact Hold].
  intros g. simpl. rewrite in_app_iff, !In_own_keys_set. simpl.
  intros [H | [[H | [<- | []]] | [[-> | H] | [[-> | H] | [-> | H]]]]];
    auto; apply Hold; auto 6.
Qed.

(** A change record only mentions documents of the current tree. *)
Lemma detectChanges_mentions (previousFiles currentFiles : files)
    (changes : Changes) :
  detectChanges previousFiles currentFiles = Returns changes ->
  mentions_only (own_keys currentFiles) changes.
Proof.
  unfold detectChanges.
  apply (fold_throwing_invariant (detect_existing_file previousFiles)
           (mentions_only (own_keys currentFiles))).
  - intros s entry s' Hin Hs Hstep.
    eapply detect_existing_file_mentions; [ | exact Hs | exact Hstep].
    now apply in_map.
  - apply fold_left_invariant.
    + intros s fileName Hin. now apply detect_new_file_mentions.
    + intros g. simpl. tauto.
Qed.

(** Dropping from the snapshot a document that the current tree lacks
    does not change what [detectChanges] does. *)
Lemma detectChanges_forgets (previousFiles currentFiles : files)
    (fileName : string) :
  prop_get currentFiles fileName = None ->
  detectChanges previousFiles currentFiles
  = detectChanges (prop_delete previousFiles fileName) currentFiles.
Proof.
  intros Habsent. apply prop_get_None in Habsent. unfold detectChanges.
  rewrite (fold_left_ext_in (detect_new_file previousFiles)
             (detect_new_file (prop_delete previousFiles fileName))).
  - apply fold_throwing_ext_in. intros changes [g content] Hin.
    unfold detect_existing_file. rewrite prop_get_delete_ne; [reflexivity | ].
    intros ->. apply Habsent. apply in_map_iff. now exists (g, content).
  - intros changes g Hin. unfold detect_new_file.
    rewrite prop_get_delete_ne; [reflexivity | ].
    intros ->. contradiction.
Qed.

Lemma merge_file_other (merged merged' : files) (entry : string * obj)
    (fileName : string) :
  fst entry <> fileName ->
  merge_file merged entry = Returns merged' ->
  prop_get merged' fileName = prop_get merged fileName.
Proof.
  destruct entry as [g content]. cbn [fst]. intros Hne. unfold merge_file.
  destruct (prop_get merged g) eqn:Hg.
  - intros Hrun. apply and_then_returns in Hrun.
    destruct Hrun as (result & _ & [= <-]). now rewrite prop_get_set_ne.
  - destruct (includes object_prototype g); [discriminate | ].
    intros [= <-]. rewrite prop_get_define by assumption.
    now destruct (String.eqb_spec g fileName).
Qed.

Lemma delete_in_file_other (changes : Changes) (merged merged' : files)
    (g fileName : string) :
  g <> fileName ->
  delete_in_file changes merged g = Returns merged' ->
  prop_get merged' fileName = prop_get merged fileName.
Proof.
  intros Hne. unfold delete_in_file.
  destruct (prop_get (deletedKeys changes) g) as [deleted | ];
    [ | now intros [= <-]].
  destruct (prop_get merged g) as [doc | ]; [ | now intros [= <-]].
  intros Hrun. apply and_then_returns in Hrun.
  destruct Hrun as (doc' & _ & [= <-]). now rewrite prop_get_set_ne.
Qed.

(** What one round of the merge does to the documents of its language:
    it merges the documents of the reply, then applies the deletions. *)
Lemma merge_language_returns (newTranslations : translations)
    (changes : Changes) (merged merged' : translations) (language : string) :
  merge_language newTranslations changes merged language = Returns merged' ->
  exists added final,
    match prop_get newTranslations language with
    | Some newFiles =>
        fold_throwing merge_file newFiles
          (match prop_get merged language with
           | Some fs => fs
           | None => []
           end)
    | None =>
        Returns (match prop_get merged language with
                 | Some fs => fs
                 | None => []
                 end)
    end = Returns added
    /\ fold_throwing (delete_in_file changes) (modifiedFiles changes) added
       = Returns final
    /\ merged' = prop_set merged language final.
Proof.
  unfold merge_language. intros Hrun.
  apply and_then_returns in Hrun. destruct Hrun as (added & Hadded & Hrun).
  apply and_then_returns in Hrun. destruct Hrun as (final & Hfinal & Hrun).
  injection Hrun as <-. eauto.
Qed.

(** One round of the merge leaves alone, in every language, a document
    that is neither in the reply for that language nor among the
    modified files. *)
Lemma merge_language_untouched (newTranslations : translations)
    (changes : Changes) (merged merged' : translations)
    (language fileName : string) :
  ~ In fileName (modifiedFiles changes) ->
  (forall language', document_of newTranslations language' fileName = None) ->
  merge_language newTranslations changes merged language = Returns merged' ->
  forall language',
    document_of merged' language' fileName
    = document_of merged language' fileName.
Proof.
  intros Hmod Hnew Hstep language'.
  apply merge_language_returns in Hstep.
  destruct Hstep as (added & final & Hadded & Hfinal & ->).
  set (current := match prop_get merged language with
                  | Some fs => fs | None => [] end) in Hadded.
  unfold document_of.
  destruct (String.eqb_spec language language') as [<- | Hne];
    [ | now rewrite prop_get_set_ne].
  rewrite prop_get_set_eq.
  assert (Hsame : prop_get added fileName = prop_get current fileName).
  { specialize (Hnew language). unfold document_of in Hnew.
    destruct (prop_get newTranslations language) as [nf | ];
      [ | now injection Hadded as <-].
    apply prop_get_None in Hnew.
    apply (fold_throwing_invariant merge_file
             (fun fs => prop_get fs fileName = prop_get current fileName) nf)
      with (init := current); [ | reflexivity | exact Hadded].
    intros fs entry fs' Hin Hfs Hentry. rewrite <- Hfs.
    eapply merge_file_other; [ | exact Hentry].
    intros <-. apply Hnew. now apply in_map. }
  assert (Hdel : prop_get final fileName = prop_get added fileName).
  { apply (fold_throwing_invariant (delete_in_file changes)
             (fun fs => prop_get fs fileName = prop_get added fileName)
             (modifiedFiles changes)) with (init := added);
      [ | reflexivity | exact Hfinal].
    intros fs g fs' Hin Hfs Hg. rewrite <- Hfs.
    eapply delete_in_file_other; [ | exact Hg].
    intros ->. contradiction. }
  rewrite Hdel, Hsame. unfold current.
  now destruct (prop_get merged language).
Qed.

Lemma document_of_erase (t : translations) (language fileName : string) :
  document_of (erase_translations t) language fileName
  = option_map erase_doc (document_of t language fileName).
Proof.
  unfold document_of, erase_translations.
  rewrite prop_get_erase_map.
  destruct (prop_get t language) as [fs | ]; [ | reflexivity].
  simpl. apply prop_get_erase_map.
Qed.

(** The merge leaves in place, in every language, a document that is
    neither in the reply nor among the modified files. *)
Lemma mergeTranslations_untouched (next : nat)
    (existing newTranslations merged : translations) (changes : Changes)
    (fileName : string) :
  ~ In fileName (modifiedFiles changes) ->
  (forall language, document_of newTranslations language fileName = None) ->
  mergeTranslations next existing newTranslations changes = Returns merged ->
  forall language,
    option_map erase_doc (document_of merged language fileName)
    = option_map erase_doc (document_of existing language fileName).
Proof.
  intros Hmod Hnew Hmerge language. unfold mergeTranslations in Hmerge.
  rewrite <- !document_of_erase.
  rewrite <- (erase_clone_translations existing next).
  rewrite !document_of_erase. f_equal.
  apply (fold_throwing_invariant (merge_language newTranslations changes)
           (fun m => document_of m language fileName
                     = document_of (fst (clone_translations existing next))
                         language fileName)
           targetLanguages) with (init := fst (clone_translations existing next));
    [ | reflexivity | exact Hmerge].
  intros m l m' _ Hm Hstep. rewrite <- Hm.
  eapply merge_language_untouched; eassumption.
Qed.

(** C10. A document that the previous snapshot has and the current tree
    lacks changes nothing in what [detectChanges] does: the call ends as
    it does on a snapshot without that document, and the record it
    returns, [hasChanges] included, names the document nowhere; and
    whenever the reply does not bring that document back, the merge
    leaves its translation in place in every language. *)
Theorem removed_document_is_kept :
  forall (previousFiles currentFiles : files) (fileName : string),
    prop_get currentFiles fileName = None ->
    detectChanges previousFiles currentFiles
    = detectChanges (prop_delete previousFiles fileName) currentFiles
    /\ forall changes : Changes,
        detectChanges previousFiles currentFiles = Returns changes ->
        (~ In fileName (newFiles changes)
         /\ ~ In fileName (modifiedFiles changes)
         /\ prop_get (newKeys changes) fileName = None
         /\ prop_get (modifiedKeys changes) fileName = None
         /\ prop_get (deletedKeys changes) fileName = None)
        /\ forall (next : nat)
                  (existing newTranslations merged : translations),
            (forall language,
                document_of newTranslations language fileName = None) ->
            mergeTranslations next existing newTranslations changes
            = Returns merged ->
            forall language,
              option_map erase_doc (document_of merged language fileName)
              = option_map erase_doc
                  (document_of existing language fileName).
Proof.
  intros previousFiles currentFiles fileName Habsent.
  split; [now apply detectChanges_forgets | ].
  intros changes Hchanges.
  pose proof (detectChanges_mentions previousFiles currentFiles changes
                Hchanges fileName) as Hmentions.
  assert (Hnot : ~ In fileName (own_keys currentFiles))
    by now apply prop_get_None.
  assert (Hmod : ~ In fileName (modifiedFiles changes)) by tauto.
  split.
  - rewrite !prop_get_None. tauto.
  - intros next existing newTranslations merged Hnew Hmerge.
    eapply mergeTranslations_untouched; eassumption.
Qed.

Lemma removed_document_is_kept_witness :
  exists changes,
    detectChanges Scenario.previous_with_removed Scenario.current_greeting
    = Returns changes
    /\ ~ In "old.json" (modifiedFiles changes)
    /\ detectChanges Scenario.previous_with_removed Scenario.current_greeting
       = detectChanges
           (prop_delete Scenario.previous_with_removed "old.json")
           Scenario.current_greeting.
Proof.
  pose proof (removed_document_is_kept Scenario.previous_with_removed
                Scenario.current_greeting "old.json" eq_refl) as [Hsame H].
  eexists. split; [vm_compute; reflexivity | ].
  split; [ | exact Hsame].
  eapply H. vm_compute. reflexivity.
Defined.

(** ** Dotted paths *)

Lemma append_assoc (a b c : string) :
  ((a ++ b) ++ c = a ++ (b ++ c))%string.
Proof. induction a as [ | ch a IH]; simpl; [reflexivity | now rewrite IH]. Qed.

Lemma split_dot_nonempty (s : string) : split_dot s <> [].
Proof.
  destruct s as [ | c rest]; simpl; [discriminate | ].
  destruct (Ascii.eqb c "."); [discriminate | ].
  destruct (split_dot rest); discriminate.
Qed.

Lemma split_dot_dot_free (s : string) : dot_free s = true -> split_dot s = [s].
Proof.
  induction s as [ | c rest IH]; simpl; [reflexivity | ].
  unfold dot. destruct (Ascii.eqb c "."); simpl; [discriminate | ].
  intros H. now rewrite IH.
Qed.

Lemma split_dot_dotted (k rest : string) :
  dot_free k = true -> split_dot (dotted k rest) = k :: split_dot rest.
Proof.
  unfold dotted. simpl. induction k as [ | c k IH]; simpl; [reflexivity | ].
  unfold dot. destruct (Ascii.eqb c "."); simpl; [discriminate | ].
  intros H. now rewrite IH.
Qed.

Lemma plain_key_dot_free (k : string) : plain_key k = true -> dot_free k = true.
Proof. unfold plain_key. now intros [_ H]%andb_prop. Qed.

Lemma plain_key_truthy (k : string) :
  plain_key k = true -> truthy_string k = true.
Proof. unfold plain_key. now intros [H _]%andb_prop. Qed.

(** Splitting a flat path gives back the keys it was made of. *)
Lemma split_dot_join_path (keys : list string) :
  keys <> [] -> plain_path keys -> split_dot (join_path keys) = keys.
Proof.
  unfold plain_path.
  induction keys as [ | k rest IH]; intros Hne Hplain; [contradiction | ].
  simpl in Hplain. apply andb_prop in Hplain as [Hk Hrest].
  apply plain_key_dot_free in Hk.
  destruct rest as [ | k' rest'].
  - simpl. now apply split_dot_dot_free.
  - change (join_path (k :: k' :: rest'))
      with (dotted k (join_path (k' :: rest'))).
    rewrite split_dot_dotted by exact Hk.
    now rewrite IH.
Qed.

Lemma join_path_truthy (keys : list string) :
  keys <> [] -> plain_path keys -> truthy_string (join_path keys) = true.
Proof.
  unfold plain_path. destruct keys as [ | k rest]; [contradiction | ].
  intros _ Hplain. simpl in Hplain. apply andb_prop in Hplain as [Hk _].
  apply plain_key_truthy in Hk.
  destruct rest; simpl; [exact Hk | ].
  destruct k; [discriminate | reflexivity].
Qed.

Lemma join_path_snoc (keys : list string) (k : string) :
  keys <> [] -> join_path (keys ++ [k]) = dotted (join_path keys) k.
Proof.
  induction keys as [ | k0 rest IH]; intros Hne; [contradiction | ].
  destruct rest as [ | k1 rest'].
  - reflexivity.
  - change (join_path ((k0 :: k1 :: rest') ++ [k]))
      with (dotted k0 (join_path ((k1 :: rest') ++ [k]))).
    rewrite IH by discriminate.
    change (join_path (k0 :: k1 :: rest'))
      with (dotted k0 (join_path (k1 :: rest'))).
    unfold dotted. now rewrite !append_assoc.
Qed.

(** The key that [flattenObject] computes for [key] under the prefix of
    [keys]. *)
Lemma newKey_join_path (keys : list string) (key : string) :
  plain_path keys ->
  (if truthy_string (join_path keys) then dotted (join_path keys) key
   else key)
  = join_path (keys ++ [key]).
Proof.
  intros Hplain. destruct keys as [ | k rest]; [reflexivity | ].
  rewrite join_path_truthy by (discriminate || exact Hplain).
  now rewrite join_path_snoc.
Qed.

Lemma plain_path_app (a b : list string) :
  plain_path (a ++ b) <-> plain_path a /\ plain_path b.
Proof.
  unfold plain_path. rewrite forallb_app, andb_true_iff. tauto.
Qed.

(** Distinct sequences of plain keys have distinct flat paths. *)
Lemma join_path_injective (a b : list string) :
  a <> [] -> b <> [] -> plain_path a -> plain_path b ->
  join_path a = join_path b -> a = b.
Proof.
  intros Ha Hb Hpa Hpb Heq.
  rewrite <- (split_dot_join_path a Ha Hpa).
  rewrite <- (split_dot_join_path b Hb Hpb).
  now rewrite Heq.
Qed.

(** ** Leaves of a tree *)

Lemma all_values_app (P : value -> Prop) (a b : list (string * value)) :
  all_values P (a ++ b) <-> all_values P a /\ all_values P b.
Proof.
  induction a as [ | [k x] rest IH]; simpl; [tauto | ]. rewrite IH. tauto.
Qed.

Lemma all_values_In (P : value -> Prop) (l : list (string * value))
    (k : string) (x : value) :
  all_values P l -> In (k, x) l -> P x.
Proof.
  induction l as [ | [k' x'] rest IH]; simpl; [tauto | ].
  intros [Hx Hrest] [[= -> ->] | Hin]; auto.
Qed.

Lemma leaves_of_entries_app (a b : list (string * value)) :
  leaves_of_entries leaves (a ++ b)
  = leaves_of_entries leaves a ++ leaves_of_entries leaves b.
Proof.
  induction a as [ | [k x] rest IH]; simpl; [reflexivity | ].
  now rewrite IH, app_assoc.
Qed.

(** The path of a leaf starts with a key of the mapping. *)
Lemma leaves_of_entries_first (entries : list (string * value))
    (keys : list string) (l : value) :
  In (keys, l) (leaves_of_entries leaves entries) ->
  exists k rest, keys = k :: rest /\ In k (own_keys entries).
Proof.
  induction entries as [ | [k x] more IH]; simpl; [tauto | ].
  rewrite in_app_iff. intros [Hin | Hin].
  - destruct (is_mapping x).
    + apply in_map_iff in Hin. destruct Hin as ([p l'] & [= <- <-] & _).
      exists k, p. auto.
    + destruct Hin as [[= <- <-] | []]. exists k, []. auto.
  - destruct (IH Hin) as (k' & rest & -> & Hk). exists k', rest. auto.
Qed.

Lemma plain_keys_entry (props : list (string * value)) (k : string)
    (x : value) :
  plain_keys (VObj props) -> In (k, x) props ->
  plain_key k = true /\ plain_keys x.
Proof.
  simpl. intros (_ & Hkeys & Hvalues) Hin. split.
  - rewrite forallb_forall in Hkeys. apply Hkeys.
    apply in_map_iff. now exists (k, x).
  - eapply all_values_In; eassumption.
Qed.

(** The path of a leaf of a tree with plain keys is a plain path. *)
Lemma leaves_plain (v : value) :
  plain_keys v ->
  forall keys l, In (keys, l) (leaves v) -> plain_path keys.
Proof.
  induction v as [ | b | z | s | id len props _ | props IH] using value_ind;
    intros Hplain keys l; simpl; try tauto.
  assert (Hentries : forall k x, In (k, x) props ->
                                 plain_key k = true /\ plain_keys x)
    by (intros k x; now apply plain_keys_entry).
  clear Hplain. revert keys l.
  induction IH as [ | [k x] rest Hx Hrest IHrest]; intros keys l; simpl;
    [tauto | ].
  destruct (Hentries k x (or_introl eq_refl)) as [Hk Hpx].
  rewrite in_app_iff. intros [Hin | Hin].
  - destruct (is_mapping x).
    + apply in_map_iff in Hin. destruct Hin as ([p l'] & [= <- <-] & Hin).
      unfold plain_path. simpl. rewrite Hk. simpl.
      eapply Hx; eassumption.
    + destruct Hin as [[= <- <-] | []]. unfold plain_path. simpl.
      now rewrite Hk.
  - eapply IHrest; [ | exact Hin]. intros k' x' Hin'. apply Hentries.
    now right.
Qed.

Lemma leaves_of_entries_plain (entries : list (string * value))
    (keys : list string) (l : value) :
  plain_keys (VObj entries) ->
  In (keys, l) (leaves_of_entries leaves entries) -> plain_path keys.
Proof. intros Hplain Hin. eapply (leaves_plain (VObj entries)); eassumption. Qed.

(** ** The flat map of a tree with plain keys *)
(** ** The flat map of a tree with plain keys *)

Lemma join_path_split_dot (s : string) : join_path (split_dot s) = s.
Proof.
  induction s as [ | c rest IH]; [reflexivity | ].
  simpl. destruct (Ascii.eqb_spec c ".") as [-> | Hne].
  - destruct (split_dot rest) as [ | h t] eqn:Hsplit.
    + now apply split_dot_nonempty in Hsplit.
    + change (join_path (EmptyString :: h :: t))
        with (dotted EmptyString (join_path (h :: t))).
      rewrite IH. reflexivity.
  - destruct (split_dot rest) as [ | h t] eqn:Hsplit.
    + now apply split_dot_nonempty in Hsplit.
    + destruct t as [ | h' t'].
      * simpl in *. now rewrite IH.
      * change (join_path (String c h :: h' :: t'))
          with (dotted (String c h) (join_path (h' :: t'))).
        change (join_path (h :: h' :: t'))
          with (dotted h (join_path (h' :: t'))) in IH.
        unfold dotted in *. simpl in *. now rewrite IH.
Qed.

(** The leaves listed for a mapping are the leaf entries of the mapping
    and the leaves of its nested mappings, each behind its key. *)
Lemma in_leaves_of_entries (entries : list (string * value))
    (keys : list string) (l : value) :
  In (keys, l) (leaves_of_entries leaves entries)
  <-> exists k x rest,
        In (k, x) entries /\ keys = k :: rest
        /\ ((is_mapping x = false /\ rest = [] /\ l = x)
            \/ (is_mapping x = true /\ In (rest, l) (leaves x))).
Proof.
  induction entries as [ | [k x] more IH]; simpl.
  - split; [tauto | intros (k & x & rest & [] & _)].
  - rewrite in_app_iff, IH. split.
    + intros [Hin | (k' & x' & rest & Hin & Hrest)].
      * destruct (is_mapping x) eqn:Hmap.
        -- apply in_map_iff in Hin.
           destruct Hin as ([p l'] & [= <- <-] & Hin).
           exists k, x, p. split; [now left | ]. split; [reflexivity | ].
           right. auto.
        -- destruct Hin as [[= <- <-] | []]. exists k, x, [].
           split; [now left | ]. split; [reflexivity | ]. left. auto.
      * exists k', x', rest. tauto.
    + intros (k' & x' & rest & [[= -> ->] | Hin] & -> & Hcase).
      * left. destruct Hcase as [(Hmap & -> & ->) | (Hmap & Hin)];
          rewrite Hmap.
        -- now left.
        -- apply in_map_iff. now exists (rest, l).
      * right. exists k', x', rest. tauto.
Qed.

(** A path that leads through nested mappings to a leaf is listed among
    the leaves. *)
Lemma lookup_path_in_leaves (keys : list string) :
  forall v l,
    keys <> [] -> lookup_path v keys = Some l -> is_mapping l = false ->
    In (keys, l) (leaves v).
Proof.
  induction keys as [ | k rest IH]; intros v l Hne Hlook Hleaf;
    [contradiction | ].
  simpl in Hlook. destruct v as [ | b | z | s | id len props | o];
    try discriminate.
  destruct (prop_get o k) as [x | ] eqn:Hget; [ | discriminate].
  simpl. apply in_leaves_of_entries. exists k, x, rest.
  split; [now apply prop_get_Some_In | ]. split; [reflexivity | ].
  destruct rest as [ | k' rest'].
  - injection Hlook as ->. left. auto.
  - right. destruct x as [ | b | z | s | id len props | o'];
      try discriminate.
    split; [reflexivity | ]. apply IH; [discriminate | exact Hlook | exact Hleaf].
Qed.

(** In a tree with distinct keys every listed leaf is found at its
    path. *)
Lemma leaves_lookup_path (v : value) :
  unique_keys v ->
  forall keys l, In (keys, l) (leaves v) ->
    lookup_path v keys = Some l /\ is_mapping l = false.
Proof.
  induction v as [ | b | z | s | id len props _ | props IH] using value_ind;
    intros Hunique keys l; simpl; try tauto.
  destruct Hunique as [Hnd Hdeep].
  intros Hin. apply in_leaves_of_entries in Hin.
  destruct Hin as (k & x & rest & Hin & -> & Hcase).
  cbn [lookup_path]. rewrite (In_prop_get props k x Hnd Hin).
  destruct Hcase as [(Hmap & -> & ->) | (Hmap & Hrest)]; [auto | ].
  rewrite Forall_forall in IH. apply (IH (k, x) Hin); [ | exact Hrest].
  eapply all_values_In; eassumption.
Qed.

Lemma plain_keys_unique (v : value) : plain_keys v -> unique_keys v.
Proof.
  induction v as [ | b | z | s | id len props _ | props IH] using value_ind;
    simpl; try tauto.
  intros (Hnd & _ & Hdeep). split; [exact Hnd | ].
  induction IH as [ | [k x] rest Hx _ IHrest]; simpl in *; [exact I | ].
  destruct Hdeep as [Hhead Hrest]. inversion Hnd; subst. auto.
Qed.

Lemma leaves_path_nonempty (v : value) (p : list string) (x : value) :
  In (p, x) (leaves v) -> p <> [].
Proof.
  destruct v; simpl; try tauto.
  intros Hin. apply leaves_of_entries_first in Hin.
  destruct Hin as (k & rest & -> & _). discriminate.
Qed.

Lemma object_assign_In (o src o' : obj) (e : string * value) :
  object_assign o src = Returns o' -> In e o' -> In e src \/ In e o.
Proof.
  intros Hrun. revert e. unfold object_assign in Hrun.
  apply (fold_throwing_invariant
           (fun (r : obj) (kv : string * value) =>
              js_assign r (fst kv) (snd kv))
           (fun s : obj => forall e, In e s -> In e src \/ In e o) src)
    with (init := o) (final := o'); [ | auto | exact Hrun].
  intros s [k v] s' Hin Hs Hstep [k' x] Hin'. simpl in Hstep.
  destruct (js_assign_In _ _ _ _ _ _ Hstep Hin') as [[-> ->] | Hold]; auto.
Qed.

(** Assigning the entries of a map with distinct keys, none of which is
    [__proto__]: the target holds them all, and what it held under
    other keys. *)
Lemma object_assign_get (src : obj) :
  NoDup (own_keys src) ->
  (forall k, In k (own_keys src) -> k <> "__proto__") ->
  forall o,
  exists o',
    object_assign o src = Returns o'
    /\ forall k, prop_get o' k
                 = match prop_get src k with
                   | Some v => Some v
                   | None => prop_get o k
                   end.
Proof.
  unfold object_assign.
  induction src as [ | [k v] rest IH]; intros Hnd Hkeys o.
  - exists o. split; [reflexivity | ]. reflexivity.
  - rewrite fold_throwing_cons. cbn [fst snd].
    destruct (js_assign_returns o k v (Hkeys k (or_introl eq_refl)))
      as (o1 & -> & Hget1).
    inversion Hnd as [ | ? ? Hnotin Hnd']; subst.
    destruct (IH Hnd' (fun k' H => Hkeys k' (or_intror H)) o1)
      as (o' & Hrun & Hget).
    cbn [and_then]. exists o'. split; [exact Hrun | ].
    intros k'. rewrite Hget, Hget1. cbn [prop_get].
    destruct (String.eqb_spec k k') as [<- | Hne]; [ | reflexivity].
    apply prop_get_None in Hnotin. now rewrite Hnotin.
Qed.

(** Every entry of the flat map of a tree with plain keys is a leaf of
    the tree under the flat path of its keys. *)
Lemma flattenValue_sound (v : value) :
  forall prefix flat,
    plain_path prefix -> plain_keys v ->
    flattenValue v (join_path prefix) = Returns flat ->
    forall key l,
      In (key, l) flat ->
      exists p, In (p, l) (leaves v) /\ key = join_path (prefix ++ p).
Proof.
  induction v as [ | b | z | s | id len props _ | props IH] using value_ind;
    intros prefix flat Hprefix Hplain; simpl;
    try (intros [= <-] key l []).
  assert (Hloop : forall entries result,
             incl entries props ->
             (forall key l,
                 In (key, l) result ->
                 exists p, In (p, l) (leaves_of_entries leaves props)
                           /\ key = join_path (prefix ++ p)) ->
             flatten_loop flattenValue (join_path prefix) entries result
             = Returns flat ->
             forall key l,
               In (key, l) flat ->
               exists p, In (p, l) (leaves_of_entries leaves props)
                         /\ key = join_path (prefix ++ p)).
  { induction entries as [ | [k x] rest IHrest]; intros result Hincl Hres.
    - intros [= <-]. exact Hres.
    - cbn [flatten_loop]. intros Hrun.
      apply and_then_returns in Hrun.
      destruct Hrun as (result' & Hstep & Hrun).
      assert (Hin : In (k, x) props) by (apply Hincl; now left).
      destruct (plain_keys_entry props k x Hplain Hin) as [Hk Hx].
      rewrite newKey_join_path in Hstep by exact Hprefix.
      apply (IHrest result'); [ | | exact Hrun].
      + intros e He. apply Hincl. now right.
      + intros key l Hkey. destruct (is_mapping x) eqn:Hmap.
        * apply and_then_returns in Hstep.
          destruct Hstep as (nested & Hnested & Hassign).
          destruct (object_assign_In _ _ _ _ Hassign Hkey) as [Hnew | Hold];
            [ | now apply Hres].
          rewrite Forall_forall in IH.
          destruct (IH (k, x) Hin (prefix ++ [k]) nested) with (key := key)
            (l := l) as (p & Hp & ->); auto.
          { apply plain_path_app. split; [exact Hprefix | ].
            unfold plain_path. simpl. now rewrite Hk. }
          exists (k :: p). split; [ | now rewrite <- app_assoc].
          apply in_leaves_of_entries. exists k, x, p.
            split; [exact Hin | ]. split; [reflexivity | ]. right. now split.
        * destruct (js_assign_In _ _ _ _ _ _ Hstep Hkey) as [[-> ->] | Hold];
            [ | now apply Hres].
          exists [k]. split; [ | reflexivity].
          apply in_leaves_of_entries. exists k, x, [].
            split; [exact Hin | ]. split; [reflexivity | ]. left. now repeat split. }
  intros Hrun. apply (Hloop props []); [apply incl_refl | | exact Hrun].
  intros key l [].
Qed.

(** The flat map of a tree with plain keys, none of whose leaves has
    the flat path [__proto__], holds every leaf of the tree under the
    flat path of its keys. *)
Lemma flattenValue_complete (v : value) :
  forall prefix,
    plain_path prefix -> plain_keys v ->
    (forall p l, In (p, l) (leaves v) ->
                 join_path (prefix ++ p) <> "__proto__") ->
    exists flat,
      flattenValue v (join_path prefix) = Returns flat
      /\ forall p l, In (p, l) (leaves v) ->
                     prop_get flat (join_path (prefix ++ p)) = Some l.
Proof.
  induction v as [ | b | z | s | id len props _ | props IH] using value_ind;
    intros prefix Hprefix Hplain Hproto; simpl;
    try (eexists; split; [reflexivity | intros p l []]).
  assert (Hloop : forall todo done result,
             props = done ++ todo ->
             (forall p l,
                 In (p, l) (leaves_of_entries leaves done) ->
                 prop_get result (join_path (prefix ++ p)) = Some l) ->
             exists flat,
               flatten_loop flattenValue (join_path prefix) todo result
               = Returns flat
               /\ forall p l,
                   In (p, l) (leaves_of_entries leaves props) ->
                   prop_get flat (join_path (prefix ++ p)) = Some l).
  { induction todo as [ | [k x] rest IHrest]; intros done result Hsplit Hres.
    - exists result. split; [reflexivity | ].
      rewrite app_nil_r in Hsplit. now subst done.
    - assert (Hin : In (k, x) props)
        by (rewrite Hsplit; apply in_elt).
      destruct (plain_keys_entry props k x Hplain Hin) as [Hk Hx].
      assert (Hfresh : ~ In k (own_keys done)).
      { destruct Hplain as (Hnd & _). rewrite Hsplit in Hnd.
        unfold own_keys in Hnd. rewrite map_app in Hnd. simpl in Hnd.
        apply NoDup_remove_2 in Hnd. rewrite in_app_iff in Hnd. tauto. }
      assert (Hpk : plain_path (prefix ++ [k])).
      { apply plain_path_app. split; [exact Hprefix | ].
        unfold plain_path. simpl. now rewrite Hk. }
      assert (Hother : forall p l p',
                 In (p, l) (leaves_of_entries leaves done) ->
                 plain_path p' ->
                 join_path (prefix ++ k :: p') <> join_path (prefix ++ p)).
      { intros p l p' Hp Hp' Heq.
        assert (Hpp : plain_path p).
        { apply (leaves_of_entries_plain props p l Hplain).
          rewrite Hsplit, leaves_of_entries_app, in_app_iff. now left. }
        apply join_path_injective in Heq.
        - apply app_inv_head in Heq. subst p.
          apply leaves_of_entries_first in Hp.
          destruct Hp as (k' & r & [= <- _] & Hk'). contradiction.
        - destruct prefix; discriminate.
        - apply leaves_of_entries_first in Hp.
          destruct Hp as (k' & r & -> & _). destruct prefix; discriminate.
        - apply plain_path_app. split; [exact Hprefix | ].
          unfold plain_path in *. simpl. now rewrite Hk.
        - apply plain_path_app. auto. }
      cbn [flatten_loop]. rewrite newKey_join_path by exact Hprefix.
      assert (Hstep : exists result',
                 (if is_mapping x
                  then let* nested := flattenValue x (join_path (prefix ++ [k]))
                       in object_assign result nested
                  else js_assign result (join_path (prefix ++ [k])) x)
                 = Returns result'
                 /\ forall p l,
                     In (p, l) (leaves_of_entries leaves (done ++ [(k, x)])) ->
                     prop_get result' (join_path (prefix ++ p)) = Some l).
      { destruct (is_mapping x) eqn:Hmap.
        - rewrite Forall_forall in IH.
          destruct (IH (k, x) Hin (prefix ++ [k]) Hpk Hx)
            as (nested & Hrun & Hn).
          { intros p l Hp. rewrite <- app_assoc. apply (Hproto (k :: p) l).
            apply in_leaves_of_entries. exists k, x, p.
            split; [exact Hin | ]. split; [reflexivity | ]. right. now split. }
          cbn [snd] in Hrun, Hn. rewrite Hrun. cbn [and_then].
          pose proof (flattenValue_sound x (prefix ++ [k]) nested Hpk Hx Hrun)
            as Hsound.
          destruct (object_assign_get nested
                      (flattenValue_NoDup _ _ _ Hrun)) with (o := result)
            as (result' & Hassign & Hget).
          { intros key Hkey Heq. apply in_map_iff in Hkey.
            destruct Hkey as ([key' l] & <- & Hkey).
            destruct (Hsound key' l Hkey) as (p & Hp & Hjoin).
            simpl in Heq. rewrite Hjoin, <- app_assoc in Heq.
            revert Heq. apply (Hproto (k :: p) l).
            apply in_leaves_of_entries. exists k, x, p.
            split; [exact Hin | ]. split; [reflexivity | ]. right. now split. }
          exists result'. split; [exact Hassign | ].
          intros p l. rewrite leaves_of_entries_app, in_app_iff. simpl.
          rewrite Hmap, app_nil_r, Hget. intros [Hold | Hnew].
          + destruct (prop_get nested (join_path (prefix ++ p)))
              as [l' | ] eqn:Hl'; [ | now apply Hres].
            apply prop_get_Some_In in Hl'.
            destruct (Hsound _ _ Hl') as (p' & Hp' & Hjoin).
            rewrite <- app_assoc in Hjoin. symmetry in Hjoin.
            exfalso. revert Hjoin. apply (Hother p l p' Hold).
            eapply leaves_plain; eassumption.
          + apply in_map_iff in Hnew. destruct Hnew as ([p' l'] & [= <- <-] & Hp').
            cbn [fst snd]. specialize (Hn p' l' Hp').
            rewrite <- app_assoc in Hn. simpl in Hn. now rewrite Hn.
        - destruct (js_assign_returns result (join_path (prefix ++ [k])) x)
            as (result' & -> & Hget).
          { apply (Hproto [k] x). apply in_leaves_of_entries. exists k, x, [].
            split; [exact Hin | ]. split; [reflexivity | ]. left. now repeat split. }
          exists result'. split; [reflexivity | ].
          intros p l. rewrite leaves_of_entries_app, in_app_iff. simpl.
          rewrite Hmap, Hget. intros [Hold | [[= <- <-] | []]].
          + destruct (String.eqb_spec (join_path (prefix ++ [k]))
                        (join_path (prefix ++ p))) as [Heq | _];
              [ | now apply Hres].
            exfalso. revert Heq. apply (Hother p l [] Hold). reflexivity.
          + now rewrite String.eqb_refl. }
      destruct Hstep as (result' & -> & Hres'). cbn [and_then].
      apply (IHrest (done ++ [(k, x)]) result'); [ | exact Hres'].
      now rewrite <- app_assoc. }
  apply (Hloop props [] []); [reflexivity | intros p l []].
Qed.
(** ** Setting a path in a tree of mappings *)

Lemma stored_set (o : obj) (k : string) (x : value) :
  stored o k x (prop_set o k x).
Proof.
  repeat split.
  - apply prop_get_set_eq.
  - intros k' Hne. now apply prop_get_set_ne.
  - intros k' y. apply In_prop_set_cases.
  - apply NoDup_own_keys_set.
Qed.

Lemma stored_define (o : obj) (k : string) (x : value) :
  prop_get o k = None -> stored o k x (define_property o k x).
Proof.
  intros Hget. repeat split.
  - rewrite prop_get_define by exact Hget. now rewrite String.eqb_refl.
  - intros k' Hne. rewrite prop_get_define by exact Hget.
    destruct (String.eqb_spec k k'); [contradiction | reflexivity].
  - intros k' y Hin. apply In_define_property in Hin.
    destruct Hin as [[= -> ->] | Hin]; auto.
  - now apply NoDup_own_keys_define.
Qed.

Lemma prop_set_define (o : obj) (k : string) (x y : value) :
  prop_get o k = None ->
  prop_set (define_property o k x) k y = define_property o k y.
Proof.
  intros Hget. unfold define_property.
  destruct (array_index k) as [n | ].
  - induction o as [ | [k0 v0] rest IH]; simpl.
    + now rewrite String.eqb_refl.
    + simpl in Hget.
      destruct (String.eqb_spec k0 k) as [-> | Hne]; [discriminate | ].
      destruct (array_index k0) as [n' | ].
      * destruct (n' <? n)%N; simpl.
        -- destruct (String.eqb_spec k0 k); [contradiction | ].
           now rewrite IH.
        -- now rewrite String.eqb_refl.
      * simpl. now rewrite String.eqb_refl.
  - induction o as [ | [k0 v0] rest IH]; simpl.
    + now rewrite String.eqb_refl.
    + simpl in Hget.
      destruct (String.eqb_spec k0 k) as [-> | Hne]; [discriminate | ].
      now rewrite IH.
Qed.

Lemma js_assign_stored (o : obj) (k : string) (v : value) :
  k <> "__proto__" ->
  exists o', js_assign o k v = Returns o' /\ stored o k v o'.
Proof.
  intros Hne. unfold js_assign.
  destruct (prop_get o k) as [old | ] eqn:Hget.
  - eexists. split; [reflexivity | apply stored_set].
  - destruct (String.eqb_spec k "__proto__"); [contradiction | ].
    eexists. split; [reflexivity | now apply stored_define].
Qed.

Lemma ordinary_not_proto (k : string) :
  ordinary_key k = true -> k <> "__proto__".
Proof. intros H ->. discriminate H. Qed.

Lemma ordinary_not_inherited (k : string) :
  ordinary_key k = true -> inherited [] k = false.
Proof. unfold ordinary_key. now destruct (inherited [] k). Qed.

Lemma set_path_cons (current : value) (k k2 : string) (rest : list string)
    (v : value) :
  set_path current (k :: k2 :: rest) v
  = let* read := js_get current k in
    let* current' :=
      if truthy_read read then Returns current
      else assign_prop current k (VObj []) in
    let* next := js_get current' k in
    match next with
    | Some child =>
        let* child' := set_path child (k2 :: rest) v in
        Returns (js_replace current' k child')
    | None => Throws "TypeError"
    end.
Proof. reflexivity. Qed.

(** One round of the walk at a key that holds a truthy value. *)
Lemma set_path_truthy_child (o : obj) (k k2 : string) (rest : list string)
    (v c : value) :
  prop_get o k = Some c -> truthy c = true ->
  set_path (VObj o) (k :: k2 :: rest) v
  = let* c' := set_path c (k2 :: rest) v in
    Returns (VObj (prop_set o k c')).
Proof.
  intros Hget Htruthy. rewrite set_path_cons. cbn [js_get]. rewrite Hget.
  cbn [and_then truthy_read]. rewrite Htruthy. cbn [and_then js_get].
  rewrite Hget. cbn [and_then].
  now destruct (set_path c (k2 :: rest) v).
Qed.

(** One round of the walk at an ordinary key that holds nothing, or a
    falsy value: a new mapping takes the place. *)
Lemma set_path_new_child (o : obj) (k k2 : string) (rest : list string)
    (v : value) :
  truthy_read (prop_get o k) = false -> ordinary_key k = true ->
  set_path (VObj o) (k :: k2 :: rest) v
  = let* c' := set_path (VObj []) (k2 :: rest) v in
    Returns
      (VObj
         (match prop_get o k with
          | Some _ => prop_set o k c'
          | None => define_property o k c'
          end)).
Proof.
  intros Hfalsy Hk. rewrite set_path_cons. cbn [js_get].
  destruct (prop_get o k) as [c | ] eqn:Hget.
  - cbn [and_then]. rewrite Hfalsy. cbn [assign_prop]. unfold js_assign.
    rewrite Hget. cbn [and_then js_get]. rewrite prop_get_set_eq.
    cbn [and_then].
    destruct (set_path (VObj []) (k2 :: rest) v);
      cbn [and_then js_replace]; [ | reflexivity ..].
    now rewrite prop_set_set.
  - rewrite (ordinary_not_inherited k Hk). cbn [and_then truthy_read].
    cbn [assign_prop]. unfold js_assign. rewrite Hget.
    destruct (String.eqb_spec k "__proto__") as [-> | _]; [discriminate | ].
    cbn [and_then js_get].
    rewrite prop_get_define by exact Hget. rewrite String.eqb_refl.
    cbn [and_then].
    destruct (set_path (VObj []) (k2 :: rest) v);
      cbn [and_then js_replace]; [ | reflexivity ..].
    now rewrite prop_set_define.
Qed.

Lemma all_values_forall (P : value -> Prop) (l : list (string * value)) :
  (forall k x, In (k, x) l -> P x) -> all_values P l.
Proof.
  induction l as [ | [k x] rest IH]; intros H; simpl; [exact I | ].
  split; [apply (H k x); now left | ].
  apply IH. intros k' x' Hin. apply (H k' x'). now right.
Qed.

Lemma lookup_path_leaf_end (v : value) (keys : list string) (l : value) :
  is_mapping v = false -> lookup_path v keys = Some l -> keys = [] /\ l = v.
Proof.
  destruct keys as [ | k rest]; simpl.
  - intros _ [= <-]. auto.
  - destruct v; discriminate.
Qed.

Lemma diverge_cons (k k' : string) (p q : list string) :
  diverge (k :: p) (k' :: q) = if String.eqb k k' then diverge p q else true.
Proof. reflexivity. Qed.

Lemma diverge_nonempty (p q : list string) : diverge p q = true -> q <> [].
Proof. destruct p, q; simpl; discriminate || (intros _; discriminate). Qed.

(** Setting a leaf at a path of ordinary keys that is clear of leaves:
    the call returns; the path then leads to the leaf; the paths that
    part from it lead where they led; no other leaf has appeared; and
    the tree still has distinct keys and no empty mapping. *)
Lemma set_path_sets (p : list string) :
  forall (o : obj) (v : value),
    p <> [] -> forallb ordinary_key p = true -> is_mapping v = false ->
    clear_of_leaves (VObj o) p ->
    exists o',
      set_path (VObj o) p v = Returns (VObj o')
      /\ lookup_path (VObj o') p = Some v
      /\ (forall q, diverge p q = true ->
                    lookup_path (VObj o') q = lookup_path (VObj o) q)
      /\ (forall q l,
             lookup_path (VObj o') q = Some l -> is_mapping l = false ->
             (q = p /\ l = v) \/ lookup_path (VObj o) q = Some l)
      /\ (unique_keys (VObj o) -> unique_keys (VObj o'))
      /\ (no_empty_mapping (VObj o) -> no_empty_mapping (VObj o'))
      /\ o' <> [].
Proof.
  induction p as [ | k p' IH]; intros o v Hne Hord Hv Hclear;
    [contradiction | ].
  simpl in Hord. apply andb_prop in Hord as [Hk Hp'].
  assert (Hfacets : forall (o' : obj) (x : value),
             stored o k x o' ->
             (unique_keys (VObj o) -> unique_keys x) ->
             (no_empty_mapping (VObj o) ->
              x <> VObj [] /\ no_empty_mapping x) ->
             (unique_keys (VObj o) -> unique_keys (VObj o'))
             /\ (no_empty_mapping (VObj o) -> no_empty_mapping (VObj o'))
             /\ o' <> []).
  { intros o' x (Hget & Hother & Hin & Hnd) Hux Hex. split; [ | split].
    - intros [Hnd0 Hdeep]. split; [auto | ].
      apply all_values_forall. intros k' y Hy.
      destruct (Hin k' y Hy) as [[_ ->] | Hold].
      + apply Hux. now split.
      + eapply all_values_In; eassumption.
    - intros Hdeep. simpl. apply all_values_forall. intros k' y Hy.
      destruct (Hin k' y Hy) as [[_ ->] | Hold].
      + now apply Hex.
      + simpl in Hdeep.
        apply (all_values_In _ _ _ _ Hdeep Hold).
    - intros ->. discriminate Hget. }
  destruct p' as [ | k2 rest].
  - cbn [set_path assign_prop].
    destruct (js_assign_stored o k v (ordinary_not_proto k Hk))
      as (o' & -> & Hstored).
    pose proof Hstored as (Hget & Hother & Hin & Hnd).
    exists o'. cbn [and_then]. split; [reflexivity | ].
    split; [cbn [lookup_path]; now rewrite Hget | ].
    split.
    { intros [ | k' q'] Hdiv; [discriminate | ]. simpl in Hdiv.
      destruct (String.eqb_spec k k') as [_ | Hk']; [discriminate | ].
      cbn [lookup_path]. now rewrite Hother. }
    split.
    { intros [ | k' q'] l Hq Hl.
      - injection Hq as <-. discriminate.
      - destruct (String.eqb_spec k k') as [<- | Hk'].
        + cbn [lookup_path] in Hq. rewrite Hget in Hq.
          destruct (lookup_path_leaf_end _ _ _ Hv Hq) as [-> ->]. now left.
        + right. cbn [lookup_path] in *. now rewrite Hother in Hq. }
    apply (Hfacets o' v Hstored).
    + intros _. now destruct v.
    + intros _. destruct v; simpl; try (split; [discriminate | exact I]).
      discriminate.
  - assert (Hstart : exists (start : obj) (put : value -> obj),
               (forall c', stored o k c' (put c'))
               /\ set_path (VObj o) (k :: k2 :: rest) v
                  = (let* c' := set_path (VObj start) (k2 :: rest) v in
                     Returns (VObj (put c')))
               /\ (forall q' l,
                      lookup_path (VObj start) q' = Some l ->
                      is_mapping l = false ->
                      lookup_path (VObj o) (k :: q') = Some l)
               /\ (forall q', q' <> [] ->
                              lookup_path (VObj o) (k :: q')
                              = lookup_path (VObj start) q')
               /\ (unique_keys (VObj o) -> unique_keys (VObj start))
               /\ (no_empty_mapping (VObj o) ->
                   no_empty_mapping (VObj start))).
    { assert (Hempty : forall q' l,
                 lookup_path (VObj []) q' = Some l ->
                 is_mapping l = false -> False).
      { intros [ | k' q'] l Hq Hl; simpl in Hq; [ | discriminate].
        injection Hq as <-. discriminate. }
      assert (Hfalsy : forall c q',
                 prop_get o k = Some c -> truthy c = false -> q' <> [] ->
                 lookup_path (VObj o) (k :: q')
                 = lookup_path (VObj []) q').
      { intros c [ | k' q'] Hget Ht Hq; [contradiction | ].
        cbn [lookup_path]. rewrite Hget. simpl.
        destruct c; try reflexivity. discriminate. }
      destruct (prop_get o k) as [c | ] eqn:Hget.
      - destruct (truthy c) eqn:Htruthy.
        + destruct (is_mapping c) eqn:Hc.
          * destruct c as [ | | | | | oc]; try discriminate.
            exists oc, (fun c' => prop_set o k c').
            split; [intros c'; apply stored_set | ].
            split; [now apply set_path_truthy_child | ].
            split; [intros q' l Hq _; cbn [lookup_path]; now rewrite Hget | ].
            split; [intros q' _; cbn [lookup_path]; now rewrite Hget | ].
            split.
            -- intros [_ Hdeep]. apply prop_get_Some_In in Hget.
               apply (all_values_In _ _ _ _ Hdeep Hget).
            -- intros Hdeep. apply prop_get_Some_In in Hget. simpl in Hdeep.
               apply (all_values_In _ _ _ _ Hdeep Hget).
          * exfalso. destruct (Hclear [k] c) as [Heq | Hdiv].
            -- cbn [lookup_path]. now rewrite Hget.
            -- exact Hc.
            -- discriminate.
            -- simpl in Hdiv. rewrite String.eqb_refl in Hdiv. discriminate.
        + exists [], (fun c' => prop_set o k c').
          split; [intros c'; apply stored_set | ].
          split.
          { rewrite set_path_new_child; [now rewrite Hget | | exact Hk].
            rewrite Hget. exact Htruthy. }
          split; [intros q' l Hq Hl; now destruct (Hempty q' l) | ].
          split; [intros q' Hq; now apply (Hfalsy c) | ].
          split; intros _; simpl; [split; [constructor | exact I] | exact I].
      - exists [], (fun c' => define_property o k c').
        split; [intros c'; now apply stored_define | ].
        split.
        { rewrite set_path_new_child; [now rewrite Hget | | exact Hk].
          now rewrite Hget. }
        split; [intros q' l Hq Hl; now destruct (Hempty q' l) | ].
        split.
        { intros [ | k' q'] Hq; [contradiction | ].
          cbn [lookup_path]. now rewrite Hget. }
        split; intros _; simpl; [split; [constructor | exact I] | exact I]. }
    destruct Hstart as (start & put & Hput & Heq & Hup & Hdown & Hu & He).
    destruct (IH start v ltac:(discriminate) Hp' Hv)
      as (oc & Hrun & Hread & Hdiv & Horigin & Hunique & Hnoempty & Hoc).
    { intros q' l Hq Hl.
      destruct (Hclear (k :: q') l (Hup q' l Hq Hl) Hl) as [[= ->] | Hd];
        [now left | right].
      rewrite diverge_cons in Hd. now rewrite String.eqb_refl in Hd. }
    pose proof (Hput (VObj oc)) as Hstored.
    pose proof Hstored as (Hget & Hother & Hin & Hnd).
    exists (put (VObj oc)). rewrite Heq, Hrun. cbn [and_then].
    split; [reflexivity | ].
    split; [cbn [lookup_path]; rewrite Hget; exact Hread | ].
    split.
    { intros [ | k' q'] Hd; [discriminate | ]. rewrite diverge_cons in Hd.
      destruct (String.eqb_spec k k') as [<- | Hk'].
      - cbn [lookup_path]. rewrite Hget.
        change (lookup_path (VObj oc) q' = lookup_path (VObj o) (k :: q')).
        rewrite (Hdiv q' Hd). symmetry. apply Hdown.
        eapply diverge_nonempty. exact Hd.
      - cbn [lookup_path]. now rewrite Hother. }
    split.
    { intros [ | k' q'] l Hq Hl.
      - injection Hq as <-. discriminate.
      - destruct (String.eqb_spec k k') as [<- | Hk'].
        + cbn [lookup_path] in Hq. rewrite Hget in Hq.
          destruct (Horigin q' l Hq Hl) as [[-> ->] | Hold]; [now left | ].
          right. now apply Hup.
        + right. cbn [lookup_path] in *. now rewrite Hother in Hq. }
    apply (Hfacets _ (VObj oc) Hstored).
    + intros H. apply Hunique. now apply Hu.
    + intros H. split; [congruence | ]. apply Hnoempty. now apply He.
Qed.
(** ** Paths of the flat map *)

(** Every entry of the flat map of a document with plain keys is a leaf
    of the document, found at the entry's key split at its dots. *)
Lemma flat_map_sound (d flat : obj) :
  plain_keys (VObj d) -> flattenObject d "" = Returns flat ->
  forall key v,
    prop_get flat key = Some v ->
    lookup_path (VObj d) (split_dot key) = Some v /\ is_mapping v = false.
Proof.
  intros Hplain Hflat key v Hget. apply prop_get_Some_In in Hget.
  destruct (flattenValue_sound (VObj d) [] flat eq_refl Hplain Hflat key v
              Hget) as (p & Hin & ->).
  cbn [app]. rewrite split_dot_join_path.
  - apply (leaves_lookup_path (VObj d)); [ | exact Hin].
    now apply plain_keys_unique.
  - eapply leaves_path_nonempty. exact Hin.
  - eapply leaves_plain; eassumption.
Qed.

(** The flat map of a document with plain keys, none of which is
    [__proto__] at the top, holds every leaf of the document. *)
Lemma flat_map_complete (d : obj) :
  plain_keys (VObj d) -> ~ In "__proto__" (own_keys d) ->
  exists flat,
    flattenObject d "" = Returns flat
    /\ forall key v,
        lookup_path (VObj d) (split_dot key) = Some v ->
        is_mapping v = false ->
        prop_get flat key = Some v.
Proof.
  intros Hplain Hproto.
  destruct (flattenValue_complete (VObj d) [] eq_refl Hplain)
    as (flat & Hflat & Hall).
  { intros p l Hin Heq. cbn [app] in Heq.
    assert (Hp : p = ["__proto__"]).
    { rewrite <- (split_dot_join_path p).
      - now rewrite Heq.
      - eapply leaves_path_nonempty. exact Hin.
      - eapply leaves_plain; eassumption. }
    subst p. simpl in Hin. apply leaves_of_entries_first in Hin.
    destruct Hin as (k & rest & [= <- _] & Hk). contradiction. }
  exists flat. split; [exact Hflat | ].
  intros key v Hlook Hleaf.
  rewrite <- (join_path_split_dot key). apply (Hall (split_dot key) v).
  apply lookup_path_in_leaves; [apply split_dot_nonempty | | ]; assumption.
Qed.

Lemma ordinary_keys_top (d : obj) :
  ordinary_keys (VObj d) -> ~ In "__proto__" (own_keys d).
Proof.
  intros [Hkeys _] Hin. rewrite forallb_forall in Hkeys.
  now apply Hkeys in Hin.
Qed.

(** A path through a tree with ordinary keys is made of ordinary
    keys. *)
Lemma lookup_path_ordinary (p : list string) :
  forall v l,
    ordinary_keys v -> lookup_path v p = Some l ->
    forallb ordinary_key p = true.
Proof.
  induction p as [ | k rest IH]; intros v l Hord Hlook; [reflexivity | ].
  destruct v as [ | | | | | props]; try discriminate.
  cbn [lookup_path] in Hlook.
  destruct (prop_get props k) as [x | ] eqn:Hget; [ | discriminate].
  destruct Hord as [Hkeys Hdeep]. simpl. apply andb_true_intro. split.
  - rewrite forallb_forall in Hkeys. apply Hkeys.
    eapply prop_get_In_keys. exact Hget.
  - apply (IH x l); [ | exact Hlook].
    apply prop_get_Some_In in Hget.
    apply (all_values_In _ _ _ _ Hdeep Hget).
Qed.

(** Two paths that lead to leaves of the same tree are the same path or
    diverge. *)
Lemma leaf_paths_diverge (p : list string) :
  forall q v l l',
    lookup_path v p = Some l -> is_mapping l = false ->
    lookup_path v q = Some l' -> is_mapping l' = false ->
    p <> q -> diverge p q = true.
Proof.
  induction p as [ | k p' IH]; intros q v l l' Hp Hl Hq Hl' Hne.
  - simpl in Hp. injection Hp as <-.
    destruct (lookup_path_leaf_end _ _ _ Hl Hq) as [-> _]. contradiction.
  - destruct q as [ | k' q'].
    + simpl in Hq. injection Hq as <-.
      destruct (lookup_path_leaf_end _ _ _ Hl' Hp); discriminate.
    + simpl. destruct (String.eqb_spec k k') as [<- | Hk]; [ | reflexivity].
      simpl in Hp, Hq. destruct v as [ | b | z | s | id len props | o];
        try discriminate.
      destruct (prop_get o k) as [x | ]; [ | discriminate].
      eapply IH; eauto. congruence.
Qed.

(** ** Rebuilding a tree from its flat map *)

(** Setting, in a document whose leaves are leaves of [c], entries of
    the flat map of [c], in any order. *)
Lemma sets_within (c flat : obj) :
  plain_keys (VObj c) -> ordinary_keys (VObj c) ->
  flattenObject c "" = Returns flat ->
  forall entries : obj,
    (forall k v, In (k, v) entries -> prop_get flat k = Some v) ->
    forall doc : obj,
      leaves_within (VObj c) (VObj doc) ->
      exists doc',
        fold_throwing (fun d kv => setNestedValue d (fst kv) (snd kv))
          entries doc = Returns doc'
        /\ leaves_within (VObj c) (VObj doc')
        /\ (forall k v,
               In (k, v) entries \/
               (prop_get flat k = Some v
                /\ lookup_path (VObj doc) (split_dot k) = Some v) ->
               lookup_path (VObj doc') (split_dot k) = Some v)
        /\ (forall q l,
               lookup_path (VObj doc') q = Some l -> is_mapping l = false ->
               In (join_path q, l) entries
               \/ lookup_path (VObj doc) q = Some l)
        /\ (unique_keys (VObj doc) -> unique_keys (VObj doc'))
        /\ (no_empty_mapping (VObj doc) -> no_empty_mapping (VObj doc')).
Proof.
  intros Hplain Hord Hflat.
  induction entries as [ | [k v] rest IH]; intros Hentries doc Hdoc.
  - exists doc. rewrite fold_throwing_nil.
    split; [reflexivity | ]. split; [exact Hdoc | ].
    split; [ | split; [ | split]]; auto.
    intros k v [[] | [_ H]]. exact H.
  - rewrite fold_throwing_cons. cbn [fst snd].
    destruct (flat_map_sound c flat Hplain Hflat k v
                (Hentries k v (or_introl eq_refl))) as [Hk Hv].
    destruct (set_path_sets (split_dot k) doc v (split_dot_nonempty k))
      as (doc1 & Hset & Hread & Hdiv & Horigin & Hunique & Hnoempty & _).
    { eapply lookup_path_ordinary; eassumption. }
    { exact Hv. }
    { intros q l Hq Hl.
      destruct (list_eq_dec string_dec q (split_dot k)) as [Heq | Hne];
        [now left | right].
      apply (leaf_paths_diverge q (split_dot k) (VObj c) l v); auto. }
    unfold setNestedValue at 1. rewrite Hset. cbn [and_then].
    assert (Hdoc1 : leaves_within (VObj c) (VObj doc1)).
    { intros q l Hq Hl.
      destruct (Horigin q l Hq Hl) as [[-> ->] | Hold]; [exact Hk | ].
      now apply Hdoc. }
    destruct (IH (fun k' v' H => Hentries k' v' (or_intror H)) doc1 Hdoc1)
      as (doc' & Hfold & Hwithin & Hreads & Honly & Hunique' & Hnoempty').
    exists doc'. split; [exact Hfold | ]. split; [exact Hwithin | ].
    split; [ | split; [ | split]].
    + intros k' v' Hcase. apply Hreads.
      assert (Hhead : prop_get flat k' = Some v' -> k' = k ->
                      lookup_path (VObj doc1) (split_dot k') = Some v').
      { intros Hget ->.
        rewrite (Hentries k v (or_introl eq_refl)) in Hget.
        injection Hget as <-. exact Hread. }
      destruct Hcase as [[[= -> ->] | Hin] | [Hget Hold]].
      * right. split; [now apply Hentries; left | ].
        apply Hhead; [now apply Hentries; left | reflexivity].
      * now left.
      * right. split; [exact Hget | ].
        destruct (string_dec k' k) as [Heq | Hne]; [now apply Hhead | ].
        rewrite <- Hold. apply Hdiv.
        destruct (flat_map_sound c flat Hplain Hflat k' v' Hget)
          as [Hk' Hv'].
        apply (leaf_paths_diverge (split_dot k) (split_dot k') (VObj c)
                 v v'); auto.
        intros Heq. apply Hne.
        rewrite <- (join_path_split_dot k'), <- (join_path_split_dot k).
        now rewrite Heq.
    + intros q l Hq Hl. destruct (Honly q l Hq Hl) as [Hin | Hold].
      * left. now right.
      * destruct (Horigin q l Hold Hl) as [[-> ->] | Hbefore].
        -- left. left. now rewrite join_path_split_dot.
        -- now right.
    + auto.
    + auto.
Qed.

Lemma leaves_within_empty (whole : value) : leaves_within whole (VObj []).
Proof.
  intros [ | k q] l Hq Hl; simpl in Hq; [ | discriminate].
  injection Hq as <-. discriminate.
Qed.

(** A mapping that is not empty, in a tree without empty mappings,
    leads to a leaf. *)
Lemma nonempty_has_leaf (v : value) :
  forall k x rest,
    v = VObj ((k, x) :: rest) -> no_empty_mapping v ->
    exists p l, p <> [] /\ lookup_path v p = Some l /\ is_mapping l = false.
Proof.
  induction v as [ | b | z | s | id len props _ | props IH] using value_ind;
    intros k x rest Heq; try discriminate.
  injection Heq as ->. intros Hdeep. simpl in Hdeep.
  destruct Hdeep as [[Hx Hxdeep] _].
  destruct (is_mapping x) eqn:Hmap.
  - destruct x as [ | | | | | [ | [k1 x1] more]]; try discriminate;
      [contradiction | ].
    inversion IH as [ | ? ? Hhead _]; subst. simpl in Hhead.
    destruct (Hhead k1 x1 more eq_refl Hxdeep) as (p & l & Hp & Hlook & Hl).
    exists (k :: p), l. split; [discriminate | ]. split; [ | exact Hl].
    cbn [lookup_path prop_get]. now rewrite String.eqb_refl.
  - exists [k], x. split; [discriminate | ]. split; [ | exact Hmap].
    cbn [lookup_path prop_get]. now rewrite String.eqb_refl.
Qed.

Lemma entries_in_forall (same : value -> value -> Prop)
    (other entries : list (string * value)) :
  (forall k x, In (k, x) entries ->
               match prop_get other k with
               | Some y => same x y
               | None => False
               end) ->
  entries_in same other entries.
Proof.
  induction entries as [ | [k x] rest IH]; intros H; simpl; [exact I | ].
  split; [apply (H k x); now left | ].
  apply IH. intros k' x' Hin. apply (H k' x'). now right.
Qed.

(** Every key of a mapping, in a tree with distinct keys and no empty
    mapping, is the first key of a path to a leaf. *)
Lemma key_leads_to_leaf (props : list (string * value)) (k : string)
    (x : value) :
  unique_keys (VObj props) -> no_empty_mapping (VObj props) ->
  In (k, x) props ->
  exists p l,
    lookup_path (VObj props) (k :: p) = Some l /\ is_mapping l = false
    /\ lookup_path x p = Some l
    /\ (is_mapping x = true -> p <> []).
Proof.
  intros [Hnd _] Hdeep Hin. simpl in Hdeep.
  pose proof (In_prop_get props k x Hnd Hin) as Hget.
  destruct (all_values_In _ _ _ _ Hdeep Hin) as [Hx Hxdeep].
  destruct (is_mapping x) eqn:Hmap.
  - destruct x as [ | | | | | [ | [k1 x1] more]]; try discriminate;
      [contradiction | ].
    destruct (nonempty_has_leaf _ k1 x1 more eq_refl Hxdeep)
      as (p & l & Hp & Hlook & Hl).
    exists p, l. cbn [lookup_path]. rewrite Hget. auto.
  - exists [], x. cbn [lookup_path]. rewrite Hget. repeat split; auto.
    discriminate.
Qed.

(** Two trees of mappings with distinct keys and no empty mapping that
    have the same leaves at the same paths are the same tree. *)
Lemma same_tree_ext (a : value) :
  forall b,
    is_mapping a = true -> is_mapping b = true ->
    unique_keys a -> no_empty_mapping a ->
    unique_keys b -> no_empty_mapping b ->
    (forall p l, is_mapping l = false ->
                 lookup_path a p = Some l -> lookup_path b p = Some l) ->
    (forall p l, is_mapping l = false ->
                 lookup_path b p = Some l -> lookup_path a p = Some l) ->
    same_tree a b.
Proof.
  induction a as [ | ? | ? | ? | ? ? ? _ | pa IH] using value_ind;
    intros tree Ha Hb Hua Hea Hub Heb Hab Hba; try discriminate.
  destruct tree as [ | | | | | pb]; try discriminate. clear Ha Hb.
  assert (Hkeys : forall (one other : list (string * value)),
             unique_keys (VObj one) -> no_empty_mapping (VObj one) ->
             (forall p l, is_mapping l = false ->
                          lookup_path (VObj one) p = Some l ->
                          lookup_path (VObj other) p = Some l) ->
             forall k, In k (own_keys one) -> In k (own_keys other)).
  { intros one other Hu He Hsub k Hk. apply in_map_iff in Hk.
    destruct Hk as ([k' x] & <- & Hin).
    destruct (key_leads_to_leaf one k' x Hu He Hin)
      as (p & l & Hlook & Hl & _).
    apply (Hsub _ _ Hl) in Hlook. cbn [lookup_path] in Hlook. simpl.
    destruct (prop_get other k') eqn:Hget; [ | discriminate].
    eapply prop_get_In_keys. exact Hget. }
  cbn [same_tree]. split.
  - rewrite <- (length_map fst pa), <- (length_map fst pb).
    apply Permutation_length. apply NoDup_Permutation.
    + apply Hua.
    + apply Hub.
    + intros k. split; [apply (Hkeys pa pb) | apply (Hkeys pb pa)]; auto.
  - apply entries_in_forall. intros k x Hin.
    destruct (key_leads_to_leaf pa k x Hua Hea Hin)
      as (p & l & Hlook & Hl & Hbelow & Hp).
    pose proof (Hab _ _ Hl Hlook) as Hlook'.
    cbn [lookup_path] in Hlook'.
    destruct (prop_get pb k) as [y | ] eqn:Hget; [ | discriminate].
    pose proof (In_prop_get pa k x (proj1 Hua) Hin) as Hgeta.
    destruct (is_mapping x) eqn:Hmap.
    + rewrite Forall_forall in IH.
      apply (IH (k, x) Hin y); cbn [snd].
      * exact Hmap.
      * destruct p as [ | k1 p1]; [now destruct (Hp eq_refl) | ].
        destruct y; try discriminate. reflexivity.
      * destruct Hua as [_ Hdeep]. apply (all_values_In _ _ _ _ Hdeep Hin).
      * simpl in Hea. apply (all_values_In _ _ _ _ Hea Hin).
      * destruct Hub as [_ Hdeep]. apply prop_get_Some_In in Hget.
        apply (all_values_In _ _ _ _ Hdeep Hget).
      * simpl in Heb. apply prop_get_Some_In in Hget.
        apply (all_values_In _ _ _ _ Heb Hget).
      * intros p' l' Hl' Hx. specialize (Hab (k :: p') l' Hl').
        cbn [lookup_path] in Hab. rewrite Hgeta, Hget in Hab. auto.
      * intros p' l' Hl' Hy. specialize (Hba (k :: p') l' Hl').
        cbn [lookup_path] in Hba. rewrite Hgeta, Hget in Hba. auto.
    + specialize (Hab [k] x Hmap). cbn [lookup_path] in Hab.
      rewrite Hgeta, Hget in Hab. specialize (Hab eq_refl).
      injection Hab as ->. destruct x; try reflexivity. discriminate.
Qed.

(** C2, as stated, fails, in three ways. A nested mapping that is
    empty has no leaf, so the flat map does not record it and the round
    trip loses it. A key that has a dot comes back as a path of two
    keys. A key that is empty adds nothing to the prefix, so the keys
    below it come back one level up. *)
Lemma roundtrip_is_not_identity :
  (flattenObject [("a", VObj [])] "" = Returns []
   /\ unflattenObject [] = Returns []
   /\ ~ same_tree (VObj [("a", VObj [])]) (VObj []))
  /\ (flattenObject [("a.b", VStr "x")] "" = Returns [("a.b", VStr "x")]
      /\ unflattenObject [("a.b", VStr "x")]
         = Returns [("a", VObj [("b", VStr "x")])]
      /\ ~ same_tree (VObj [("a.b", VStr "x")])
            (VObj [("a", VObj [("b", VStr "x")])]))
  /\ (flattenObject [("", VObj [("k", VStr "x")])] ""
      = Returns [("k", VStr "x")]
      /\ unflattenObject [("k", VStr "x")] = Returns [("k", VStr "x")]
      /\ ~ same_tree (VObj [("", VObj [("k", VStr "x")])])
            (VObj [("k", VStr "x")])).
Proof.
  repeat split; try reflexivity.
  - simpl. intros [H _]. discriminate.
  - simpl. intros [_ [H _]]. exact H.
  - simpl. intros [_ [H _]]. exact H.
Qed.

(** C2, amended. For a document whose mappings (arrays being opaque
    leaves, whatever they contain) have pairwise distinct keys that are
    not empty, contain no dot and are no member name of
    [Object.prototype], and none of whose nested mappings is empty:
    flattening returns a flat map, unflattening that flat map returns a
    document, and that document has, mapping by mapping, the keys of the
    original with the same leaves under them. *)
Theorem unflatten_flatten :
  forall d : obj,
    plain_keys (VObj d) -> ordinary_keys (VObj d) ->
    no_empty_mapping (VObj d) ->
    exists flat rebuilt,
      flattenObject d "" = Returns flat
      /\ unflattenObject flat = Returns rebuilt
      /\ same_tree (VObj d) (VObj rebuilt).
Proof.
  intros d Hplain Hord Hnoempty.
  destruct (flat_map_complete d Hplain (ordinary_keys_top d Hord))
    as (flat & Hflat & Hcomplete).
  destruct (sets_within d flat Hplain Hord Hflat flat
              (fun k v H => In_prop_get flat k v
                              (flattenValue_NoDup _ _ _ Hflat) H)
              [] (leaves_within_empty _))
    as (rebuilt & Hfold & Hwithin & Hreads & _ & Hunique & Hne).
  exists flat, rebuilt. split; [exact Hflat | ]. split; [exact Hfold | ].
  apply same_tree_ext; try reflexivity.
  - now apply plain_keys_unique.
  - exact Hnoempty.
  - apply Hunique. simpl. split; [constructor | exact I].
  - apply Hne. exact I.
  - intros p l Hl Hlook.
    destruct p as [ | k rest]; [injection Hlook as <-; discriminate | ].
    rewrite <- (split_dot_join_path (k :: rest)).
    + apply Hreads. left. apply prop_get_Some_In. apply Hcomplete.
      * rewrite split_dot_join_path; [exact Hlook | discriminate | ].
        eapply (leaves_plain (VObj d)); [exact Hplain | ].
        apply lookup_path_in_leaves; [discriminate | eassumption ..].
      * exact Hl.
    + discriminate.
    + eapply (leaves_plain (VObj d)); [exact Hplain | ].
      apply lookup_path_in_leaves; [discriminate | eassumption ..].
  - intros p l Hl Hlook. now apply Hwithin.
Qed.

Lemma unflatten_flatten_witness :
  exists flat rebuilt,
    flattenObject
      [("title", VStr "Home");
       ("2", VObj [("open", VStr "Open"); ("items", VArr 0 [VNum 1])]);
       ("1", VNull)] "" = Returns flat
    /\ unflattenObject flat = Returns rebuilt
    /\ same_tree
         (VObj [("title", VStr "Home");
                ("2", VObj [("open", VStr "Open");
                            ("items", VArr 0 [VNum 1])]);
                ("1", VNull)])
         (VObj rebuilt).
Proof.
  apply unflatten_flatten.
  - simpl. repeat split; try reflexivity;
      repeat (constructor; [simpl; intuition discriminate | ]);
      constructor.
  - simpl. repeat split; reflexivity.
  - simpl. repeat split; discriminate.
Defined.
(** ** Deleting a path *)

Lemma delete_path_cons (v : value) (k k' : string) (rest : list string) :
  delete_path v (k :: k' :: rest)
  = let* read := js_get v k in
    match read with
    | Some child =>
        if truthy child then
          let* child' := delete_path child (k' :: rest) in
          Returns (js_replace v k child')
        else Returns v
    | None => Returns v
    end.
Proof. reflexivity. Qed.

Lemma js_get_object (o : obj) (k : string) (read : option value) :
  js_get (VObj o) k = Returns read -> prop_get o k = read.
Proof.
  simpl. destruct (prop_get o k) as [x | ]; [now intros [= <-] | ].
  destruct (inherited [] k); [discriminate | now intros [= <-]].
Qed.

Lemma leaf_at_cons (o : obj) (k : string) (rest : list string) :
  leaf_at (VObj o) (k :: rest)
  = match prop_get o k with
    | Some x => leaf_at x rest
    | None => false
    end.
Proof. unfold leaf_at. simpl. now destruct (prop_get o k). Qed.

Lemma leaf_at_not_mapping (v : value) (k : string) (rest : list string) :
  is_mapping v = false -> leaf_at v (k :: rest) = false.
Proof. now destruct v. Qed.

Lemma leaf_at_nil (v : value) : leaf_at v [] = negb (is_mapping v).
Proof. reflexivity. Qed.

Lemma js_replace_not_mapping (v child : value) (k : string) :
  is_mapping v = false -> is_mapping (js_replace v k child) = false.
Proof.
  destruct v; simpl; try reflexivity; [ | discriminate].
  intros _. destruct (String.eqb k "length"); [reflexivity | ].
  now destruct (prop_get props k).
Qed.

Lemma js_delete_not_mapping (v v' : value) (k : string) :
  is_mapping v = false -> js_delete v k = Returns v' ->
  is_mapping v' = false.
Proof.
  destruct v as [ | b | z | s | id len props | o]; simpl; try discriminate;
    intros _; try (now intros [= <-]).
  - destruct (String.eqb k "length"); [discriminate | ].
    destruct (prop_get _ k); [discriminate | now intros [= <-]].
  - destruct (String.eqb k "length"); [discriminate | now intros [= <-]].
Qed.

Lemma falsy_not_mapping (v : value) : truthy v = false -> is_mapping v = false.
Proof. now destruct v. Qed.

(** Deleting below a value that is no mapping leaves a value that is no
    mapping. *)
Lemma delete_path_not_mapping (keys : list string) (v v' : value) :
  is_mapping v = false -> delete_path v keys = Returns v' ->
  is_mapping v' = false.
Proof.
  intros Hv. destruct keys as [ | k [ | k' rest]].
  - now intros [= <-].
  - now apply js_delete_not_mapping.
  - rewrite delete_path_cons. intros Hdel.
    apply and_then_returns in Hdel. destruct Hdel as (read & _ & Hdel).
    destruct read as [child | ]; [ | now injection Hdel as <-].
    destruct (truthy child); [ | now injection Hdel as <-].
    apply and_then_returns in Hdel. destruct Hdel as (child' & _ & [= <-]).
    now apply js_replace_not_mapping.
Qed.

(** Once a path has been deleted, it leads to no leaf. *)
Lemma delete_path_removes (keys : list string) :
  forall v v',
    keys <> [] -> delete_path v keys = Returns v' -> leaf_at v' keys = false.
Proof.
  induction keys as [ | k rest IH]; intros v v' Hne Hdel; [contradiction | ].
  destruct (is_mapping v) eqn:Hmap.
  2: { apply leaf_at_not_mapping.
       eapply delete_path_not_mapping; eassumption. }
  destruct v as [ | | | | | o]; try discriminate.
  destruct rest as [ | k' rest'].
  - simpl in Hdel. injection Hdel as <-. rewrite leaf_at_cons.
    now rewrite prop_get_delete_eq.
  - rewrite delete_path_cons in Hdel.
    apply and_then_returns in Hdel. destruct Hdel as (read & Hget & Hdel).
    apply js_get_object in Hget.
    destruct read as [child | ].
    + destruct (truthy child) eqn:Htruthy.
      * apply and_then_returns in Hdel.
        destruct Hdel as (child' & Hchild & [= <-]).
        cbn [js_replace]. rewrite leaf_at_cons, prop_get_set_eq.
        eapply IH; [discriminate | exact Hchild].
      * injection Hdel as <-. rewrite leaf_at_cons, Hget.
        apply leaf_at_not_mapping. now apply falsy_not_mapping.
    + injection Hdel as <-. now rewrite leaf_at_cons, Hget.
Qed.

(** Deleting a path creates no leaf. *)
Lemma delete_path_no_new_leaf (keys : list string) :
  forall v v' path,
    delete_path v keys = Returns v' ->
    leaf_at v' path = true -> leaf_at v path = true.
Proof.
  induction keys as [ | k rest IH]; intros v v' path Hdel Hleaf.
  - injection Hdel as <-. exact Hleaf.
  - destruct (is_mapping v) eqn:Hmap.
    2: { pose proof (delete_path_not_mapping _ _ _ Hmap Hdel) as Hmap'.
         destruct path as [ | k0 path'].
         - rewrite leaf_at_nil. now rewrite Hmap.
         - now rewrite leaf_at_not_mapping in Hleaf. }
    destruct v as [ | | | | | o]; try discriminate.
    destruct rest as [ | k' rest'].
    + simpl in Hdel. injection Hdel as <-.
      destruct path as [ | k0 path']; [discriminate | ].
      rewrite leaf_at_cons in *.
      destruct (String.eqb_spec k k0) as [<- | Hne].
      * now rewrite prop_get_delete_eq in Hleaf.
      * now rewrite prop_get_delete_ne in Hleaf.
    + rewrite delete_path_cons in Hdel.
      apply and_then_returns in Hdel. destruct Hdel as (read & Hget & Hdel).
      apply js_get_object in Hget.
      destruct read as [child | ]; [ | now injection Hdel as <-].
      destruct (truthy child) eqn:Htruthy; [ | now injection Hdel as <-].
      apply and_then_returns in Hdel.
      destruct Hdel as (child' & Hchild & [= <-]).
      cbn [js_replace] in Hleaf.
      destruct path as [ | k0 path']; [discriminate | ].
      rewrite leaf_at_cons in *.
      destruct (String.eqb_spec k k0) as [<- | Hne].
      * rewrite prop_get_set_eq in Hleaf. rewrite Hget.
        eapply IH; eassumption.
      * now rewrite prop_get_set_ne in Hleaf.
Qed.

Lemma deleteNestedKey_delete_path (o o' : obj) (key : string) :
  deleteNestedKey o key = Returns o' ->
  delete_path (VObj o) (split_dot key) = Returns (VObj o').
Proof.
  unfold deleteNestedKey. intros Hdel.
  apply and_then_returns in Hdel. destruct Hdel as (v' & Hpath & Hdel).
  destruct v'; try discriminate. now injection Hdel as <-.
Qed.

(** After a run of deletions none of the deleted paths leads to a
    leaf. *)
Lemma deletions_remove (deleted : list string) :
  forall doc doc',
    fold_throwing deleteNestedKey deleted doc = Returns doc' ->
    forall key, In key deleted -> leaf_at (VObj doc') (split_dot key) = false.
Proof.
  induction deleted as [ | key0 rest IH]; intros doc doc' Hfold key Hin;
    [contradiction | ].
  rewrite fold_throwing_cons in Hfold.
  apply and_then_returns in Hfold. destruct Hfold as (doc1 & Hstep & Hfold).
  destruct Hin as [<- | Hin]; [ | eapply IH; eassumption].
  apply deleteNestedKey_delete_path in Hstep.
  apply delete_path_removes in Hstep; [ | apply split_dot_nonempty].
  revert Hfold.
  apply (fold_throwing_invariant deleteNestedKey
           (fun d => leaf_at (VObj d) (split_dot key0) = false));
    [ | exact Hstep].
  intros d key1 d' _ Hd Hstep'. apply deleteNestedKey_delete_path in Hstep'.
  destruct (leaf_at (VObj d') (split_dot key0)) eqn:Hleaf; [ | reflexivity].
  rewrite (delete_path_no_new_leaf _ _ _ _ Hstep' Hleaf) in Hd.
  discriminate.
Qed.

(** In a document with plain keys, a key of the flat map, once split,
    leads to a leaf. *)
Lemma flat_key_leaf_at (doc flat : obj) (key : string) :
  plain_keys (VObj doc) -> flattenObject doc "" = Returns flat ->
  In key (own_keys flat) -> leaf_at (VObj doc) (split_dot key) = true.
Proof.
  intros Hplain Hflat Hin. apply in_map_iff in Hin.
  destruct Hin as ([key' v] & <- & Hin). cbn [fst].
  apply In_prop_get in Hin; [ | eapply flattenValue_NoDup; exact Hflat].
  destruct (flat_map_sound doc flat Hplain Hflat key' v Hin) as [Hlook Hv].
  unfold leaf_at. now rewrite Hlook, Hv.
Qed.

(** ** Deleting what is not there *)

Lemma js_replace_same (v child : value) (k : string) :
  js_get v k = Returns (Some child) -> js_replace v k child = v.
Proof.
  destruct v as [ | b | z | s | id len props | o]; simpl; try reflexivity.
  - destruct (String.eqb k "length"); [reflexivity | ].
    destruct (prop_get props k) as [x | ] eqn:Hget; [ | reflexivity].
    intros [= ->]. now rewrite prop_set_same.
  - intros H. apply js_get_object in H. now rewrite prop_set_same.
Qed.

Lemma js_delete_absent (v : value) (k : string) :
  v <> VNull -> js_get v k = Returns None -> js_delete v k = Returns v.
Proof.
  destruct v as [ | b | z | s | id len props | o]; simpl; intros Hv;
    try reflexivity; [contradiction | | | ].
  - destruct (String.eqb k "length"); [discriminate | ].
    destruct (prop_get _ k); [discriminate | reflexivity].
  - destruct (String.eqb k "length"); [discriminate | ].
    destruct (prop_get props k) eqn:Hget; [discriminate | ].
    intros _. now rewrite prop_delete_absent.
  - destruct (prop_get o k) eqn:Hget; [discriminate | ].
    intros _. now rewrite prop_delete_absent.
Qed.

Lemma truthy_not_null (v : value) : truthy v = true -> v <> VNull.
Proof. intros H ->. discriminate. Qed.

(** Deleting a path that addresses nothing changes nothing and does not
    throw. *)
Lemma delete_path_absent (keys : list string) :
  forall v,
    v <> VNull -> read_path v keys = Returns None ->
    delete_path v keys = Returns v.
Proof.
  induction keys as [ | k rest IH]; intros v Hv Hread; [discriminate | ].
  assert (Hstep : exists read,
             js_get v k = Returns read
             /\ match read with
                | Some child => read_path child rest = Returns None
                | None => True
                end).
  { cbn [read_path] in Hread. destruct v; try contradiction;
      apply and_then_returns in Hread;
      destruct Hread as (read & Hget & Hread); exists read;
      (split; [exact Hget | now destruct read]). }
  destruct Hstep as (read & Hget & Hbelow).
  destruct rest as [ | k' rest'].
  - cbn [delete_path]. destruct read as [child | ]; [discriminate | ].
    now apply js_delete_absent.
  - rewrite delete_path_cons, Hget. cbn [and_then].
    destruct read as [child | ]; [ | reflexivity].
    destruct (truthy child) eqn:Hchild; [ | reflexivity].
    rewrite (IH child (truthy_not_null _ Hchild) Hbelow). cbn [and_then].
    now rewrite js_replace_same.
Qed.

(** ** Deletions mirrored into every language *)

Lemma fold_throwing_establishes {S : Type}
    (body : S -> string -> completion S)
    (Inv : S -> Prop) (x0 : string) (xs : list string) :
  (forall s s', body s x0 = Returns s' -> Inv s') ->
  (forall s x s', x <> x0 -> Inv s -> body s x = Returns s' -> Inv s') ->
  In x0 xs ->
  forall init final, fold_throwing body xs init = Returns final -> Inv final.
Proof.
  intros Hestablish Hpreserve.
  assert (Hstep : forall s x s', Inv s -> body s x = Returns s' -> Inv s').
  { intros s x s' Hs Hbody. destruct (String.eqb_spec x x0) as [-> | Hne].
    - eapply Hestablish. exact Hbody.
    - eapply Hpreserve; eassumption. }
  induction xs as [ | x rest IH]; intros Hin init final; [contradiction | ].
  rewrite fold_throwing_cons. intros Hrun.
  apply and_then_returns in Hrun. destruct Hrun as (s & Hbody & Hrun).
  destruct (String.eqb_spec x x0) as [-> | Hne].
  - revert Hrun. apply (fold_throwing_invariant body Inv rest).
    + intros s1 y s2 _. apply Hstep.
    + eapply Hestablish. exact Hbody.
  - destruct Hin as [-> | Hin]; [contradiction | ].
    eapply IH; eassumption.
Qed.

Lemma delete_in_file_removes (changes : Changes) (merged merged' : files)
    (fileName : string) (deleted : list string) :
  prop_get (deletedKeys changes) fileName = Some deleted ->
  delete_in_file changes merged fileName = Returns merged' ->
  forall doc,
    prop_get merged' fileName = Some doc ->
    forall key, In key deleted -> leaf_at (VObj doc) (split_dot key) = false.
Proof.
  intros Hdeleted. unfold delete_in_file. rewrite Hdeleted.
  destruct (prop_get merged fileName) as [doc0 | ] eqn:Hdoc0.
  - intros Hrun. apply and_then_returns in Hrun.
    destruct Hrun as (doc1 & Hfold & [= <-]).
    intros doc. rewrite prop_get_set_eq. intros [= <-].
    eapply deletions_remove. exact Hfold.
  - intros [= <-] doc. congruence.
Qed.

Lemma merge_language_removes (newTranslations : translations)
    (changes : Changes) (merged merged' : translations)
    (language fileName : string) (deleted : list string) :
  In fileName (modifiedFiles changes) ->
  prop_get (deletedKeys changes) fileName = Some deleted ->
  merge_language newTranslations changes merged language = Returns merged' ->
  forall doc,
    document_of merged' language fileName = Some doc ->
    forall key, In key deleted -> leaf_at (VObj doc) (split_dot key) = false.
Proof.
  intros Hmod Hdeleted Hrun.
  apply merge_language_returns in Hrun.
  destruct Hrun as (added & final & _ & Hfinal & ->).
  intros doc. unfold document_of. rewrite prop_get_set_eq.
  revert doc.
  apply (fold_throwing_establishes (delete_in_file changes)
           (fun fs => forall doc, prop_get fs fileName = Some doc ->
                      forall key, In key deleted ->
                                  leaf_at (VObj doc) (split_dot key) = false)
           fileName (modifiedFiles changes)) with (3 := Hmod) (4 := Hfinal).
  - intros fs fs'. now apply delete_in_file_removes.
  - intros fs g fs' Hne Hfs Hstep doc.
    rewrite (delete_in_file_other changes fs fs' g fileName Hne Hstep).
    apply Hfs.
Qed.

Lemma merge_language_other (newTranslations : translations)
    (changes : Changes) (merged merged' : translations)
    (language language' fileName : string) :
  language <> language' ->
  merge_language newTranslations changes merged language = Returns merged' ->
  document_of merged' language' fileName
  = document_of merged language' fileName.
Proof.
  intros Hne Hrun. apply merge_language_returns in Hrun.
  destruct Hrun as (added & final & _ & _ & ->).
  unfold document_of. now rewrite prop_get_set_ne.
Qed.

(** After the merge, no deleted path of a modified file leads to a leaf
    of the document of that file, in any target language. *)
Lemma mergeTranslations_removes (next : nat)
    (existing newTranslations merged : translations) (changes : Changes)
    (language fileName : string) (deleted : list string) :
  In language targetLanguages ->
  In fileName (modifiedFiles changes) ->
  prop_get (deletedKeys changes) fileName = Some deleted ->
  mergeTranslations next existing newTranslations changes = Returns merged ->
  forall doc,
    document_of merged language fileName = Some doc ->
    forall key, In key deleted -> leaf_at (VObj doc) (split_dot key) = false.
Proof.
  intros Hlang Hmod Hdeleted Hmerge. unfold mergeTranslations in Hmerge.
  apply (fold_throwing_establishes (merge_language newTranslations changes)
           (fun m => forall doc, document_of m language fileName = Some doc ->
                     forall key, In key deleted ->
                                 leaf_at (VObj doc) (split_dot key) = false)
           language targetLanguages) with (3 := Hlang) (4 := Hmerge).
  - intros m m'. now apply merge_language_removes.
  - intros m l m' Hne Hm Hstep doc.
    rewrite (merge_language_other _ _ _ _ l language fileName Hne Hstep).
    apply Hm.
Qed.

(** A file with recorded deletions is a modified file. *)
Lemma detectChanges_deleted_modified (previousFiles currentFiles : files)
    (changes : Changes) (fileName : string) :
  detectChanges previousFiles currentFiles = Returns changes ->
  In fileName (own_keys (deletedKeys changes)) ->
  In fileName (modifiedFiles changes).
Proof.
  unfold detectChanges. intros Hrun. revert fileName. revert Hrun.
  apply (fold_throwing_invariant (detect_existing_file previousFiles)
           (fun ch => forall f, In f (own_keys (deletedKeys ch)) ->
                                In f (modifiedFiles ch))).
  - intros ch [g content] ch' _ Hch. unfold detect_existing_file.
    destruct (prop_get previousFiles g) as [previous | ];
      [ | now intros [= <-]].
    intros Hrun. apply and_then_returns in Hrun.
    destruct Hrun as (fileChanges & _ & Hrun).
    destruct (fc_hasChanges fileChanges); injection Hrun as <-;
      [ | exact Hch].
    intros f. simpl. rewrite In_own_keys_set, in_app_iff. simpl.
    intros [-> | Hin]; auto.
  - apply (fold_left_invariant
             (fun ch => forall f, In f (own_keys (deletedKeys ch)) ->
                                  In f (modifiedFiles ch))).
    + intros ch g _ Hch f. unfold detect_new_file.
      destruct (prop_get previousFiles g); [apply Hch | ]. simpl. apply Hch.
    + simpl. tauto.
Qed.

(** C4, as stated, fails, in both its parts. A key of the source that
    itself contains a dot is recorded as deleted under its own name, but
    the deletion splits that name and finds nothing, so the translation
    stays. And a path that no document has may lead into a leaf: into a
    string, whose characters cannot be deleted, so that the deletion
    throws; or into an array, where the deletion leaves a hole. *)
Lemma deletion_misses_dotted_keys_and_reaches_into_leaves :
  (exists changes merged doc flat,
      detectChanges Scenario.previous_dotted Scenario.current_dotted
      = Returns changes
      /\ prop_get (deletedKeys changes) "a.json" = Some ["button.save"]
      /\ mergeTranslations 0 Scenario.existing_dotted [] changes
         = Returns merged
      /\ document_of merged "es" "a.json" = Some doc
      /\ flattenObject doc "" = Returns flat
      /\ In "button.save" (own_keys flat)
      /\ prop_get doc "button.save" = Some (VStr "Guardar"))
  /\ (flattenObject [("title", VStr "Inicio")] ""
      = Returns [("title", VStr "Inicio")]
      /\ deleteNestedKey [("title", VStr "Inicio")] "title.0"
         = Throws "TypeError")
  /\ (flattenObject [("tags", VArr 1 [VStr "a"; VStr "b"])] ""
      = Returns [("tags", VArr 1 [VStr "a"; VStr "b"])]
      /\ deleteNestedKey [("tags", VArr 1 [VStr "a"; VStr "b"])] "tags.0"
         = Returns [("tags", VArray 1 2 [("1", VStr "b")])]).
Proof.
  split; [ | split; split; reflexivity].
  eexists. eexists. eexists. eexists.
  split; [vm_compute; reflexivity | ].
  split; [reflexivity | ].
  split; [vm_compute; reflexivity | ].
  split; [reflexivity | ].
  split; [vm_compute; reflexivity | ].
  split; [simpl; tauto | reflexivity].
Qed.

(** C4, amended. For every change record and every path recorded in its
    deleted keys, after the merge has returned the path, split at its
    dots, leads to no leaf of the merged document of that file, in every
    target language, and so is no key of the flat map of a merged
    document that has plain keys, that is non-empty keys without a dot;
    and deleting a path that addresses nothing in a document, so that
    reading it yields [undefined], returns and leaves the document as it
    is. *)
Theorem deleted_paths_are_removed :
  (forall (next : nat) (previousFiles currentFiles : files)
          (changes : Changes)
          (existing newTranslations merged : translations)
          (language fileName path : string) (deleted : list string)
          (doc : obj),
      detectChanges previousFiles currentFiles = Returns changes ->
      mergeTranslations next existing newTranslations changes
      = Returns merged ->
      In language targetLanguages ->
      prop_get (deletedKeys changes) fileName = Some deleted ->
      In path deleted ->
      document_of merged language fileName = Some doc ->
      leaf_at (VObj doc) (split_dot path) = false
      /\ forall flat,
          plain_keys (VObj doc) -> flattenObject doc "" = Returns flat ->
          ~ In path (own_keys flat))
  /\ (forall (doc : obj) (path : string),
        read_path (VObj doc) (split_dot path) = Returns None ->
        deleteNestedKey doc path = Returns doc).
Proof.
  split.
  - intros next previousFiles currentFiles changes existing newTranslations
      merged language fileName path deleted doc Hchanges Hmerge Hlang
      Hdeleted Hpath Hdoc.
    assert (Hgone : leaf_at (VObj doc) (split_dot path) = false).
    { apply (mergeTranslations_removes next existing newTranslations merged
               changes language fileName deleted Hlang); try assumption.
      eapply detectChanges_deleted_modified; [exact Hchanges | ].
      eapply prop_get_In_keys. exact Hdeleted. }
    split; [exact Hgone | ].
    intros flat Hplain Hflat Hin.
    apply (flat_key_leaf_at doc flat path Hplain Hflat) in Hin.
    congruence.
  - intros doc path Hread. unfold deleteNestedKey.
    rewrite delete_path_absent; [reflexivity | discriminate | exact Hread].
Qed.

Lemma deleted_paths_are_removed_witness :
  leaf_at (VObj [("greeting", VStr "Hola")]) (split_dot "farewell") = false
  /\ deleteNestedKey [("greeting", VStr "Hola")] "farewell"
     = Returns [("greeting", VStr "Hola")].
Proof.
  split.
  - refine
      (proj1
         (proj1 deleted_paths_are_removed 0
            Scenario.previous_farewell Scenario.current_farewell
            (mkChanges true [] ["a.json"] [("a.json", [])]
               [("a.json", [])] [("a.json", ["farewell"])])
            [("es", [("a.json", [("greeting", VStr "Hola");
                                 ("farewell", VStr "Adios")])])]
            []
            (("es", [("a.json", [("greeting", VStr "Hola")])])
               :: map (fun language => (language, []))
                    ["de"; "fr"; "fr-ca"; "ja"; "ko"; "nl"; "pt"; "zh-cn";
                     "zh-hk"; "it"])
            "es" "a.json" "farewell" ["farewell"]
            [("greeting", VStr "Hola")] _ _ _ _ _ _)).
    + reflexivity.
    + vm_compute. reflexivity.
    + simpl. tauto.
    + reflexivity.
    + simpl. tauto.
    + reflexivity.
  - apply (proj2 deleted_paths_are_removed). reflexivity.
Defined.
(** ** Writes of the merge in the store *)

Lemma replace_nth_length {A : Type} (l : list A) (i : nat) (x : A) :
  List.length (replace_nth l i x) = List.length l.
Proof.
  revert i. induction l as [ | y rest IH]; intros [ | i]; simpl; auto.
Qed.

Lemma nth_error_replace_nth {A : Type} (l : list A) (i j : nat) (x : A) :
  i < List.length l ->
  nth_error (replace_nth l i x) j
  = if Nat.eqb j i then Some x else nth_error l j.
Proof.
  revert i j. induction l as [ | y rest IH]; intros i j Hlt; simpl in Hlt;
    [lia | ].
  destruct i as [ | i]; destruct j as [ | j]; simpl; try reflexivity.
  apply IH. lia.
Qed.

Lemma In_prop_set {A : Type} (o : jsobject A) (k k' : string) (v v' : A) :
  In (k', v') (prop_set o k v) -> (k', v') = (k, v) \/ In (k', v') o.
Proof.
  induction o as [ | [k0 v0] rest IH]; simpl.
  - intros [H | []]. left. congruence.
  - destruct (String.eqb_spec k0 k) as [-> | Hne]; simpl.
    + intros [H | H]; [left; congruence | right; now right].
    + intros [H | H]; [right; now left | ].
      destruct (IH H); [now left | right; now right].
Qed.

Lemma In_prop_delete {A : Type} (o : jsobject A) (k k' : string) (v' : A) :
  In (k', v') (prop_delete o k) -> In (k', v') o.
Proof.
  induction o as [ | [k0 v0] rest IH]; simpl; [tauto | ].
  destruct (String.eqb k0 k); simpl; intuition.
Qed.

Section Frame.
Import Heap.
Context (h0 : list hobject) (W : loc -> Prop).
Hypothesis W_fresh : forall l, List.length h0 <= l -> W l.

Local Abbreviation ok_val := (ok_val W).
Local Abbreviation ok_opt := (ok_opt W).
Local Abbreviation ok_fields := (ok_fields W).
Local Abbreviation inv := (inv h0 W).
Local Abbreviation safe := (safe h0 W).

Lemma safe_ret {A : Type} (a : A) (post : A -> Prop) :
  post a -> safe (ret a) post.
Proof. intros Hpost h a' h' Hinv [= <- <-]. auto. Qed.

Lemma safe_throw {A : Type} (post : A -> Prop) : safe throw post.
Proof. intros h a h' _ H. discriminate. Qed.

Lemma safe_bind {A B : Type} (c : M A) (k : A -> M B) (P : A -> Prop)
    (Q : B -> Prop) :
  safe c P -> (forall a, P a -> safe (k a) Q) -> safe (bind c k) Q.
Proof.
  intros Hc Hk h b h' Hinv. unfold bind.
  destruct (c h) as [[a h1] | ] eqn:Hrun; [ | discriminate].
  destruct (Hc h a h1 Hinv Hrun) as [Hinv1 Hpost]. now apply Hk.
Qed.

Lemma safe_weaken {A : Type} (c : M A) (P Q : A -> Prop) :
  safe c P -> (forall a, P a -> Q a) -> safe c Q.
Proof.
  intros Hc HPQ h a h' Hinv Hrun.
  destruct (Hc h a h' Hinv Hrun). auto.
Qed.

Lemma safe_alloc (o : hobject) :
  ok_fields (fields o) -> safe (alloc o) W.
Proof.
  intros Hok h l h' [Hgrows Hframe Hclosed] [= <- <-]. split.
  - constructor.
    + rewrite length_app. lia.
    + intros l Hlt Hout. rewrite nth_error_app1 by lia. now apply Hframe.
    + intros l o' HW Hget.
      destruct (Nat.lt_ge_cases l (List.length h)) as [Hlt | Hge].
      * rewrite nth_error_app1 in Hget by exact Hlt. eapply Hclosed; eassumption.
      * rewrite nth_error_app2 in Hget by exact Hge.
        destruct (l - List.length h) as [ | n]; simpl in Hget.
        -- now injection Hget as <-.
        -- destruct n; discriminate.
  - apply W_fresh. exact Hgrows.
Qed.

Lemma safe_load_any (l : loc) : safe (load l) (fun _ => True).
Proof.
  intros h o h' Hinv. unfold load.
  destruct (nth_error h l); [ | discriminate]. intros [= <- <-]. auto.
Qed.

Lemma safe_load (l : loc) :
  W l -> safe (load l) (fun o => ok_fields (fields o)).
Proof.
  intros HW h o h' Hinv. unfold load.
  destruct (nth_error h l) as [o' | ] eqn:Hget; [ | discriminate].
  intros [= <- <-]. split; [exact Hinv | ].
  eapply (inv_closed _ _ _ Hinv); eassumption.
Qed.

Lemma safe_store (l : loc) (o : hobject) :
  W l -> ok_fields (fields o) -> safe (store l o) (fun _ => True).
Proof.
  intros HW Hok h u h' [Hgrows Hframe Hclosed]. unfold store.
  destruct (Nat.ltb_spec l (List.length h)) as [Hlt | Hge]; [ | discriminate].
  intros [= <- <-]. split; [ | exact I]. constructor.
  - now rewrite replace_nth_length.
  - intros l' Hlt' Hout. rewrite nth_error_replace_nth by exact Hlt.
    destruct (Nat.eqb_spec l' l) as [-> | Hne]; [contradiction | ].
    now apply Hframe.
  - intros l' o' HW' Hget. rewrite nth_error_replace_nth in Hget by exact Hlt.
    destruct (Nat.eqb_spec l' l) as [-> | Hne].
    + now injection Hget as <-.
    + eapply Hclosed; eassumption.
Qed.

Lemma safe_for_each {X : Type} (xs : list X) (body : X -> M unit) :
  (forall x, In x xs -> safe (body x) (fun _ => True)) ->
  safe (for_each xs body) (fun _ => True).
Proof.
  induction xs as [ | x rest IH]; intros Hbody; simpl.
  - now apply safe_ret.
  - eapply safe_bind; [apply Hbody; now left | ].
    intros _ _. apply IH. intros y Hy. apply Hbody. now right.
Qed.

Lemma safe_map_m {X Y : Type} (f : X -> M Y) (P : Y -> Prop) (xs : list X) :
  (forall x, In x xs -> safe (f x) P) -> safe (map_m f xs) (Forall P).
Proof.
  induction xs as [ | x rest IH]; intros Hf; simpl.
  - apply safe_ret. constructor.
  - eapply safe_bind; [apply Hf; now left | ]. intros y Hy.
    eapply safe_bind; [apply IH; intros z Hz; apply Hf; now right | ].
    intros ys Hys. apply safe_ret. now constructor.
Qed.

Lemma ok_fields_chars (i : nat) (s : string) : ok_fields (chars i s).
Proof.
  revert i. induction s as [ | c rest IH]; intros i k v; simpl; [tauto | ].
  intros [[= <- <-] | Hin]; [exact I | eapply IH; exact Hin].
Qed.

Lemma ok_fields_get (fs : jsobject hval) (k : string) :
  ok_fields fs -> ok_opt (prop_get fs k).
Proof.
  intros Hok. destruct (prop_get fs k) as [v | ] eqn:Hget; [ | exact I].
  apply prop_get_Some_In in Hget. eapply Hok. exact Hget.
Qed.

Lemma ok_fields_set (fs : jsobject hval) (k : string) (x : hval) :
  ok_fields fs -> ok_val x -> ok_fields (prop_set fs k x).
Proof.
  intros Hok Hx k' v' Hin. apply In_prop_set in Hin.
  destruct Hin as [[= -> ->] | Hin]; [exact Hx | eapply Hok; exact Hin].
Qed.

Lemma ok_fields_delete (fs : jsobject hval) (k : string) :
  ok_fields fs -> ok_fields (prop_delete fs k).
Proof.
  intros Hok k' v' Hin. apply In_prop_delete in Hin. eapply Hok. exact Hin.
Qed.

Lemma safe_get_prop (v : hval) (k : string) :
  ok_val v -> safe (get_prop v k) ok_opt.
Proof.
  intros Hv. destruct v as [ | b | z | s | l]; simpl.
  - apply safe_throw.
  - now apply safe_ret.
  - now apply safe_ret.
  - apply safe_ret. destruct (String.eqb k "length"); [exact I | ].
    apply ok_fields_get. apply ok_fields_chars.
  - eapply safe_bind; [apply safe_load; exact Hv | ]. intros o Ho.
    apply safe_ret. destruct (array_length o) as [n | ].
    + destruct (String.eqb k "length"); [exact I | now apply ok_fields_get].
    + now apply ok_fields_get.
Qed.

Lemma safe_set_prop (v : hval) (k : string) (x : hval) :
  ok_val v -> ok_val x -> safe (set_prop v k x) (fun _ => True).
Proof.
  intros Hv Hx. destruct v as [ | b | z | s | l]; simpl;
    try apply safe_throw.
  eapply safe_bind; [apply safe_load; exact Hv | ]. intros o Ho.
  destruct (array_length o); [apply safe_throw | ].
  apply safe_store; [exact Hv | ]. now apply ok_fields_set.
Qed.

Lemma safe_delete_prop (v : hval) (k : string) :
  ok_val v -> safe (delete_prop v k) (fun _ => True).
Proof.
  intros Hv. destruct v as [ | b | z | s | l]; simpl;
    try apply safe_throw; try (now apply safe_ret).
  - destruct (String.eqb k "length"); [apply safe_throw | ].
    destruct (prop_get (chars 0 s) k); [apply safe_throw | now apply safe_ret].
  - eapply safe_bind; [apply safe_load; exact Hv | ]. intros o Ho.
    destruct (array_length o) as [n | ].
    + destruct (String.eqb k "length"); [apply safe_throw | ].
      apply safe_store; [exact Hv | ]. now apply ok_fields_delete.
    + apply safe_store; [exact Hv | ]. now apply ok_fields_delete.
Qed.

Lemma safe_is_mapping (v : hval) : safe (is_mapping v) (fun _ => True).
Proof.
  destruct v as [ | b | z | s | l]; simpl; try (now apply safe_ret).
  eapply safe_bind; [apply safe_load_any | ]. intros o _. now apply safe_ret.
Qed.

Lemma safe_object_entries (v : hval) :
  ok_val v -> safe (object_entries v) ok_fields.
Proof.
  intros Hv. destruct v as [ | b | z | s | l]; simpl.
  - apply safe_throw.
  - apply safe_ret. intros k v [].
  - apply safe_ret. intros k v [].
  - apply safe_ret. apply ok_fields_chars.
  - eapply safe_bind; [apply safe_load; exact Hv | ]. intros o Ho.
    now apply safe_ret.
Qed.

Lemma safe_delete_walk (keys : list string) :
  forall current,
    ok_val current -> safe (delete_walk current keys) (fun _ => True).
Proof.
  induction keys as [ | k rest IH]; intros current Hcur.
  - now apply safe_ret.
  - destruct rest as [ | k' rest'].
    + now apply safe_delete_prop.
    + change (delete_walk current (k :: k' :: rest'))
        with (next <- get_prop current k ;;
              match next with
              | Some child =>
                  if truthy child then delete_walk child (k' :: rest')
                  else ret tt
              | None => ret tt
              end).
      eapply safe_bind; [apply safe_get_prop; exact Hcur | ].
      intros [child | ] Hchild; [ | now apply safe_ret].
      destruct (truthy child); [now apply IH | now apply safe_ret].
Qed.

Lemma safe_deepMerge (fuel : nat) :
  forall target source,
    ok_val target -> ok_val source ->
    safe (deepMerge fuel target source) ok_val.
Proof.
  induction fuel as [ | fuel IH]; intros target source Htarget Hsource;
    [apply safe_throw | ].
  cbn [deepMerge].
  eapply safe_bind; [apply safe_object_entries; exact Htarget | ].
  intros copied Hcopied.
  eapply safe_bind; [apply safe_alloc; exact Hcopied | ].
  intros result Hresult.
  eapply safe_bind; [apply safe_object_entries; exact Hsource | ].
  intros entries Hentries.
  eapply safe_bind; [ | intros _ _; now apply safe_ret].
  apply safe_for_each. intros [key v] Hin.
  assert (Hv : ok_val v) by (eapply Hentries; exact Hin).
  eapply safe_bind; [apply safe_is_mapping | ].
  intros [ | ] _; [ | now apply safe_set_prop].
  eapply safe_bind; [apply safe_get_prop; exact Hresult | ].
  intros [e | ] He; cbn [is_object]; [ | now apply safe_set_prop].
  destruct e as [ | b | z | s | l]; try (now apply safe_set_prop).
  eapply safe_bind; [apply IH; assumption | ].
  intros merged Hmerged. now apply safe_set_prop.
Qed.

Lemma safe_stringify (fuel : nat) :
  forall v, safe (stringify fuel v) (fun _ => True).
Proof.
  induction fuel as [ | fuel IH]; intros [ | b | z | s | l]; simpl;
    try (now apply safe_ret); try apply safe_throw.
  eapply safe_bind; [apply safe_load_any | ]. intros o _.
  destruct (array_length o) as [n | ].
  - eapply safe_bind; [ | intros elems _; now apply safe_ret].
    apply (safe_map_m _ (fun _ => True)). intros i _.
    destruct (prop_get (fields o) (index_key i)); [apply IH | now apply safe_ret].
  - eapply safe_bind; [ | intros props _; now apply safe_ret].
    apply (safe_map_m _ (fun _ => True)). intros [k x] _.
    eapply safe_bind; [apply IH | ]. intros x' _. now apply safe_ret.
Qed.


Lemma safe_parse (v : value) : safe (parse v) ok_val.
Proof.
  assert (Hfields : forall props : list (string * value),
             Forall (fun kv => safe (parse (snd kv)) ok_val) props ->
             safe
               (map_m (fun kx => x <- parse (snd kx) ;; ret (fst kx, x))
                  props)
               (Forall (fun kx => ok_val (snd kx)))).
  { intros props IH.
    apply (safe_map_m _ (fun kx => ok_val (snd kx))). intros [k x] Hx.
    rewrite Forall_forall in IH.
    eapply safe_bind; [apply (IH (k, x) Hx) | ].
    intros x' Hx'. now apply safe_ret. }
  induction v as [ | b | z | s | id len props IH | props IH] using value_ind;
    simpl; try (now apply safe_ret).
  - eapply safe_bind; [now apply Hfields | ].
    intros fs Hfs.
    eapply safe_bind; [apply safe_alloc | intros l Hl; now apply safe_ret].
    simpl. intros k x Hin.
    rewrite Forall_forall in Hfs. apply (Hfs (k, x) Hin).
  - eapply safe_bind; [now apply Hfields | ].
    intros fs Hfs.
    eapply safe_bind; [apply safe_alloc | intros l Hl; now apply safe_ret].
    simpl. intros k x Hin.
    rewrite Forall_forall in Hfs. apply (Hfs (k, x) Hin).
Qed.

Lemma safe_get_document (merged : hval) (language fileName : string) :
  ok_val merged -> safe (get_document merged language fileName) ok_opt.
Proof.
  intros Hm. unfold get_document.
  eapply safe_bind; [apply safe_get_prop; exact Hm | ].
  intros [fs | ] Hfs; [now apply safe_get_prop | apply safe_throw].
Qed.

Lemma safe_set_document (merged : hval) (language fileName : string)
    (x : hval) :
  ok_val merged -> ok_val x ->
  safe (set_document merged language fileName x) (fun _ => True).
Proof.
  intros Hm Hx. unfold set_document.
  eapply safe_bind; [apply safe_get_prop; exact Hm | ].
  intros [fs | ] Hfs; [now apply safe_set_prop | apply safe_throw].
Qed.

Lemma safe_merge_language (fuel : nat) (newTranslations : hval)
    (changes : Changes) (merged : hval) (language : string) :
  ok_val newTranslations -> ok_val merged ->
  safe (merge_language fuel newTranslations changes merged language)
    (fun _ => True).
Proof.
  intros Hnew Hm. unfold merge_language.
  eapply safe_bind; [apply safe_get_prop; exact Hm | ].
  intros current _.
  eapply safe_bind with (P := fun _ => True).
  { destruct (truthy_opt current); [now apply safe_ret | ].
    eapply safe_bind; [apply safe_alloc; intros k v [] | ].
    intros created Hcreated. now apply safe_set_prop. }
  intros _ _.
  eapply safe_bind; [apply safe_get_prop; exact Hnew | ].
  intros added HnewFiles.
  eapply safe_bind with (P := fun _ => True).
  { destruct added as [newFiles | ]; [ | now apply safe_ret].
    destruct (truthy newFiles); [ | now apply safe_ret].
    eapply safe_bind; [apply safe_object_entries; exact HnewFiles | ].
    intros entries Hentries. apply safe_for_each.
    intros [fileName newContent] Hin.
    assert (Hcontent : ok_val newContent) by (eapply Hentries; exact Hin).
    eapply safe_bind; [apply safe_get_document; exact Hm | ].
    intros [doc | ] Hdoc; [ | now apply safe_set_document].
    destruct (truthy doc); [ | now apply safe_set_document].
    eapply safe_bind; [apply safe_deepMerge; assumption | ].
    intros result Hresult. now apply safe_set_document. }
  intros _ _. apply safe_for_each. intros fileName _.
  destruct (prop_get (deletedKeys changes) fileName) as [deleted | ];
    [ | now apply safe_ret].
  eapply safe_bind; [apply safe_get_document; exact Hm | ].
  intros existing _.
  destruct (truthy_opt existing); [ | now apply safe_ret].
  apply safe_for_each. intros deletedKey _.
  eapply safe_bind; [apply safe_get_document; exact Hm | ].
  intros [d | ] Hd; [ | apply safe_throw].
  now apply safe_delete_walk.
Qed.

Lemma safe_mergeTranslations (fuel : nat) (existing newTranslations : hval)
    (changes : Changes) :
  ok_val newTranslations ->
  safe (mergeTranslations fuel existing newTranslations changes) ok_val.
Proof.
  intros Hnew. unfold mergeTranslations.
  eapply safe_bind; [apply safe_stringify | ]. intros text _.
  eapply safe_bind; [apply safe_parse | ]. intros merged Hmerged.
  eapply safe_bind; [ | intros _ _; now apply safe_ret].
  apply safe_for_each. intros language _.
  now apply safe_merge_language.
Qed.

(** In a store that satisfies [inv], what an [ok_val] leads to is in
    [W]. *)
Lemma reach_ok (h : list hobject) (v : hval) (l : loc) :
  inv h -> ok_val v -> reach h v l -> W l.
Proof.
  intros Hinv Hv Hreach. induction Hreach as [l o Hget | v l o k l' o' _ IH Hget Hin Hget'].
  - exact Hv.
  - specialize (IH Hv).
    apply (inv_closed _ _ _ Hinv l o IH Hget k (HRef l') Hin).
Qed.
End Frame.

(** ** The caller's translations after the merge *)

Lemma reach_allocated (h : list Heap.hobject) (v : Heap.hval) (l : Heap.loc) :
  Heap.reach h v l -> l < List.length h.
Proof.
  intros Hreach. apply nth_error_Some.
  destruct Hreach; congruence.
Qed.

(** The objects a merge may write to refer to such objects only. *)
Lemma writable_closed (h : list Heap.hobject) (newTranslations : Heap.hval)
    (l : Heap.loc) (o : Heap.hobject) :
  writable h newTranslations l -> nth_error h l = Some o ->
  ok_fields (writable h newTranslations) (Heap.fields o).
Proof.
  intros [Hfresh | Hreach] Hget.
  - apply nth_error_None in Hfresh. congruence.
  - intros k [ | b | z | s | l'] Hin; simpl; try exact I.
    destruct (nth_error h l') as [o' | ] eqn:Hget'.
    + right. eapply Heap.reach_step; eassumption.
    + left. now apply nth_error_None.
Qed.

Lemma writable_inv (h : list Heap.hobject) (newTranslations : Heap.hval) :
  inv h (writable h newTranslations) h.
Proof.
  constructor.
  - apply Nat.le_refl.
  - reflexivity.
  - intros l o. apply writable_closed.
Qed.

(** C9. When the merge returns, every object of the caller's
    [existingTranslations] is as it was before the call, unless it is
    also an object of [newTranslations], which two parsed documents
    never share; and the merged structure is a copy: it holds no object
    of [existingTranslations] either, with the same exception. *)
Theorem mergeTranslations_keeps_existing :
  forall (fuel : nat) (h : list Heap.hobject)
         (existingTranslations newTranslations : Heap.hval)
         (changes : Changes) (merged : Heap.hval) (h' : list Heap.hobject),
    Heap.mergeTranslations fuel existingTranslations newTranslations changes h
    = Some (merged, h') ->
    (forall l,
        Heap.reach h existingTranslations l ->
        ~ Heap.reach h newTranslations l ->
        nth_error h' l = nth_error h l)
    /\ (forall l,
          Heap.reach h' merged l ->
          Heap.reach h existingTranslations l ->
          Heap.reach h newTranslations l).
Proof.
  intros fuel h existing newTranslations changes merged h' Hrun.
  set (W := writable h newTranslations).
  assert (Hfresh : forall l, List.length h <= l -> W l) by (intros l; now left).
  assert (Hnew : ok_val W newTranslations).
  { destruct newTranslations as [ | b | z | s | l]; simpl; try exact I.
    destruct (nth_error h l) as [o | ] eqn:Hget.
    - right. eapply Heap.reach_root. exact Hget.
    - left. now apply nth_error_None. }
  destruct (safe_mergeTranslations h W Hfresh fuel existing newTranslations
              changes Hnew h merged h' (writable_inv h newTranslations) Hrun)
    as [Hinv Hmerged].
  split.
  - intros l Hexisting Hnot. apply (inv_frame _ _ _ Hinv).
    + eapply reach_allocated. exact Hexisting.
    + intros [Hge | Hreach]; [ | contradiction].
      apply reach_allocated in Hexisting. lia.
  - intros l Hreach Hexisting.
    destruct (reach_ok h W h' merged l Hinv Hmerged Hreach) as [Hge | Hnew'];
      [ | exact Hnew'].
    apply reach_allocated in Hexisting. lia.
Qed.

Lemma mergeTranslations_keeps_existing_witness :
  exists merged h',
    Heap.mergeTranslations 5 (Heap.HRef 0) (Heap.HRef 3)
      Scenario.reword_and_drop Scenario.store = Some (merged, h')
    /\ (forall l,
          Heap.reach Scenario.store (Heap.HRef 0) l ->
          ~ Heap.reach Scenario.store (Heap.HRef 3) l ->
          nth_error h' l = nth_error Scenario.store l)
    /\ firstn 3 h' = firstn 3 Scenario.store.
Proof.
  eexists. eexists. split; [vm_compute; reflexivity | ].
  split; [ | reflexivity].
  eapply (fun Hrun =>
            proj1 (mergeTranslations_keeps_existing 5 Scenario.store
                     (Heap.HRef 0) (Heap.HRef 3) Scenario.reword_and_drop
                     _ _ Hrun)).
  vm_compute. reflexivity.
Defined.

(** On the store of the scenario the merger on the heap returns the
    structure that the merger on trees computes. *)
Example heap_merge_agrees_with_tree_merge :
  let existing := [("es", [("a.json", [("greeting", VStr "Hola");
                                       ("farewell", VStr "Adios")])])] in
  let reply := [("es", [("a.json", [("greeting", VStr "Hola2")])])] in
  match
    Heap.bind
      (Heap.mergeTranslations 5 (Heap.HRef 0) (Heap.HRef 3)
         Scenario.reword_and_drop)
      (Heap.stringify 5) Scenario.store,
    mergeTranslations 0 existing reply Scenario.reword_and_drop
  with
  | Some (onHeap, _), Returns onTrees =>
      erase onHeap = erase (value_of_translations onTrees)
  | _, _ => False
  end.
Proof. vm_compute. reflexivity. Qed.

(** ** The run against a reply that lacks a language *)

(** C1. A reply that omits the requested language ["fr"] does not stop
    the incremental run: it completes, writes the merged Spanish document
    and writes the French one again, whereas the validation of the
    sibling class rejects the same reply naming ["fr"]. *)
Theorem missing_language_is_not_rejected :
  (exists written,
      translateIncremental 0 Scenario.api_without_fr
        Scenario.current_greeting Scenario.previous_greeting Scenario.disk
      = Updated written Scenario.current_greeting
      /\ In (mkWrite "es" "a.json" [("greeting", VStr "Hola2")]) written
      /\ In (mkWrite "fr" "a.json" [("greeting", VStr "Salut")]) written)
  /\ IntelligentTranslationProcessorClaude.callAnthropicAPI
       Scenario.api_without_fr Scenario.current_greeting
     = inl "JSON Parse Error: Missing translation for language: fr".
Proof.
  split.
  - eexists. split; [vm_compute; reflexivity | ].
    split; simpl; tauto.
  - vm_compute. reflexivity.
Qed.

(** ** The delta of a run that only deletes *)

(** C5. When the only change of a document is a deleted key, its change
    set has no new and no modified leaf, and yet the collaborator is
    called with that document, empty. *)
Theorem deletion_only_document_is_sent_empty :
  exists changes,
    detectChanges Scenario.previous_farewell Scenario.current_farewell
    = Returns changes
    /\ prop_get (newKeys changes) "a.json" = Some []
    /\ prop_get (modifiedKeys changes) "a.json" = Some []
    /\ prop_get (deletedKeys changes) "a.json" = Some ["farewell"]
    /\ translateChanges_request changes Scenario.current_farewell
       = Returns (CallClaude [("a.json", [])]).
Proof. eexists. split; [vm_compute; reflexivity | ]. repeat split. Qed.

(** ** The merge rule *)

(** C3. Where the existing value is an array and the new value a nested
    mapping, the merge recurses into the array instead of overwriting
    it: the elements of the array survive under their indices. *)
Theorem deepMerge_recurses_into_array :
  deepMerge [("a", VArr 7 [VStr "x"])] [("a", VObj [("b", VStr "y")])]
  = Returns [("a", VObj [("0", VStr "x"); ("b", VStr "y")])].
Proof. reflexivity. Qed.

(** ** Arrays that did not change *)

(** C6. A leaf that is an array is compared by reference. Of two
    documents read from texts that differ in the type of [count] only,
    the change set reports [count] as modified, carrying the number and
    the string, and reports [tags] as modified too, although the old and
    the new value are the same array, element by element. *)
Theorem equal_array_leaf_is_reported_modified :
  let previous :=
    fst (clone_doc [("tags", VArr 0 [VStr "a"; VStr "b"]);
                    ("count", VNum 1)] 0) in
  let current :=
    fst (clone_doc [("tags", VArr 0 [VStr "a"; VStr "b"]);
                    ("count", VStr "1")] 1) in
  detectFileChanges previous current
  = Returns
      (mkFileChanges true []
         [mkModifiedKey "tags" (VArr 0 [VStr "a"; VStr "b"])
            (VArr 1 [VStr "a"; VStr "b"]);
          mkModifiedKey "count" (VNum 1) (VStr "1")]
         [])
  /\ erase (VArr 0 [VStr "a"; VStr "b"]) = erase (VArr 1 [VStr "a"; VStr "b"]).
Proof. split; reflexivity. Qed.

(** C8. Detecting the changes between two readings of one and the same
    text does not yield the empty change set when the document has a
    leaf that is an array: the two readings are equal trees, and the
    array, a new object at every reading, is reported modified. The
    string and the [null] leaf are not reported. *)
Theorem same_text_read_twice_has_changes :
  let text :=
    [("greeting", VStr "Hi"); ("tags", VArr 0 [VStr "a"; VStr "b"]);
     ("note", VNull)] in
  let previous := fst (clone_doc text 0) in
  let current := fst (clone_doc text 1) in
  erase_doc previous = erase_doc current
  /\ detectFileChanges previous current
     = Returns
         (mkFileChanges true []
            [mkModifiedKey "tags" (VArr 0 [VStr "a"; VStr "b"])
               (VArr 1 [VStr "a"; VStr "b"])]
            []).
Proof. split; reflexivity. Qed.

(** ** The scenarios of the specification *)

(** Scenario A: with no previous snapshot the document is new and goes
    to translation whole. *)
Example first_run_translates_everything :
  exists changes,
    detectChanges [] Scenario.current_farewell = Returns changes
    /\ newFiles changes = ["a.json"]
    /\ translateChanges_request changes Scenario.current_farewell
       = Returns (CallClaude Scenario.current_farewell).
Proof. eexists. split; [reflexivity | ]. split; reflexivity. Qed.

(** Scenario B: a reworded greeting is marked modified, and its new
    translation replaces the old one. *)
Example reworded_greeting_is_retranslated :
  detectFileChanges [("greeting", VStr "Hi")] [("greeting", VStr "Hello")]
  = Returns
      (mkFileChanges true []
         [mkModifiedKey "greeting" (VStr "Hi") (VStr "Hello")] [])
  /\ deepMerge [("greeting", VStr "Hola")] [("greeting", VStr "Hola2")]
     = Returns [("greeting", VStr "Hola2")].
Proof. split; reflexivity. Qed.

(** Scenario C: a key dropped from the source is marked deleted and
    leaves the Spanish document. *)
Example dropped_farewell_is_removed :
  detectFileChanges [("greeting", VStr "Hi"); ("farewell", VStr "Bye")]
    [("greeting", VStr "Hi")]
  = Returns (mkFileChanges true [] [] ["farewell"])
  /\ deleteNestedKey [("greeting", VStr "Hola"); ("farewell", VStr "Adios")]
       "farewell"
     = Returns [("greeting", VStr "Hola")].
Proof. split; reflexivity. Qed.

(** A second run on a source that did not change, with the state that
    the first run saved: a document with an array leaf goes to the
    collaborator again, a document without one does not. *)
Example array_leaf_is_translated_again :
  let base := [("a.json", [("tags", VArr 0 [VStr "a"; VStr "b"])])] in
  let plain := [("a.json", [("greeting", VStr "Hi")])] in
  translateIncremental 0 (fun _ => inr []) base [] [] = Updated [] base
  /\ translateIncremental 0 (fun _ => inl "called") base base []
     = Exit "Error calling Claude: called"
  /\ translateIncremental 0 (fun _ => inr []) plain [] [] = Updated [] plain
  /\ translateIncremental 0 (fun _ => inl "called") plain plain []
     = NothingToTranslate.
Proof. repeat split; vm_compute; reflexivity. Qed.
(** * Further properties of the engine *)


(** ** The flat map and its inverse *)

(** The flat map of a document whose keys are not empty and have no
    dot, and which has no key [__proto__] at its top: flattening
    returns, and the flat map holds a value under a key exactly when
    the key, split at its dots, leads through the mappings of the
    document to that value and the value is no mapping. *)
Theorem flattenObject_reads_paths :
  forall d : obj,
    plain_keys (VObj d) -> ~ In "__proto__" (own_keys d) ->
    exists flat,
      flattenObject d "" = Returns flat
      /\ forall key v,
          prop_get flat key = Some v
          <-> lookup_path (VObj d) (split_dot key) = Some v
              /\ is_mapping v = false.
Proof.
  intros d Hplain Hproto.
  destruct (flat_map_complete d Hplain Hproto) as (flat & Hflat & Hall).
  exists flat. split; [exact Hflat | ].
  intros key v. split.
  - now apply flat_map_sound.
  - intros [Hlook Hleaf]. now apply Hall.
Qed.

Lemma flattenObject_reads_paths_witness :
  exists flat,
    flattenObject
      [("menu", VObj [("open", VStr "Open"); ("__proto__", VNull)]);
       ("tags", VArr 0 [VStr "a"])] "" = Returns flat
    /\ forall key v,
        prop_get flat key = Some v
        <-> lookup_path
              (VObj [("menu", VObj [("open", VStr "Open");
                                    ("__proto__", VNull)]);
                     ("tags", VArr 0 [VStr "a"])])
              (split_dot key) = Some v
            /\ is_mapping v = false.
Proof.
  apply flattenObject_reads_paths.
  - simpl. repeat split; try reflexivity;
      repeat (constructor; [simpl; intuition discriminate | ]);
      constructor.
  - simpl. intuition discriminate.
Defined.

(** Setting a leaf under a key none of whose parts names a member of
    [Object.prototype], and which leads through no leaf of the object:
    [setNestedValue] returns, and the key, split at its dots, then leads
    through the mappings of the object to the value that was set. *)
Theorem setNestedValue_then_read :
  forall (o : obj) (key : string) (v : value),
    forallb ordinary_key (split_dot key) = true ->
    is_mapping v = false ->
    clear_of_leaves (VObj o) (split_dot key) ->
    exists o',
      setNestedValue o key v = Returns o'
      /\ lookup_path (VObj o') (split_dot key) = Some v.
Proof.
  intros o key v Hord Hv Hclear.
  destruct (set_path_sets (split_dot key) o v (split_dot_nonempty key)
              Hord Hv Hclear) as (o' & Hset & Hread & _).
  exists o'. unfold setNestedValue. rewrite Hset. auto.
Qed.

Lemma setNestedValue_then_read_witness :
  exists o',
    setNestedValue [("title", VStr "Home")] "menu.close" (VStr "Close")
    = Returns o'
    /\ lookup_path (VObj o') (split_dot "menu.close") = Some (VStr "Close").
Proof.
  apply setNestedValue_then_read.
  - reflexivity.
  - reflexivity.
  - intros q l Hq Hl. right.
    destruct q as [ | k q']; [injection Hq as <-; discriminate | ].
    cbn [lookup_path prop_get] in Hq.
    destruct (String.eqb_spec "title" k) as [<- | Hne]; [ | discriminate].
    reflexivity.
Defined.

(** Any part of the flat map of a document whose keys are not empty,
    have no dot and name no member of [Object.prototype] can be
    unflattened: [unflattenObject] returns a document in which every
    key of the part, split at its dots, leads to its value, and which
    has no other leaf. *)
Theorem unflattenObject_part_of_flat_map :
  forall (c flat part : obj),
    plain_keys (VObj c) -> ordinary_keys (VObj c) ->
    flattenObject c "" = Returns flat ->
    (forall k v, In (k, v) part -> prop_get flat k = Some v) ->
    exists doc,
      unflattenObject part = Returns doc
      /\ (forall k v, In (k, v) part ->
                      lookup_path (VObj doc) (split_dot k) = Some v)
      /\ (forall q l,
             lookup_path (VObj doc) q = Some l -> is_mapping l = false ->
             In (join_path q, l) part).
Proof.
  intros c flat part Hplain Hord Hflat Hpart.
  destruct (sets_within c flat Hplain Hord Hflat part Hpart []
              (leaves_within_empty _))
    as (doc & Hfold & _ & Hreads & Honly & _).
  exists doc. split; [exact Hfold | ]. split.
  - intros k v Hin. apply Hreads. now left.
  - intros q l Hq Hl. destruct (Honly q l Hq Hl) as [Hin | Hold];
      [exact Hin | ].
    destruct q; simpl in Hold; [ | discriminate].
    injection Hold as <-. discriminate.
Qed.

Lemma unflattenObject_part_of_flat_map_witness :
  exists doc,
    unflattenObject [("menu.open", VStr "Open")] = Returns doc
    /\ (forall k v, In (k, v) [("menu.open", VStr "Open")] ->
                    lookup_path (VObj doc) (split_dot k) = Some v)
    /\ (forall q l,
           lookup_path (VObj doc) q = Some l -> is_mapping l = false ->
           In (join_path q, l) [("menu.open", VStr "Open")]).
Proof.
  apply (unflattenObject_part_of_flat_map
           [("menu", VObj [("open", VStr "Open"); ("close", VStr "Close")]);
            ("n", VNum 1)]
           [("menu.open", VStr "Open"); ("menu.close", VStr "Close");
            ("n", VNum 1)]).
  - simpl. repeat split; try reflexivity;
      repeat (constructor; [simpl; intuition discriminate | ]);
      constructor.
  - simpl. repeat split; reflexivity.
  - reflexivity.
  - intros k v [[= <- <-] | []]. reflexivity.
Defined.

(** ** The change set of one document *)

Lemma new_of_keys (previousFlat : obj) (entries : obj) :
  map nk_key (flat_map (new_of previousFlat) entries)
  = filter (fun key => negb (hasOwnProperty previousFlat key))
      (own_keys entries).
Proof.
  induction entries as [ | [k v] rest IH]; [reflexivity | ].
  cbn [flat_map own_keys map filter fst]. rewrite map_app, IH.
  unfold new_of. simpl. unfold own_keys.
  now destruct (hasOwnProperty previousFlat k).
Qed.

Lemma modified_of_keys (previousFlat : obj) (entries : obj) :
  map mk_key (flat_map (modified_of previousFlat) entries)
  = own_keys (filter (value_changed previousFlat) entries).
Proof.
  induction entries as [ | [k v] rest IH]; [reflexivity | ].
  cbn [flat_map filter]. rewrite map_app, IH.
  unfold modified_of, value_changed. simpl.
  destruct (prop_get previousFlat k) as [old | ]; [ | reflexivity].
  now destruct (strict_eq old v).
Qed.

Lemma NoDup_keys_filter {A : Type} (f : string * A -> bool)
    (o : jsobject A) :
  NoDup (own_keys o) -> NoDup (own_keys (filter f o)).
Proof.
  induction o as [ | [k v] rest IH]; intros Hnd; [constructor | ].
  simpl in Hnd. inversion Hnd as [ | ? ? Hnotin Hrest]; subst.
  simpl. destruct (f (k, v)); [ | now apply IH].
  simpl. constructor; [ | now apply IH].
  intros Hin. apply Hnotin. unfold own_keys in *.
  apply in_map_iff in Hin as (kv & Hk & Hkv). apply filter_In in Hkv.
  apply in_map_iff. exists kv. tauto.
Qed.

Lemma existsb_filter_nil {A : Type} (f : A -> bool) (l : list A) :
  existsb f l = false <-> filter f l = [].
Proof.
  induction l as [ | x rest IH]; simpl; [tauto | ].
  destruct (f x); simpl; [split; discriminate | exact IH].
Qed.

Lemma flat_map_nil {A B : Type} (f : A -> list B) (l : list A) :
  flat_map f l = [] <-> forall x, In x l -> f x = [].
Proof.
  induction l as [ | x rest IH]; simpl; [tauto | ].
  split.
  - intros H. apply app_eq_nil in H as [Hx Hrest].
    intros y [<- | Hy]; [exact Hx | now apply IH].
  - intros H. rewrite (H x (or_introl eq_refl)). simpl.
    apply IH. intros y Hy. apply H. now right.
Qed.

(** The flag [hasChanges] of a change set is raised exactly when one of
    its three lists has an entry. *)
Theorem detectFileChanges_flag :
  forall (previous current : obj) (changes : FileChanges),
    detectFileChanges previous current = Returns changes ->
    fc_hasChanges changes = false
    <-> fc_newKeys changes = [] /\ fc_modifiedKeys changes = []
        /\ fc_deletedKeys changes = [].
Proof.
  intros previous current changes Hrun.
  destruct (detectFileChanges_lists previous current changes Hrun)
    as (previousFlat & currentFlat & _ & _ & -> & -> & -> & ->).
  rewrite orb_false_iff, !flat_map_nil.
  rewrite (existsb_filter_nil
             (fun key => negb (hasOwnProperty currentFlat key))).
  split.
  - intros [Hcur Hprev]. split; [ | split; [ | exact Hprev]].
    + intros entry Hin. unfold new_of.
      destruct (hasOwnProperty previousFlat (fst entry)) eqn:Hown;
        [reflexivity | ].
      rewrite <- not_true_iff_false in Hcur. exfalso. apply Hcur.
      apply existsb_exists. exists entry. now rewrite Hown.
    + intros entry Hin. unfold modified_of.
      destruct (prop_get previousFlat (fst entry)) as [old | ] eqn:Hget;
        [ | reflexivity].
      destruct (strict_eq old (snd entry)) eqn:Heq; [reflexivity | ].
      rewrite <- not_true_iff_false in Hcur. exfalso. apply Hcur.
      apply existsb_exists. exists entry. split; [exact Hin | ].
      unfold value_changed. rewrite Hget, Heq. apply orb_true_r.
  - intros (Hnew & Hmod & Hdel). split; [ | exact Hdel].
    rewrite <- not_true_iff_false. intros Hex.
    apply existsb_exists in Hex. destruct Hex as (entry & Hin & Htest).
    specialize (Hnew entry Hin). specialize (Hmod entry Hin).
    unfold new_of in Hnew. unfold modified_of in Hmod.
    unfold value_changed, hasOwnProperty in *.
    destruct (prop_get previousFlat (fst entry)) as [old | ];
      [ | discriminate].
    destruct (strict_eq old (snd entry)); discriminate.
Qed.

Lemma detectFileChanges_flag_witness :
  fc_hasChanges (mkFileChanges true [] [] ["farewell"]) = false
  <-> fc_newKeys (mkFileChanges true [] [] ["farewell"]) = []
      /\ fc_modifiedKeys (mkFileChanges true [] [] ["farewell"]) = []
      /\ fc_deletedKeys (mkFileChanges true [] [] ["farewell"]) = [].
Proof.
  apply (detectFileChanges_flag
           [("greeting", VStr "Hi"); ("farewell", VStr "Bye")]
           [("greeting", VStr "Hi")]).
  reflexivity.
Defined.

(** A change set reports a path at most once: no path occurs twice in a
    list, and no path occurs in two of the three lists. *)
Theorem detectFileChanges_reports_once :
  forall (previous current : obj) (changes : FileChanges),
    detectFileChanges previous current = Returns changes ->
    NoDup (map nk_key (fc_newKeys changes)
           ++ map mk_key (fc_modifiedKeys changes)
           ++ fc_deletedKeys changes).
Proof.
  intros previous current changes Hrun.
  destruct (detectFileChanges_lists previous current changes Hrun)
    as (previousFlat & currentFlat & Hprevious & Hcurrent & _ & Hnew & Hmod
        & Hdel).
  rewrite Hnew, Hmod, Hdel.
  rewrite new_of_keys, modified_of_keys.
  assert (Hp : NoDup (own_keys previousFlat))
    by (eapply flattenValue_NoDup; exact Hprevious).
  assert (Hc : NoDup (own_keys currentFlat))
    by (eapply flattenValue_NoDup; exact Hcurrent).
  assert (Hchanged : forall k,
             In k (own_keys (filter (value_changed previousFlat) currentFlat))
             -> In k (own_keys currentFlat)
                /\ hasOwnProperty previousFlat k = true).
  { intros k Hk. unfold own_keys in Hk.
    apply in_map_iff in Hk as ([k' v] & <- & Hkv).
    apply filter_In in Hkv as [Hin Htest]. split.
    - apply in_map_iff. now exists (k', v).
    - unfold value_changed, hasOwnProperty in *. simpl in *.
      now destruct (prop_get previousFlat k'). }
  apply NoDup_app; [now apply NoDup_filter | | ].
  - apply NoDup_app;
      [now apply NoDup_keys_filter | now apply NoDup_filter | ].
    intros k Hk Hdeleted. apply Hchanged in Hk as [Hk _].
    apply filter_In in Hdeleted as [_ Hdeleted].
    apply negb_true_iff in Hdeleted.
    apply hasOwnProperty_true in Hk. congruence.
  - intros k Hk Hother. apply filter_In in Hk as [Hk Hnew'].
    apply negb_true_iff in Hnew'. apply in_app_iff in Hother as [Hm | Hd].
    + apply Hchanged in Hm as [_ Hm]. congruence.
    + apply filter_In in Hd as [Hd _].
      apply hasOwnProperty_true in Hd. congruence.
Qed.

Lemma detectFileChanges_reports_once_witness :
  NoDup (map nk_key []
         ++ map mk_key [mkModifiedKey "greeting" (VStr "Hi") (VStr "Hello")]
         ++ ["farewell"]).
Proof.
  apply (detectFileChanges_reports_once
           [("greeting", VStr "Hi"); ("farewell", VStr "Bye")]
           [("greeting", VStr "Hello")]
           (mkFileChanges true []
              [mkModifiedKey "greeting" (VStr "Hi") (VStr "Hello")]
              ["farewell"])).
  reflexivity.
Defined.

(** ** The change record of a run *)

Lemma detect_new_file_lists (previousFiles : files) (names : list string) :
  forall changes,
    let after := fold_left (detect_new_file previousFiles) names changes in
    newFiles after
    = newFiles changes
      ++ filter (fun f => negb (hasOwnProperty previousFiles f)) names
    /\ modifiedFiles after = modifiedFiles changes
    /\ newKeys after = newKeys changes
    /\ modifiedKeys after = modifiedKeys changes
    /\ deletedKeys after = deletedKeys changes
    /\ hasChanges after
       = hasChanges changes
         || existsb (fun f => negb (hasOwnProperty previousFiles f)) names.
Proof.
  induction names as [ | f rest IH]; intros changes.
  - simpl. now rewrite app_nil_r, orb_false_r.
  - cbn [fold_left filter existsb].
    destruct (IH (detect_new_file previousFiles changes f))
      as (H1 & H2 & H3 & H4 & H5 & H6).
    rewrite H1, H2, H3, H4, H5, H6. clear IH H1 H2 H3 H4 H5 H6.
    unfold detect_new_file, hasOwnProperty.
    destruct (prop_get previousFiles f); simpl;
      rewrite <- ?app_assoc, ?orb_true_r; repeat split; reflexivity.
Qed.

(** What one round of the second loop of [detectChanges] does, when it
    returns. *)
Lemma detect_existing_file_returns (previousFiles : files)
    (changes after : Changes) (entry : string * obj) :
  detect_existing_file previousFiles changes entry = Returns after ->
  (file_changed previousFiles entry = false /\ after = changes)
  \/ (file_changed previousFiles entry = true
      /\ exists previousContent fileChanges,
          prop_get previousFiles (fst entry) = Some previousContent
          /\ detectFileChanges previousContent (snd entry)
             = Returns fileChanges
          /\ fc_hasChanges fileChanges = true
          /\ after
             = mkChanges true (newFiles changes)
                 (modifiedFiles changes ++ [fst entry])
                 (prop_set (newKeys changes) (fst entry)
                    (fc_newKeys fileChanges))
                 (prop_set (modifiedKeys changes) (fst entry)
                    (fc_modifiedKeys fileChanges))
                 (prop_set (deletedKeys changes) (fst entry)
                    (fc_deletedKeys fileChanges))).
Proof.
  destruct entry as [f c]. unfold detect_existing_file, file_changed.
  cbn [fst snd].
  destruct (prop_get previousFiles f) as [p | ];
    [ | intros [= <-]; now left].
  intros Hrun. apply and_then_returns in Hrun.
  destruct Hrun as (fileChanges & Hfile & Hrun). rewrite Hfile.
  destruct (fc_hasChanges fileChanges) eqn:Hflag; injection Hrun as <-.
  - right. split; [reflexivity | ]. exists p, fileChanges. auto.
  - now left.
Qed.

Lemma detect_existing_file_lists (previousFiles : files)
    (entries : files) :
  forall changes after,
    fold_throwing (detect_existing_file previousFiles) entries changes
    = Returns after ->
    newFiles after = newFiles changes
    /\ modifiedFiles after
       = modifiedFiles changes
         ++ own_keys (filter (file_changed previousFiles) entries)
    /\ hasChanges after
       = hasChanges changes || existsb (file_changed previousFiles) entries.
Proof.
  induction entries as [ | entry rest IH]; intros changes after.
  - intros [= <-]. simpl. now rewrite app_nil_r, orb_false_r.
  - rewrite fold_throwing_cons. intros Hrun.
    apply and_then_returns in Hrun. destruct Hrun as (next & Hstep & Hrun).
    destruct (IH next after Hrun) as (H1 & H2 & H3).
    rewrite H1, H2, H3. clear IH H1 H2 H3. cbn [filter existsb].
    destruct (detect_existing_file_returns _ _ _ _ Hstep)
      as [[-> ->] | (-> & p & fc & _ & _ & _ & ->)]; simpl.
    + auto.
    + rewrite <- app_assoc, orb_true_r. auto.
Qed.

Lemma detectChanges_lists :
  forall (previousFiles currentFiles : files) (changes : Changes),
    detectChanges previousFiles currentFiles = Returns changes ->
    newFiles changes
    = filter (fun f => negb (hasOwnProperty previousFiles f))
        (own_keys currentFiles)
    /\ modifiedFiles changes
       = own_keys (filter (file_changed previousFiles) currentFiles)
    /\ (hasChanges changes = false
        <-> newFiles changes = [] /\ modifiedFiles changes = []).
Proof.
  intros previousFiles currentFiles changes Hrun. unfold detectChanges in Hrun.
  destruct (detect_existing_file_lists previousFiles currentFiles _ _ Hrun)
    as (H1 & H2 & H3).
  destruct (detect_new_file_lists previousFiles (own_keys currentFiles)
              no_changes) as (G1 & G2 & _ & _ & _ & G6).
  rewrite H1, H2, H3, G1, G2, G6. simpl.
  split; [reflexivity | split; [reflexivity | ]].
  rewrite orb_false_iff, !existsb_filter_nil. unfold own_keys.
  split; intros [Ha Hb]; split; try exact Ha.
  - now rewrite Hb.
  - now destruct (filter (file_changed previousFiles) currentFiles).
Qed.

(** The two lists of file names of a change record are the documents the
    previous tree lacks and the documents of the previous tree in which
    [detectFileChanges] reports a change, both in the order of the
    current tree; the flag [hasChanges] is raised exactly when one of
    the two lists has an entry. *)
Theorem detectChanges_file_lists :
  forall (previousFiles currentFiles : files) (changes : Changes),
    detectChanges previousFiles currentFiles = Returns changes ->
    newFiles changes
    = filter (fun f => negb (hasOwnProperty previousFiles f))
        (own_keys currentFiles)
    /\ modifiedFiles changes
       = own_keys (filter (file_changed previousFiles) currentFiles)
    /\ (hasChanges changes = false
        <-> newFiles changes = [] /\ modifiedFiles changes = []).
Proof. exact detectChanges_lists. Qed.

Lemma detectChanges_file_lists_witness :
  newFiles
    (mkChanges true [] ["a.json"] [("a.json", [])]
       [("a.json", [mkModifiedKey "greeting" (VStr "Hi") (VStr "Hello")])]
       [("a.json", [])])
  = filter (fun f => negb (hasOwnProperty Scenario.previous_greeting f))
      (own_keys Scenario.current_greeting).
Proof.
  refine (proj1 (detectChanges_file_lists Scenario.previous_greeting
                   Scenario.current_greeting _ _)).
  reflexivity.
Defined.

Lemma detect_existing_file_keeps (previousFiles : files) (entries : files)
    (fileName : string) :
  ~ In fileName (own_keys entries) ->
  forall changes after,
    fold_throwing (detect_existing_file previousFiles) entries changes
    = Returns after ->
    prop_get (newKeys after) fileName = prop_get (newKeys changes) fileName
    /\ prop_get (modifiedKeys after) fileName
       = prop_get (modifiedKeys changes) fileName
    /\ prop_get (deletedKeys after) fileName
       = prop_get (deletedKeys changes) fileName.
Proof.
  induction entries as [ | entry rest IH]; intros Hnotin changes after.
  - intros [= <-]. auto.
  - rewrite fold_throwing_cons. intros Hrun.
    apply and_then_returns in Hrun. destruct Hrun as (next & Hstep & Hrun).
    simpl in Hnotin.
    destruct (IH (fun H => Hnotin (or_intror H)) next after Hrun)
      as (H1 & H2 & H3).
    rewrite H1, H2, H3. clear IH H1 H2 H3.
    destruct (detect_existing_file_returns _ _ _ _ Hstep)
      as [[_ ->] | (_ & p & fc & _ & _ & _ & ->)]; [auto | ].
    simpl. rewrite !prop_get_set_ne by tauto. auto.
Qed.

Lemma detectChanges_file_record :
  forall (previousFiles currentFiles : files) (fileName : string)
         (previousContent currentContent : obj)
         (fileChanges : FileChanges) (changes : Changes),
    NoDup (own_keys currentFiles) ->
    prop_get previousFiles fileName = Some previousContent ->
    prop_get currentFiles fileName = Some currentContent ->
    detectFileChanges previousContent currentContent = Returns fileChanges ->
    detectChanges previousFiles currentFiles = Returns changes ->
    fc_hasChanges fileChanges = true ->
    In fileName (modifiedFiles changes)
    /\ prop_get (newKeys changes) fileName = Some (fc_newKeys fileChanges)
    /\ prop_get (modifiedKeys changes) fileName
       = Some (fc_modifiedKeys fileChanges)
    /\ prop_get (deletedKeys changes) fileName
       = Some (fc_deletedKeys fileChanges).
Proof.
  intros previousFiles currentFiles fileName previousContent currentContent
    fileChanges changes Hnd Hprev Hcur Hfile Hrun Hflag.
  apply prop_get_Some_In in Hcur. split.
  - destruct (detectChanges_lists previousFiles currentFiles changes Hrun)
      as (_ & Hmod & _).
    rewrite Hmod. unfold own_keys.
    apply in_map_iff. exists (fileName, currentContent). split; [easy | ].
    apply filter_In. split; [exact Hcur | ].
    unfold file_changed. simpl. now rewrite Hprev, Hfile.
  - unfold detectChanges in Hrun. revert Hrun.
    generalize (fold_left (detect_new_file previousFiles)
                  (own_keys currentFiles) no_changes).
    revert Hnd Hcur.
    induction currentFiles as [ | [f c] rest IH]; intros Hnd Hcur start;
      [contradiction | ].
    simpl in Hnd. inversion Hnd as [ | ? ? Hnotin Hrest]; subst.
    rewrite fold_throwing_cons. intros Hrun.
    apply and_then_returns in Hrun. destruct Hrun as (next & Hstep & Hrun).
    destruct Hcur as [[= -> ->] | Hin].
    + destruct (detect_existing_file_keeps previousFiles rest fileName
                  Hnotin next changes Hrun) as (H1 & H2 & H3).
      rewrite H1, H2, H3. unfold detect_existing_file in Hstep.
      rewrite Hprev, Hfile in Hstep. cbn [and_then] in Hstep.
      rewrite Hflag in Hstep. injection Hstep as <-. simpl.
      now rewrite !prop_get_set_eq.
    + now apply (IH Hrest Hin next).
Qed.

(** For a document of both trees that has changed, the change record
    holds under its name the three lists of [detectFileChanges], and
    names it among the modified files. *)
Theorem detectChanges_modified_file :
  forall (previousFiles currentFiles : files) (fileName : string)
         (previousContent currentContent : obj)
         (fileChanges : FileChanges) (changes : Changes),
    NoDup (own_keys currentFiles) ->
    prop_get previousFiles fileName = Some previousContent ->
    prop_get currentFiles fileName = Some currentContent ->
    detectFileChanges previousContent currentContent = Returns fileChanges ->
    detectChanges previousFiles currentFiles = Returns changes ->
    fc_hasChanges fileChanges = true ->
    In fileName (modifiedFiles changes)
    /\ prop_get (newKeys changes) fileName = Some (fc_newKeys fileChanges)
    /\ prop_get (modifiedKeys changes) fileName
       = Some (fc_modifiedKeys fileChanges)
    /\ prop_get (deletedKeys changes) fileName
       = Some (fc_deletedKeys fileChanges).
Proof. exact detectChanges_file_record. Qed.

Lemma detectChanges_modified_file_witness :
  In "a.json"
    (modifiedFiles
       (mkChanges true [] ["a.json"] [("a.json", [])]
          [("a.json", [mkModifiedKey "greeting" (VStr "Hi") (VStr "Hello")])]
          [("a.json", [])])).
Proof.
  apply (detectChanges_modified_file Scenario.previous_greeting
           Scenario.current_greeting "a.json"
           [("greeting", VStr "Hi")] [("greeting", VStr "Hello")]
           (mkFileChanges true []
              [mkModifiedKey "greeting" (VStr "Hi") (VStr "Hello")] [])).
  - repeat (constructor; [simpl; intuition discriminate | ]). constructor.
  - reflexivity.
  - reflexivity.
  - reflexivity.
  - reflexivity.
  - reflexivity.
Defined.

(** [===] holds exactly of two leaves that are the same value. *)
Lemma strict_eq_same_value (a b : value) :
  strict_eq a b = true <-> same_value a b.
Proof.
  destruct a, b; simpl; try (split; [discriminate | contradiction]);
    try tauto.
  - apply Bool.eqb_true_iff.
  - apply Z.eqb_eq.
  - apply String.eqb_eq.
  - apply Nat.eqb_eq.
Qed.

(** Whenever [detectFileChanges] returns, every path of the current
    flat map is classified by what the previous flat map holds there:
    absent, the path is new; present with a value that is not the same
    value, it is modified and carries both values; present with the
    same value, it has no entry. The deleted paths are those of the
    previous flat map that the current one lacks. *)
Theorem detectFileChanges_classification :
  forall (previous current : obj) (changes : FileChanges),
    detectFileChanges previous current = Returns changes ->
    exists previousFlat currentFlat,
      flattenObject previous "" = Returns previousFlat
      /\ flattenObject current "" = Returns currentFlat
      /\ (forall path v,
             prop_get currentFlat path = Some v ->
             ~ In path (fc_deletedKeys changes)
             /\ match prop_get previousFlat path with
                | None =>
                    In (mkNewKey path v) (fc_newKeys changes)
                    /\ forall m,
                        In m (fc_modifiedKeys changes) -> mk_key m <> path
                | Some old =>
                    (forall n, In n (fc_newKeys changes) -> nk_key n <> path)
                    /\ ((same_value old v
                         /\ forall m,
                             In m (fc_modifiedKeys changes) ->
                             mk_key m <> path)
                        \/ (~ same_value old v
                            /\ In (mkModifiedKey path old v)
                                 (fc_modifiedKeys changes)))
                end)
      /\ (forall path,
             In path (fc_deletedKeys changes)
             <-> In path (own_keys previousFlat)
                 /\ ~ In path (own_keys currentFlat)).
Proof.
  intros previous current changes Hrun.
  destruct (detectFileChanges_lists previous current changes Hrun)
    as (previousFlat & currentFlat & Hprevious & Hcurrent & _ & Hnew & Hmod
        & Hdel).
  exists previousFlat, currentFlat.
  split; [exact Hprevious | ]. split; [exact Hcurrent | ].
  assert (Hdeleted : forall path,
             In path (fc_deletedKeys changes)
             <-> In path (own_keys previousFlat)
                 /\ ~ In path (own_keys currentFlat)).
  { intros path. rewrite Hdel, filter_In, negb_true_iff.
    rewrite <- (hasOwnProperty_true currentFlat path).
    destruct (hasOwnProperty currentFlat path); intuition congruence. }
  split; [ | exact Hdeleted].
  intros path v Hget. split.
  { rewrite Hdeleted. intros [_ Hnot]. apply Hnot.
    eapply prop_get_In_keys. exact Hget. }
  assert (Hnd : NoDup (own_keys currentFlat))
    by (eapply flattenValue_NoDup; exact Hcurrent).
  assert (Hin : In (path, v) currentFlat) by now apply prop_get_Some_In.
  assert (Hunique : forall v', In (path, v') currentFlat -> v' = v).
  { intros v' Hin'. apply (In_prop_get _ _ _ Hnd) in Hin'. congruence. }
  rewrite Hnew, Hmod.
  destruct (prop_get previousFlat path) as [old | ] eqn:Hprev.
  - split.
    + intros n Hn Hkey. apply in_flat_map in Hn.
      destruct Hn as ([k x] & _ & Hn). unfold new_of, hasOwnProperty in Hn.
      cbn [fst snd] in Hn.
      destruct (prop_get previousFlat k) eqn:Hk; [contradiction | ].
      destruct Hn as [<- | []]. simpl in Hkey. congruence.
    + destruct (strict_eq old v) eqn:Heq.
      * left. split; [now apply strict_eq_same_value | ].
        intros m Hm Hkey. apply in_flat_map in Hm.
        destruct Hm as ([k x] & Hkx & Hm). unfold modified_of in Hm.
        cbn [fst snd] in Hm.
        destruct (prop_get previousFlat k) as [old' | ] eqn:Hk;
          [ | contradiction].
        destruct (strict_eq old' x) eqn:Heq'; [contradiction | ].
        destruct Hm as [<- | []]. simpl in Hkey. subst k.
        apply Hunique in Hkx. congruence.
      * right. split.
        -- intros Hsame. apply strict_eq_same_value in Hsame. congruence.
        -- apply in_flat_map. exists (path, v). split; [exact Hin | ].
           unfold modified_of. cbn [fst snd]. rewrite Hprev, Heq. now left.
  - split.
    + apply in_flat_map. exists (path, v). split; [exact Hin | ].
      unfold new_of, hasOwnProperty. cbn [fst snd]. rewrite Hprev.
      now left.
    + intros m Hm Hkey. apply in_flat_map in Hm.
      destruct Hm as ([k x] & _ & Hm). unfold modified_of in Hm.
      cbn [fst snd] in Hm.
      destruct (prop_get previousFlat k) as [old' | ] eqn:Hk;
        [ | contradiction].
      destruct (strict_eq old' x); [contradiction | ].
      destruct Hm as [<- | []]. simpl in Hkey. congruence.
Qed.

Lemma detectFileChanges_classification_witness :
  exists previousFlat currentFlat,
    flattenObject [("count", VNum 1); ("old", VStr "x")] ""
    = Returns previousFlat
    /\ flattenObject [("count", VStr "1"); ("new", VNull)] ""
       = Returns currentFlat
    /\ (forall path v,
           prop_get currentFlat path = Some v ->
           ~ In path ["old"]
           /\ match prop_get previousFlat path with
              | None =>
                  In (mkNewKey path v) [mkNewKey "new" VNull]
                  /\ forall m,
                      In m [mkModifiedKey "count" (VNum 1) (VStr "1")] ->
                      mk_key m <> path
              | Some old =>
                  (forall n, In n [mkNewKey "new" VNull] -> nk_key n <> path)
                  /\ ((same_value old v
                       /\ forall m,
                           In m [mkModifiedKey "count" (VNum 1) (VStr "1")] ->
                           mk_key m <> path)
                      \/ (~ same_value old v
                          /\ In (mkModifiedKey path old v)
                               [mkModifiedKey "count" (VNum 1) (VStr "1")]))
              end)
    /\ (forall path,
           In path ["old"]
           <-> In path (own_keys previousFlat)
               /\ ~ In path (own_keys currentFlat)).
Proof.
  apply (detectFileChanges_classification
           [("count", VNum 1); ("old", VStr "x")]
           [("count", VStr "1"); ("new", VNull)]
           (mkFileChanges true [mkNewKey "new" VNull]
              [mkModifiedKey "count" (VNum 1) (VStr "1")] ["old"])).
  reflexivity.
Defined.

(** ** A source that did not change *)


Lemma arrays_of_entries (props : obj) :
  flat_map (fun '(_, x) => arrays_of x) props = [] ->
  Forall (fun kv => arrays_of (snd kv) = []) props.
Proof.
  induction props as [ | [k x] rest IH]; intros H; constructor.
  - simpl in H. now apply app_eq_nil in H.
  - apply IH. simpl in H. now apply app_eq_nil in H.
Qed.

Lemma clone_map_fixed {A : Type} (clone_elt : A -> nat -> A * nat)
    (m : jsobject A) :
  Forall (fun kv => forall n, clone_elt (snd kv) n = (snd kv, n)) m ->
  forall n, clone_map clone_elt m n = (m, n).
Proof.
  induction 1 as [ | [k x] rest Hx _ IH]; intros n; [reflexivity | ].
  simpl in *. now rewrite Hx, IH.
Qed.

(** A tree that holds no array is its own clone, *)
Lemma json_clone_without_arrays (v : value) :
  arrays_of v = [] -> forall n, json_clone v n = (v, n).
Proof.
  induction v as [ | b | z | s | id len props _ | props IH] using value_ind;
    intros Harrays n; try reflexivity; [discriminate | ].
  simpl in *. rewrite clone_map_fixed; [reflexivity | ].
  apply arrays_of_entries in Harrays.
  rewrite Forall_forall in *. intros kv Hkv. apply IH; auto.
Qed.



Lemma clone_doc_without_arrays (d : obj) (n : nat) :
  arrays_of (VObj d) = [] -> clone_doc d n = (d, n).
Proof.
  intros Harrays. unfold clone_doc.
  now rewrite (json_clone_without_arrays (VObj d) Harrays).
Qed.

Lemma parse_files_without_arrays (texts : files) (n : nat) :
  (forall fileName doc,
      In (fileName, doc) texts -> arrays_of (VObj doc) = []) ->
  parse_files texts n = (texts, n).
Proof.
  intros Harrays. unfold parse_files. apply clone_map_fixed.
  apply Forall_forall. intros [fileName doc] Hin m.
  apply clone_doc_without_arrays. eapply Harrays. exact Hin.
Qed.


Lemma strict_eq_same (v : value) : is_mapping v = false -> strict_eq v v = true.
Proof.
  destruct v; simpl; try reflexivity; try discriminate; intros _.
  - now destruct b.
  - apply Z.eqb_refl.
  - apply String.eqb_refl.
  - apply Nat.eqb_refl.
Qed.

(** A document compared with itself has no change, provided that it can
    be flattened and that no key of its flat map is [hasOwnProperty]. *)
Lemma detectFileChanges_same (d flat : obj) :
  flattenObject d "" = Returns flat ->
  prop_get flat "hasOwnProperty" = None ->
  detectFileChanges d d = Returns no_file_changes.
Proof.
  intros Hflat Hown. unfold detectFileChanges. rewrite Hflat.
  cbn [and_then].
  pose proof (flattenValue_NoDup _ _ _ Hflat) as Hnd.
  pose proof (flattenValue_leaves _ _ _ Hflat) as Hleaves.
  assert (Hcall : forall key,
             In key (own_keys flat) ->
             call_hasOwnProperty flat key = Returns true).
  { intros key Hin. unfold call_hasOwnProperty. rewrite Hown.
    now rewrite (proj2 (hasOwnProperty_true flat key) Hin). }
  rewrite fold_throwing_fixed.
  - cbn [and_then]. apply fold_throwing_fixed.
    intros key Hin. unfold detect_previous_key.
    now rewrite (Hcall key Hin).
  - intros [key v] Hin. unfold detect_current_entry.
    rewrite Hcall by (apply in_map_iff; now exists (key, v)).
    cbn [and_then negb]. rewrite (In_prop_get flat key v Hnd Hin).
    rewrite strict_eq_same; [reflexivity | ].
    unfold values_satisfy in Hleaves. rewrite Forall_forall in Hleaves.
    apply (Hleaves (key, v) Hin).
Qed.

Lemma detectChanges_same (texts : files) :
  NoDup (own_keys texts) ->
  (forall fileName doc,
      In (fileName, doc) texts ->
      exists flat,
        flattenObject doc "" = Returns flat
        /\ prop_get flat "hasOwnProperty" = None) ->
  detectChanges texts texts = Returns no_changes.
Proof.
  intros Hnd Hdocs. unfold detectChanges.
  rewrite fold_left_fixed.
  - apply fold_throwing_fixed. intros [fileName doc] Hin.
    unfold detect_existing_file.
    rewrite (In_prop_get texts fileName doc Hnd Hin).
    destruct (Hdocs fileName doc Hin) as (flat & Hflat & Hown).
    now rewrite (detectFileChanges_same doc flat Hflat Hown).
  - intros fileName Hin. unfold detect_new_file.
    apply hasOwnProperty_true in Hin. unfold hasOwnProperty in Hin.
    now destruct (prop_get texts fileName).
Qed.

(** A source tree whose documents hold no array, compared with a second
    reading of the same texts, gives the empty change record, provided
    that every document can be flattened and that no key of a flat map
    is [hasOwnProperty]. *)
Theorem detectChanges_same_text :
  forall (texts : files) (next next' : nat),
    NoDup (own_keys texts) ->
    (forall fileName doc,
        In (fileName, doc) texts ->
        arrays_of (VObj doc) = []
        /\ exists flat,
            flattenObject doc "" = Returns flat
            /\ prop_get flat "hasOwnProperty" = None) ->
    detectChanges (fst (parse_files texts next))
      (fst (parse_files texts next'))
    = Returns no_changes.
Proof.
  intros texts next next' Hnd Hdocs.
  rewrite !parse_files_without_arrays
    by (intros f d H; now apply (Hdocs f d)).
  apply detectChanges_same; [exact Hnd | ].
  intros f d H. now apply (Hdocs f d).
Qed.

Lemma detectChanges_same_text_witness :
  detectChanges
    (fst (parse_files
            [("a.json", [("greeting", VStr "Hi"); ("note", VNull);
                         ("menu", VObj [("open", VStr "Open")])])] 0))
    (fst (parse_files
            [("a.json", [("greeting", VStr "Hi"); ("note", VNull);
                         ("menu", VObj [("open", VStr "Open")])])] 7))
  = Returns no_changes.
Proof.
  apply detectChanges_same_text.
  - repeat (constructor; [simpl; intuition discriminate | ]). constructor.
  - intros fileName doc [[= <- <-] | []].
    split; [reflexivity | ]. eexists. split; reflexivity.
Defined.



(** ** The content sent for translation *)

Lemma set_in_file_other (g fileName : string) (content content' : files)
    (key : string) (v : value) :
  g <> fileName ->
  set_in_file g content key v = Returns content' ->
  prop_get content' fileName = prop_get content fileName.
Proof.
  intros Hne. unfold set_in_file.
  destruct (prop_get content g) as [doc | ]; [ | discriminate].
  intros Hrun. apply and_then_returns in Hrun.
  destruct Hrun as (doc' & _ & [= <-]). now rewrite prop_get_set_ne.
Qed.

(** The round of a modified file leaves the other documents of the
    content alone. *)
Lemma add_modified_file_other (changes : Changes) (content content' : files)
    (g fileName : string) :
  g <> fileName ->
  add_modified_file changes content g = Returns content' ->
  prop_get content' fileName = prop_get content fileName.
Proof.
  intros Hne. unfold add_modified_file.
  set (content1 := match prop_get content g with
                   | Some _ => content
                   | None => prop_set content g []
                   end).
  assert (H1 : prop_get content1 fileName = prop_get content fileName).
  { unfold content1. destruct (prop_get content g); [reflexivity | ].
    now rewrite prop_get_set_ne. }
  intros Hrun. apply and_then_returns in Hrun.
  destruct Hrun as (content2 & Hnew & Hmod).
  assert (H2 : prop_get content2 fileName = prop_get content fileName).
  { rewrite <- H1.
    destruct (prop_get (newKeys changes) g) as [nks | ];
      [ | now injection Hnew as <-].
    apply (fold_throwing_invariant
             (fun c nk => set_in_file g c (nk_key nk) (nk_value nk))
             (fun c => prop_get c fileName = prop_get content1 fileName)
             nks) with (init := content1); [ | reflexivity | exact Hnew].
    intros s x s' _ Hs Hstep. rewrite <- Hs.
    eapply set_in_file_other; eassumption. }
  rewrite <- H2.
  destruct (prop_get (modifiedKeys changes) g) as [mks | ];
    [ | now injection Hmod as <-].
  apply (fold_throwing_invariant
           (fun c mk => set_in_file g c (mk_key mk) (mk_newValue mk))
           (fun c => prop_get c fileName = prop_get content2 fileName)
           mks) with (init := content2); [ | reflexivity | exact Hmod].
  intros s x s' _ Hs Hstep. rewrite <- Hs.
  eapply set_in_file_other; eassumption.
Qed.

(** The modified files of a change record are documents of the previous
    tree, its new files are not. *)
Lemma detectChanges_names (previousFiles currentFiles : files)
    (changes : Changes) :
  detectChanges previousFiles currentFiles = Returns changes ->
  (forall fileName,
      In fileName (newFiles changes) ->
      In fileName (own_keys currentFiles)
      /\ prop_get previousFiles fileName = None)
  /\ (forall fileName,
         In fileName (modifiedFiles changes) ->
         prop_get previousFiles fileName <> None).
Proof.
  intros Hrun.
  destruct (detectChanges_lists previousFiles currentFiles changes Hrun)
    as (Hnew & Hmod & _).
  split.
  - intros fileName Hin. rewrite Hnew in Hin.
    apply filter_In in Hin as [Hin Htest]. split; [exact Hin | ].
    unfold hasOwnProperty in Htest.
    now destruct (prop_get previousFiles fileName).
  - intros fileName Hin. rewrite Hmod in Hin. unfold own_keys in Hin.
    apply in_map_iff in Hin as ([f c] & <- & Hin).
    apply filter_In in Hin as [_ Htest]. unfold file_changed in Htest.
    cbn [fst snd] in *.
    now destruct (prop_get previousFiles f).
Qed.

(** What the loop over the new files leaves under a file name. *)
Lemma copy_new_files_get (reread : files) (names : list string)
    (fileName : string) :
  forall content content' : files,
    fold_throwing
      (fun (content : files) name =>
         match prop_get reread name with
         | Some doc => Returns (prop_set content name doc)
         | None => Beyond
         end)
      names content
    = Returns content' ->
    prop_get content' fileName
    = if includes names fileName then prop_get reread fileName
      else prop_get content fileName.
Proof.
  induction names as [ | name rest IH]; intros content content'.
  - now intros [= <-].
  - rewrite fold_throwing_cons. intros Hrun.
    apply and_then_returns in Hrun. destruct Hrun as (next & Hstep & Hrun).
    rewrite (IH _ _ Hrun). unfold includes. cbn [existsb].
    fold (includes rest fileName).
    destruct (prop_get reread name) as [doc | ] eqn:Hdoc; [ | discriminate].
    injection Hstep as <-.
    destruct (includes rest fileName); [now rewrite orb_true_r | ].
    rewrite orb_false_r.
    destruct (String.eqb_spec fileName name) as [-> | Hne].
    + now rewrite prop_get_set_eq.
    + now rewrite prop_get_set_ne by congruence.
Qed.

Lemma copy_new_files_reads (reread : files) (names : list string)
    (fileName : string) :
  In fileName names ->
  forall content content' : files,
    fold_throwing
      (fun (content : files) name =>
         match prop_get reread name with
         | Some doc => Returns (prop_set content name doc)
         | None => Beyond
         end)
      names content
    = Returns content' ->
    prop_get reread fileName <> None.
Proof.
  induction names as [ | name rest IH]; intros Hin content content';
    [contradiction | ].
  rewrite fold_throwing_cons. intros Hrun.
  apply and_then_returns in Hrun. destruct Hrun as (next & Hstep & Hrun).
  destruct Hin as [-> | Hin]; [ | now apply (IH Hin next content')].
  now destruct (prop_get reread fileName).
Qed.

Lemma includes_In (l : list string) (x : string) :
  includes l x = true <-> In x l.
Proof.
  unfold includes. rewrite existsb_exists. split.
  - intros (y & Hy & Heq). apply String.eqb_eq in Heq. now subst.
  - intros Hin. exists x. split; [exact Hin | apply String.eqb_refl].
Qed.

(** A document that the previous tree lacks is sent as the second
    reading of the base files has it. *)
Theorem new_document_is_sent_whole :
  forall (previousFiles currentFiles reread content : files)
         (changes : Changes) (fileName : string),
    detectChanges previousFiles currentFiles = Returns changes ->
    contentToTranslate changes reread = Returns content ->
    In fileName (own_keys currentFiles) ->
    prop_get previousFiles fileName = None ->
    exists doc,
      prop_get reread fileName = Some doc
      /\ prop_get content fileName = Some doc.
Proof.
  intros previousFiles currentFiles reread content changes fileName
    Hchanges Hcontent Hcur Hprev.
  destruct (detectChanges_names _ _ _ Hchanges) as [_ Hmods].
  destruct (detectChanges_lists _ _ _ Hchanges) as (Hnew & _ & _).
  assert (Hin : In fileName (newFiles changes)).
  { rewrite Hnew. apply filter_In. split; [exact Hcur | ].
    unfold hasOwnProperty. now rewrite Hprev. }
  unfold contentToTranslate in Hcontent.
  apply and_then_returns in Hcontent.
  destruct Hcontent as (copied & Hcopied & Hcontent).
  pose proof (copy_new_files_get reread (newFiles changes) fileName _ _
                Hcopied) as Hget.
  rewrite (proj2 (includes_In _ _) Hin) in Hget.
  pose proof (copy_new_files_reads reread (newFiles changes) fileName Hin
                _ _ Hcopied) as Hdoc.
  destruct (prop_get reread fileName) as [doc | ]; [ | contradiction].
  exists doc. split; [reflexivity | ]. rewrite <- Hget.
  apply (fold_throwing_invariant (add_modified_file changes)
           (fun c => prop_get c fileName = prop_get copied fileName)
           (modifiedFiles changes)) with (init := copied);
    [ | reflexivity | exact Hcontent].
  intros s g s' Hg Hs Hstep. rewrite <- Hs.
  eapply add_modified_file_other; [ | exact Hstep].
  intros ->. now apply (Hmods fileName).
Qed.

Lemma new_document_is_sent_whole_witness :
  exists doc,
    prop_get Scenario.current_farewell "a.json" = Some doc
    /\ prop_get Scenario.current_farewell "a.json" = Some doc.
Proof.
  apply (new_document_is_sent_whole [] Scenario.current_farewell
           Scenario.current_farewell Scenario.current_farewell
           (mkChanges true ["a.json"] [] [] [] []) "a.json").
  - reflexivity.
  - reflexivity.
  - simpl. now left.
  - reflexivity.
Defined.

Lemma set_in_file_fold {X : Type} (key : X -> string) (val : X -> value)
    (fileName : string) (xs : list X) :
  forall (content : files) (doc : obj),
    prop_get content fileName = Some doc ->
    fold_throwing (fun c x => set_in_file fileName c (key x) (val x)) xs
      content
    = let* doc' :=
        fold_throwing (fun d x => setNestedValue d (key x) (val x)) xs doc in
      Returns (prop_set content fileName doc').
Proof.
  induction xs as [ | x rest IH]; intros content doc Hdoc.
  - rewrite !fold_throwing_nil. simpl. now rewrite prop_set_same.
  - rewrite !fold_throwing_cons. unfold set_in_file at 1. rewrite Hdoc.
    destruct (setNestedValue doc (key x) (val x)) as [d1 | e | ];
      [ | reflexivity ..].
    cbn [and_then].
    rewrite (IH (prop_set content fileName d1) d1)
      by apply prop_get_set_eq.
    destruct (fold_throwing _ rest d1); [ | reflexivity ..].
    cbn [and_then]. now rewrite prop_set_set.
Qed.

Lemma fold_throwing_map {S X Y : Type} (g : X -> Y)
    (body : S -> Y -> completion S) (xs : list X) :
  forall init,
    fold_throwing body (map g xs) init
    = fold_throwing (fun s x => body s (g x)) xs init.
Proof.
  induction xs as [ | x rest IH]; intros init; [reflexivity | ].
  simpl map. rewrite !fold_throwing_cons.
  destruct (body init (g x)); [apply IH | reflexivity ..].
Qed.

(** For a file the content does not hold yet, the round of the loop
    over the modified files adds the document that [unflattenObject]
    builds from the changed paths. *)
Lemma add_modified_file_unflattens (changes : Changes) (content : files)
    (fileName : string) (fileChanges : FileChanges) :
  prop_get (newKeys changes) fileName = Some (fc_newKeys fileChanges) ->
  prop_get (modifiedKeys changes) fileName
  = Some (fc_modifiedKeys fileChanges) ->
  prop_get content fileName = None ->
  add_modified_file changes content fileName
  = let* doc := unflattenObject (changed_entries fileChanges) in
    Returns (prop_set content fileName doc).
Proof.
  intros Hnew Hmod Hnone. unfold add_modified_file.
  rewrite Hnone, Hnew, Hmod.
  rewrite (set_in_file_fold nk_key nk_value fileName _ _ [])
    by apply prop_get_set_eq.
  unfold unflattenObject, changed_entries.
  rewrite fold_throwing_app, fold_throwing_map. cbn [fst snd].
  destruct (fold_throwing
              (fun d x => setNestedValue d (nk_key x) (nk_value x))
              (fc_newKeys fileChanges) []) as [d1 | e | ];
    cbn [and_then]; [ | reflexivity ..].
  rewrite fold_throwing_map. cbn [fst snd].
  rewrite (set_in_file_fold mk_key mk_newValue fileName _ _ d1)
    by apply prop_get_set_eq.
  destruct (fold_throwing
              (fun d x => setNestedValue d (mk_key x) (mk_newValue x))
              (fc_modifiedKeys fileChanges) d1) as [d2 | e | ];
    cbn [and_then]; [ | reflexivity ..].
  now rewrite !prop_set_set.
Qed.

(** The changed paths of a document are paths of its flat map, with the
    values the flat map holds. *)
Lemma changed_entries_current (previous current : obj)
    (fileChanges : FileChanges) :
  detectFileChanges previous current = Returns fileChanges ->
  exists currentFlat,
    flattenObject current "" = Returns currentFlat
    /\ forall k v,
        In (k, v) (changed_entries fileChanges) ->
        prop_get currentFlat k = Some v.
Proof.
  intros Hrun.
  destruct (detectFileChanges_lists previous current fileChanges Hrun)
    as (previousFlat & currentFlat & _ & Hflat & _ & Hnew & Hmod & _).
  exists currentFlat. split; [exact Hflat | ].
  intros k v Hin.
  apply In_prop_get; [eapply flattenValue_NoDup; exact Hflat | ].
  unfold changed_entries in Hin. rewrite Hnew, Hmod in Hin.
  apply in_app_iff in Hin as [Hin | Hin];
    apply in_map_iff in Hin as (x & [= <- <-] & Hin);
    apply in_flat_map in Hin as ([k' v'] & Hentry & Hin).
  - unfold new_of in Hin. cbn [fst snd] in Hin.
    destruct (hasOwnProperty _ k'); [contradiction | ].
    now destruct Hin as [<- | []].
  - unfold modified_of in Hin. cbn [fst snd] in Hin.
    destruct (prop_get _ k') as [old | ]; [ | contradiction].
    destruct (strict_eq old v'); [contradiction | ].
    now destruct Hin as [<- | []].
Qed.

(** For a changed document of both trees whose keys are not empty, have
    no dot and name no member of [Object.prototype], the document sent
    is what [unflattenObject] makes of the changed paths: every new or
    modified key, split at its dots, leads in it to the current value,
    and it has no other leaf. *)
Theorem modified_document_is_sent_sparse :
  forall (previousFiles currentFiles reread content : files)
         (changes : Changes) (fileName : string)
         (previousContent currentContent : obj) (fileChanges : FileChanges),
    NoDup (own_keys currentFiles) ->
    detectChanges previousFiles currentFiles = Returns changes ->
    contentToTranslate changes reread = Returns content ->
    prop_get previousFiles fileName = Some previousContent ->
    prop_get currentFiles fileName = Some currentContent ->
    detectFileChanges previousContent currentContent = Returns fileChanges ->
    fc_hasChanges fileChanges = true ->
    plain_keys (VObj currentContent) ->
    ordinary_keys (VObj currentContent) ->
    let changed := changed_entries fileChanges in
    exists doc,
      prop_get content fileName = Some doc
      /\ unflattenObject changed = Returns doc
      /\ (forall k v, In (k, v) changed ->
                      lookup_path (VObj doc) (split_dot k) = Some v)
      /\ (forall q l,
             lookup_path (VObj doc) q = Some l -> is_mapping l = false ->
             In (join_path q, l) changed).
Proof.
  intros previousFiles currentFiles reread content changes fileName
    previousContent currentContent fileChanges Hnd Hchanges Hcontent Hprev
    Hcur Hfile Hflag Hplain Hord changed.
  destruct (detectChanges_file_record _ _ _ _ _ _ _ Hnd Hprev Hcur Hfile
              Hchanges Hflag) as (Hin & Hnew & Hmod & _).
  destruct (detectChanges_names _ _ _ Hchanges) as [Hnews _].
  destruct (detectChanges_lists _ _ _ Hchanges) as (_ & Hmods & _).
  assert (Hnodup : NoDup (modifiedFiles changes)).
  { rewrite Hmods. now apply NoDup_keys_filter. }
  assert (Hnotnew : includes (newFiles changes) fileName = false).
  { destruct (includes (newFiles changes) fileName) eqn:Hinc;
      [ | reflexivity].
    apply includes_In in Hinc. apply Hnews in Hinc as [_ Hnone].
    congruence. }
  unfold contentToTranslate in Hcontent.
  apply and_then_returns in Hcontent.
  destruct Hcontent as (copied & Hcopied & Hcontent).
  pose proof (copy_new_files_get reread (newFiles changes) fileName _ _
                Hcopied) as Hnone.
  rewrite Hnotnew in Hnone. cbn [prop_get] in Hnone.
  destruct (in_split _ _ Hin) as (before & after & Hsplit).
  rewrite Hsplit in Hcontent, Hnodup.
  apply NoDup_remove_2 in Hnodup.
  rewrite fold_throwing_app in Hcontent.
  apply and_then_returns in Hcontent.
  destruct Hcontent as (c1 & Hbefore & Hcontent).
  rewrite fold_throwing_cons in Hcontent.
  apply and_then_returns in Hcontent.
  destruct Hcontent as (c2 & Hstep & Hafter).
  assert (Hc1 : prop_get c1 fileName = None).
  { rewrite <- Hnone.
    apply (fold_throwing_invariant (add_modified_file changes)
             (fun c => prop_get c fileName = prop_get copied fileName)
             before) with (init := copied); [ | reflexivity | exact Hbefore].
    intros s g s' Hg Hs Hrun. rewrite <- Hs.
    eapply add_modified_file_other; [ | exact Hrun].
    intros ->. apply Hnodup. apply in_app_iff. now left. }
  rewrite (add_modified_file_unflattens changes c1 fileName fileChanges
             Hnew Hmod Hc1) in Hstep.
  apply and_then_returns in Hstep. destruct Hstep as (doc & Hdoc & Hc2).
  injection Hc2 as <-.
  assert (Hfinal : prop_get content fileName = Some doc).
  { rewrite <- (prop_get_set_eq c1 fileName doc).
    apply (fold_throwing_invariant (add_modified_file changes)
             (fun c => prop_get c fileName
                       = prop_get (prop_set c1 fileName doc) fileName)
             after) with (init := prop_set c1 fileName doc);
      [ | reflexivity | exact Hafter].
    intros s g s' Hg Hs Hrun. rewrite <- Hs.
    eapply add_modified_file_other; [ | exact Hrun].
    intros ->. apply Hnodup. apply in_app_iff. now right. }
  destruct (changed_entries_current _ _ _ Hfile)
    as (currentFlat & Hflat & Hpart).
  destruct (sets_within currentContent currentFlat Hplain Hord Hflat
              changed Hpart [] (leaves_within_empty _))
    as (doc' & Hfold & _ & Hreads & Honly & _).
  unfold unflattenObject in Hdoc. fold changed in Hdoc.
  rewrite Hdoc in Hfold. injection Hfold as <-.
  exists doc. split; [exact Hfinal | ]. split; [exact Hdoc | ]. split.
  - intros k v Hkv. apply Hreads. now left.
  - intros q l Hq Hl. destruct (Honly q l Hq Hl) as [Hchanged | Hold];
      [exact Hchanged | ].
    destruct q; simpl in Hold; [ | discriminate].
    injection Hold as <-. discriminate.
Qed.

Lemma modified_document_is_sent_sparse_witness :
  exists doc,
    prop_get [("a.json", [("greeting", VStr "Hello")])] "a.json" = Some doc
    /\ unflattenObject [("greeting", VStr "Hello")] = Returns doc
    /\ (forall k v, In (k, v) [("greeting", VStr "Hello")] ->
                    lookup_path (VObj doc) (split_dot k) = Some v)
    /\ (forall q l,
           lookup_path (VObj doc) q = Some l -> is_mapping l = false ->
           In (join_path q, l) [("greeting", VStr "Hello")]).
Proof.
  apply (modified_document_is_sent_sparse Scenario.previous_greeting
           Scenario.current_greeting Scenario.current_greeting
           [("a.json", [("greeting", VStr "Hello")])]
           (mkChanges true [] ["a.json"] [("a.json", [])]
              [("a.json", [mkModifiedKey "greeting" (VStr "Hi")
                             (VStr "Hello")])]
              [("a.json", [])])
           "a.json"
           [("greeting", VStr "Hi")] [("greeting", VStr "Hello")]
           (mkFileChanges true []
              [mkModifiedKey "greeting" (VStr "Hi") (VStr "Hello")] [])).
  - repeat (constructor; [simpl; intuition discriminate | ]). constructor.
  - reflexivity.
  - reflexivity.
  - reflexivity.
  - reflexivity.
  - reflexivity.
  - reflexivity.
  - simpl. repeat split; try reflexivity;
      repeat (constructor; [simpl; intuition discriminate | ]);
      constructor.
  - simpl. repeat split; reflexivity.
Defined.

(** The record of every modified file: the document it has in both
    trees and the change set of the two. *)
Lemma detectChanges_modified_records (previousFiles currentFiles : files)
    (changes : Changes) (fileName : string) :
  NoDup (own_keys currentFiles) ->
  detectChanges previousFiles currentFiles = Returns changes ->
  In fileName (modifiedFiles changes) ->
  exists previousContent currentContent fileChanges,
    prop_get previousFiles fileName = Some previousContent
    /\ In (fileName, currentContent) currentFiles
    /\ detectFileChanges previousContent currentContent
       = Returns fileChanges
    /\ prop_get (newKeys changes) fileName = Some (fc_newKeys fileChanges)
    /\ prop_get (modifiedKeys changes) fileName
       = Some (fc_modifiedKeys fileChanges).
Proof.
  intros Hnd Hrun Hin.
  destruct (detectChanges_lists _ _ _ Hrun) as (_ & Hmods & _).
  rewrite Hmods in Hin. unfold own_keys in Hin.
  apply in_map_iff in Hin as ([f c] & Heq & Hin). cbn [fst] in Heq.
  subst f. apply filter_In in Hin as [Hin Htest].
  unfold file_changed in Htest. cbn [fst snd] in Htest.
  destruct (prop_get previousFiles fileName) as [p | ] eqn:Hprev;
    [ | discriminate].
  destruct (detectFileChanges p c) as [fc | e | ] eqn:Hfile;
    try discriminate.
  exists p, c, fc. split; [reflexivity | ]. split; [exact Hin | ].
  split; [exact Hfile | ].
  destruct (detectChanges_file_record previousFiles currentFiles fileName
              p c fc changes Hnd Hprev (In_prop_get _ _ _ Hnd Hin) Hfile
              Hrun Htest) as (_ & H1 & H2 & _).
  auto.
Qed.

Lemma modified_files_return (previousFiles currentFiles : files)
    (changes : Changes) :
  NoDup (own_keys currentFiles) ->
  detectChanges previousFiles currentFiles = Returns changes ->
  (forall fileName doc,
      In (fileName, doc) currentFiles ->
      prop_get previousFiles fileName <> None ->
      plain_keys (VObj doc) /\ ordinary_keys (VObj doc)) ->
  forall names : list string,
    NoDup names ->
    (forall fileName, In fileName names ->
                      In fileName (modifiedFiles changes)) ->
    forall content : files,
      (forall fileName, In fileName names ->
                        prop_get content fileName = None) ->
      exists content',
        fold_throwing (add_modified_file changes) names content
        = Returns content'
        /\ forall fileName,
            In fileName (own_keys content')
            <-> In fileName (own_keys content) \/ In fileName names.
Proof.
  intros Hnd Hrun Hkeys.
  induction names as [ | name rest IH]; intros Hnames Hmods content Hfresh.
  - exists content. split; [reflexivity | ]. simpl. tauto.
  - inversion Hnames as [ | ? ? Hnotin Hrest]; subst.
    destruct (detectChanges_modified_records _ _ _ name Hnd Hrun
                (Hmods name (or_introl eq_refl)))
      as (p & c & fc & Hprev & Hcur & Hfile & Hnew & Hmod).
    destruct (Hkeys name c Hcur) as [Hplain Hord]; [congruence | ].
    destruct (changed_entries_current _ _ _ Hfile)
      as (currentFlat & Hflat & Hpart).
    destruct (sets_within c currentFlat Hplain Hord Hflat
                (changed_entries fc) Hpart [] (leaves_within_empty _))
      as (doc & Hdoc & _).
    rewrite fold_throwing_cons.
    rewrite (add_modified_file_unflattens changes content name fc Hnew Hmod)
      by (apply Hfresh; now left).
    unfold unflattenObject. rewrite Hdoc. cbn [and_then].
    destruct (IH Hrest (fun f H => Hmods f (or_intror H))
                (prop_set content name doc))
      as (content' & Hfold & Hnamed).
    { intros f Hf. rewrite prop_get_set_ne.
      - apply Hfresh. now right.
      - intros ->. contradiction. }
    exists content'. split; [exact Hfold | ].
    intros f. rewrite Hnamed, In_own_keys_set. simpl. intuition congruence.
Qed.

(** Over a run whose second reading of the base files still has every
    new document, and whose documents present in both trees have keys
    that are not empty, have no dot and name no member of
    [Object.prototype], the delta builder returns, and the content it
    builds holds the new files and the modified files, and no other. *)
Theorem contentToTranslate_returns :
  forall (previousFiles currentFiles reread : files) (changes : Changes),
    NoDup (own_keys currentFiles) ->
    detectChanges previousFiles currentFiles = Returns changes ->
    (forall fileName,
        In fileName (own_keys currentFiles) ->
        prop_get previousFiles fileName = None ->
        prop_get reread fileName <> None) ->
    (forall fileName doc,
        In (fileName, doc) currentFiles ->
        prop_get previousFiles fileName <> None ->
        plain_keys (VObj doc) /\ ordinary_keys (VObj doc)) ->
    exists content,
      contentToTranslate changes reread = Returns content
      /\ forall fileName,
          In fileName (own_keys content)
          <-> In fileName (newFiles changes)
              \/ In fileName (modifiedFiles changes).
Proof.
  intros previousFiles currentFiles reread changes Hnd Hrun Hreread Hkeys.
  destruct (detectChanges_names _ _ _ Hrun) as [Hnews Hmods].
  destruct (detectChanges_lists _ _ _ Hrun) as (_ & Hlist & _).
  unfold contentToTranslate.
  assert (Hcopy : forall names content,
             (forall f, In f names -> In f (newFiles changes)) ->
             exists copied,
               fold_throwing
                 (fun (content : files) name =>
                    match prop_get reread name with
                    | Some doc => Returns (prop_set content name doc)
                    | None => Beyond
                    end)
                 names content
               = Returns copied
               /\ forall f, In f (own_keys copied)
                            <-> In f (own_keys content) \/ In f names).
  { induction names as [ | name rest IH]; intros content Hsub.
    - exists content. split; [reflexivity | ]. simpl. tauto.
    - rewrite fold_throwing_cons.
      destruct (Hnews name (Hsub name (or_introl eq_refl))) as [Hc Hp].
      destruct (prop_get reread name) as [doc | ] eqn:Hdoc;
        [ | now destruct (Hreread name Hc Hp)].
      cbn [and_then].
      destruct (IH (prop_set content name doc)
                  (fun f H => Hsub f (or_intror H)))
        as (copied & Hfold & Hnamed).
      exists copied. split; [exact Hfold | ].
      intros f. rewrite Hnamed, In_own_keys_set. simpl. intuition congruence. }
  destruct (Hcopy (newFiles changes) [] (fun f H => H))
    as (copied & Hcopied & Hnamed).
  rewrite Hcopied. cbn [and_then].
  destruct (modified_files_return previousFiles currentFiles changes Hnd Hrun
              Hkeys (modifiedFiles changes)) with (content := copied)
    as (content & Hfold & Hall).
  - rewrite Hlist. now apply NoDup_keys_filter.
  - auto.
  - intros f Hf. apply prop_get_None. rewrite Hnamed. simpl.
    intros [[] | Hnew]. apply Hnews in Hnew as [_ Hnone].
    now apply (Hmods f).
  - exists content. split; [exact Hfold | ].
    intros f. rewrite Hall, Hnamed. simpl. tauto.
Qed.

Lemma contentToTranslate_returns_witness :
  exists content,
    contentToTranslate
      (mkChanges true [] ["a.json"] [("a.json", [])]
         [("a.json", [mkModifiedKey "greeting" (VStr "Hi") (VStr "Hello")])]
         [("a.json", [])])
      Scenario.current_greeting = Returns content
    /\ forall fileName,
        In fileName (own_keys content)
        <-> In fileName
              (newFiles
                 (mkChanges true [] ["a.json"] [("a.json", [])]
                    [("a.json", [mkModifiedKey "greeting" (VStr "Hi")
                                   (VStr "Hello")])]
                    [("a.json", [])]))
            \/ In fileName
                 (modifiedFiles
                    (mkChanges true [] ["a.json"] [("a.json", [])]
                       [("a.json", [mkModifiedKey "greeting" (VStr "Hi")
                                      (VStr "Hello")])]
                       [("a.json", [])])).
Proof.
  apply (contentToTranslate_returns Scenario.previous_greeting
           Scenario.current_greeting Scenario.current_greeting).
  - repeat (constructor; [simpl; intuition discriminate | ]). constructor.
  - reflexivity.
  - intros fileName [<- | []]. discriminate.
  - intros fileName doc [[= <- <-] | []] _.
    simpl. repeat split; try reflexivity;
      repeat (constructor; [simpl; intuition discriminate | ]);
      constructor.
Defined.
(** ** The deep merge *)

(** What one round of the loop of [deepMerge] leaves under its key and
    under the other keys, when it returns. *)
Lemma merge_loop_round (result result' : obj) (k : string) (v : value) :
  (if is_mapping v then
     match prop_get result k with
     | Some existing =>
         if is_object existing
         then let* merged := deepMergeValue v existing in
              js_assign result k (VObj merged)
         else js_assign result k v
     | None =>
         if String.eqb k "__proto__" then Beyond else js_assign result k v
     end
   else js_assign result k v) = Returns result' ->
  merge_result (prop_get result k) k v (prop_get result' k)
  /\ forall key, k <> key -> prop_get result' key = prop_get result key.
Proof.
  intros Hstep.
  assert (Hassign : forall x,
             js_assign result k x = Returns result' ->
             (forall key, k <> key ->
                          prop_get result' key = prop_get result key)
             /\ match prop_get result k with
                | Some _ => prop_get result' k = Some x
                | None =>
                    if String.eqb k "__proto__" then prop_get result' k = None
                    else prop_get result' k = Some x
                end).
  { intros x Hx. split.
    - intros key Hne. eapply js_assign_other; eassumption.
    - destruct (js_assign_cases _ _ _ _ Hx)
        as [(old & Hget & ->) | [(Hget & Hne & ->) | (Hget & -> & _ & ->)]];
        rewrite Hget.
      + apply prop_get_set_eq.
      + destruct (String.eqb_spec k "__proto__"); [contradiction | ].
        rewrite prop_get_define by exact Hget. now rewrite String.eqb_refl.
      + reflexivity. }
  unfold merge_result.
  destruct (is_mapping v) eqn:Hv.
  - destruct (prop_get result k) as [old | ] eqn:Hget.
    + destruct (is_object old) eqn:Hold; cbn [andb].
      * apply and_then_returns in Hstep.
        destruct Hstep as (merged & Hmerged & Hstep).
        destruct (Hassign _ Hstep) as [Hother Hk]. rewrite ?Hget in Hk.
        split; [eauto | exact Hother].
      * destruct (Hassign _ Hstep) as [Hother Hk]. rewrite ?Hget in Hk.
        split; [exact Hk | exact Hother].
    + destruct (String.eqb_spec k "__proto__") as [-> | Hne];
        [discriminate | ].
      destruct (Hassign _ Hstep) as [Hother Hk]. rewrite ?Hget in Hk.
      destruct (String.eqb_spec k "__proto__"); [contradiction | ].
      split; [exact Hk | exact Hother].
  - destruct (Hassign _ Hstep) as [Hother Hk].
    split; [ | exact Hother].
    destruct (prop_get result k) as [old | ]; exact Hk.
Qed.

(** What the loop of [deepMerge] leaves under every key, when it
    returns. *)
Lemma merge_loop_get (entries : list (string * value)) :
  NoDup (own_keys entries) ->
  forall result merged,
    merge_loop deepMergeValue entries result = Returns merged ->
    forall key,
      match prop_get entries key with
      | Some new =>
          merge_result (prop_get result key) key new (prop_get merged key)
      | None => prop_get merged key = prop_get result key
      end.
Proof.
  induction entries as [ | [k v] rest IH]; intros Hnd result merged Hrun key.
  - injection Hrun as <-. reflexivity.
  - inversion Hnd as [ | ? ? Hnotin Hnd']; subst.
    cbn [merge_loop] in Hrun. apply and_then_returns in Hrun.
    destruct Hrun as (result' & Hstep & Hrun).
    destruct (merge_loop_round _ _ _ _ Hstep) as [Hk Hother].
    specialize (IH Hnd' result' merged Hrun key). cbn [prop_get].
    destruct (String.eqb_spec k key) as [<- | Hne].
    + apply prop_get_None in Hnotin. rewrite Hnotin in IH.
      now rewrite IH.
    + now rewrite (Hother key Hne) in IH.
Qed.

(** The rule of the merge, key by key: a key of the new subtree holds
    the recursive merge when the new value is a nested mapping and the
    existing value an object, and the new value otherwise, except for
    the key [__proto__] where the target has none of its own, which
    stores nothing; any other key holds what the target held. *)
Theorem deepMerge_rule :
  forall (target source merged : obj) (key : string),
    NoDup (own_keys source) ->
    deepMerge target source = Returns merged ->
    match prop_get source key with
    | Some new =>
        merge_result (prop_get target key) key new (prop_get merged key)
    | None => prop_get merged key = prop_get target key
    end.
Proof.
  intros target source merged key Hnd Hrun.
  now apply (merge_loop_get source Hnd target merged).
Qed.

Lemma deepMerge_rule_witness :
  merge_result
    (prop_get [("menu", VObj [("open", VStr "Abrir")])] "menu") "menu"
    (VObj [("close", VStr "Cerrar")])
    (prop_get
       [("menu", VObj [("open", VStr "Abrir"); ("close", VStr "Cerrar")])]
       "menu").
Proof.
  apply (deepMerge_rule [("menu", VObj [("open", VStr "Abrir")])]
           [("menu", VObj [("close", VStr "Cerrar")])]
           [("menu", VObj [("open", VStr "Abrir"); ("close", VStr "Cerrar")])]
           "menu").
  - repeat (constructor; [simpl; intuition discriminate | ]). constructor.
  - reflexivity.
Defined.

Lemma merge_loop_new_leaf (q : list string) :
  forall (source start merged : obj) (l : value),
    merge_loop deepMergeValue source start = Returns merged ->
    unique_keys (VObj source) ->
    forallb (fun k => negb (String.eqb k "__proto__")) q = true ->
    lookup_path (VObj source) q = Some l -> is_mapping l = false ->
    lookup_path (VObj merged) q = Some l.
Proof.
  induction q as [ | k q' IH];
    intros source start merged l Hrun Hunique Hproto Hq Hl.
  - simpl in Hq. injection Hq as <-. discriminate.
  - destruct Hunique as [Hnd Hdeep]. cbn [lookup_path] in *.
    simpl in Hproto. apply andb_prop in Hproto as [Hk Hproto].
    pose proof (merge_loop_get source Hnd start merged Hrun k) as Hget.
    destruct (prop_get source k) as [x | ] eqn:Hx; [ | discriminate].
    unfold merge_result in Hget.
    destruct (prop_get start k) as [old | ].
    + destruct (is_mapping x && is_object old) eqn:Hboth.
      * destruct Hget as (m & Hm & ->).
        apply andb_prop in Hboth as [Hmap _].
        destruct x as [ | | | | | xprops]; try discriminate.
        cbn [deepMergeValue] in Hm.
        apply (IH xprops (spread old) m l Hm); auto.
        apply (all_values_In unique_keys source k); [exact Hdeep | ].
        now apply prop_get_Some_In.
      * now rewrite Hget.
    + destruct (String.eqb k "__proto__"); [discriminate | ].
      now rewrite Hget.
Qed.

(** New values win: every leaf of the new subtree whose path has no key
    [__proto__] is found in the merge at the path it has in the new
    subtree. *)
Theorem deepMerge_new_leaves_win :
  forall (target source merged : obj) (q : list string) (l : value),
    deepMerge target source = Returns merged ->
    unique_keys (VObj source) ->
    forallb (fun k => negb (String.eqb k "__proto__")) q = true ->
    lookup_path (VObj source) q = Some l -> is_mapping l = false ->
    lookup_path (VObj merged) q = Some l.
Proof.
  intros target source merged q l.
  apply (merge_loop_new_leaf q source target merged l).
Qed.

Lemma deepMerge_new_leaves_win_witness :
  lookup_path (VObj [("menu", VObj [("open", VStr "Abre")])])
    ["menu"; "open"] = Some (VStr "Abre").
Proof.
  apply (deepMerge_new_leaves_win [("menu", VObj [("open", VStr "Abrir")])]
           [("menu", VObj [("open", VStr "Abre")])]).
  - reflexivity.
  - simpl. repeat split;
      repeat (constructor; [simpl; intuition discriminate | ]);
      constructor.
  - reflexivity.
  - reflexivity.
  - reflexivity.
Defined.

Lemma merge_loop_old_leaf (q : list string) :
  forall (source target merged : obj) (l : value),
    merge_loop deepMergeValue source target = Returns merged ->
    unique_keys (VObj source) ->
    lookup_path (VObj target) q = Some l -> is_mapping l = false ->
    passes_by (VObj source) q = true ->
    lookup_path (VObj merged) q = Some l.
Proof.
  induction q as [ | k q' IH];
    intros source target merged l Hrun Hunique Hq Hl Hpass;
    [discriminate | ].
  destruct Hunique as [Hnd Hdeep]. cbn [lookup_path passes_by] in *.
  pose proof (merge_loop_get source Hnd target merged Hrun k) as Hget.
  destruct (prop_get source k) as [x | ] eqn:Hx;
    [ | now rewrite Hget].
  apply andb_prop in Hpass as [Hmap Hpass]. unfold merge_result in Hget.
  destruct (prop_get target k) as [old | ]; [ | discriminate].
  destruct q' as [ | k' q'']; [discriminate | ].
  destruct old as [ | | | | | oprops]; try discriminate.
  rewrite Hmap in Hget. cbn [is_object andb] in Hget.
  destruct Hget as (m & Hm & ->).
  destruct x as [ | | | | | xprops]; try discriminate.
  cbn [deepMergeValue spread] in Hm.
  apply (IH xprops oprops m l Hm); auto.
  apply (all_values_In unique_keys source k); [exact Hdeep | ].
  now apply prop_get_Some_In.
Qed.

(** What the new subtree passes by is kept: a leaf of the target stays
    at its path when the new subtree has, along that path, nothing but
    mappings that stop before its end. *)
Theorem deepMerge_keeps_what_it_passes_by :
  forall (target source merged : obj) (q : list string) (l : value),
    deepMerge target source = Returns merged ->
    unique_keys (VObj source) ->
    lookup_path (VObj target) q = Some l -> is_mapping l = false ->
    passes_by (VObj source) q = true ->
    lookup_path (VObj merged) q = Some l.
Proof.
  intros target source merged q l.
  apply (merge_loop_old_leaf q source target merged l).
Qed.

Lemma deepMerge_keeps_what_it_passes_by_witness :
  lookup_path
    (VObj [("menu", VObj [("open", VStr "Abre"); ("close", VStr "Cerrar")])])
    ["menu"; "close"] = Some (VStr "Cerrar").
Proof.
  apply (deepMerge_keeps_what_it_passes_by
           [("menu", VObj [("open", VStr "Abrir"); ("close", VStr "Cerrar")])]
           [("menu", VObj [("open", VStr "Abre")])]).
  - reflexivity.
  - simpl. repeat split;
      repeat (constructor; [simpl; intuition discriminate | ]);
      constructor.
  - reflexivity.
  - reflexivity.
  - reflexivity.
Defined.

(** ** Deleting a nested key *)

(** Deleting a path leaves alone what a diverging path leads to. *)
Lemma delete_path_diverge (keys : list string) :
  forall q v v',
    diverge keys q = true -> delete_path v keys = Returns v' ->
    lookup_path v' q = lookup_path v q.
Proof.
  induction keys as [ | k rest IH]; intros q v v' Hdiv Hdel;
    [discriminate | ].
  destruct q as [ | k' q']; [discriminate | ].
  destruct (is_mapping v) eqn:Hv.
  2:{ pose proof (delete_path_not_mapping _ _ _ Hv Hdel) as Hv'.
      cbn [lookup_path]. destruct v; try discriminate;
        destruct v'; try discriminate; reflexivity. }
  destruct v as [ | | | | | o]; try discriminate.
  rewrite diverge_cons in Hdiv.
  destruct rest as [ | k2 r2].
  - simpl in Hdel. injection Hdel as <-. cbn [lookup_path].
    destruct (String.eqb_spec k k') as [<- | Hne]; [discriminate | ].
    now rewrite prop_get_delete_ne.
  - rewrite delete_path_cons in Hdel.
    apply and_then_returns in Hdel. destruct Hdel as (read & Hget & Hdel).
    apply js_get_object in Hget.
    destruct read as [child | ]; [ | now injection Hdel as <-].
    destruct (truthy child); [ | now injection Hdel as <-].
    apply and_then_returns in Hdel.
    destruct Hdel as (child' & Hchild & [= <-]).
    cbn [js_replace lookup_path].
    destruct (String.eqb_spec k k') as [<- | Hne].
    + rewrite prop_get_set_eq, Hget. eapply IH; eassumption.
    + now rewrite prop_get_set_ne.
Qed.

(** Whenever [deleteNestedKey] returns, every path that diverges from
    the key leads to what it led to before. *)
Theorem deleteNestedKey_keeps_other_paths :
  forall (o o' : obj) (key : string) (q : list string),
    deleteNestedKey o key = Returns o' ->
    diverge (split_dot key) q = true ->
    lookup_path (VObj o') q = lookup_path (VObj o) q.
Proof.
  intros o o' key q Hdel Hdiv. apply deleteNestedKey_delete_path in Hdel.
  eapply delete_path_diverge; eassumption.
Qed.

Lemma deleteNestedKey_keeps_other_paths_witness :
  lookup_path
    (VObj [("tags", VArray 0 2 [("1", VStr "b")]);
           ("menu", VObj [("open", VStr "Abrir")])])
    ["menu"; "open"]
  = lookup_path
      (VObj [("tags", VArr 0 [VStr "a"; VStr "b"]);
             ("menu", VObj [("open", VStr "Abrir")])])
      ["menu"; "open"].
Proof.
  apply (deleteNestedKey_keeps_other_paths
           [("tags", VArr 0 [VStr "a"; VStr "b"]);
            ("menu", VObj [("open", VStr "Abrir")])]
           [("tags", VArray 0 2 [("1", VStr "b")]);
            ("menu", VObj [("open", VStr "Abrir")])] "tags.0").
  - reflexivity.
  - reflexivity.
Defined.

(** Deleting below a value that is no object returns that value. *)
Lemma delete_path_primitive (keys : list string) (v v' : value) :
  is_object v = false -> delete_path v keys = Returns v' -> v' = v.
Proof.
  intros Hv. destruct keys as [ | k [ | k' rest]].
  - now intros [= <-].
  - simpl. destruct v; simpl; try discriminate; try (now intros [= <-]).
    destruct (String.eqb k "length"); [discriminate | ].
    destruct (prop_get _ k); [discriminate | now intros [= <-]].
  - rewrite delete_path_cons. intros Hdel.
    apply and_then_returns in Hdel. destruct Hdel as (read & _ & Hdel).
    destruct read as [child | ]; [ | now injection Hdel as <-].
    destruct (truthy child); [ | now injection Hdel as <-].
    apply and_then_returns in Hdel. destruct Hdel as (child' & _ & [= <-]).
    now destruct v.
Qed.

Lemma js_get_primitive (v child : value) (k : string) :
  is_object v = false -> js_get v k = Returns (Some child) ->
  is_object child = false.
Proof.
  destruct v as [ | b | z | s | id len props | o]; simpl; try discriminate;
    intros _.
  - destruct (inherited [] k); discriminate.
  - destruct (inherited number_prototype k); discriminate.
  - destruct (String.eqb k "length"); [now intros [= <-] | ].
    generalize 0.
    induction s as [ | c s IH]; intros n; cbn [string_chars indexed prop_get].
    + destruct (inherited string_prototype k); discriminate.
    + destruct (String.eqb (index_key n) k); [now intros [= <-] | ].
      apply IH.
Qed.

(** After the object that [v] holds at [k] has been mutated, [v] holds
    the mutated object at [k]. *)
Lemma js_get_replace (v child child' : value) (k : string) :
  js_get v k = Returns (Some child) ->
  (is_object child = false -> child' = child) ->
  js_get (js_replace v k child') k = Returns (Some child').
Proof.
  intros Hget Hsame.
  destruct (is_object v) eqn:Hv.
  - destruct v as [ | | | | id len props | o]; try discriminate.
    + cbn [js_get js_replace] in *.
      destruct (String.eqb k "length") eqn:Hk.
      * cbn [js_get]. rewrite Hk. injection Hget as <-.
        now rewrite Hsame.
      * destruct (prop_get props k) as [x | ] eqn:Hx.
        -- cbn [js_get]. now rewrite Hk, prop_get_set_eq.
        -- destruct (inherited array_prototype k); discriminate.
    + cbn [js_get js_replace]. now rewrite prop_get_set_eq.
  - pose proof (js_get_primitive _ _ _ Hv Hget) as Hchild.
    rewrite (Hsame Hchild).
    destruct v; try discriminate; exact Hget.
Qed.

Lemma truthy_js_replace (v child : value) (k : string) :
  truthy (js_replace v k child) = truthy v.
Proof.
  destruct v; simpl; try reflexivity.
  destruct (String.eqb k "length"); [reflexivity | ].
  now destruct (prop_get props k).
Qed.

(** Deleting a path a second time changes nothing. *)
Lemma delete_path_twice (keys : list string) :
  forall v v',
    delete_path v keys = Returns v' ->
    delete_path v' keys = Returns v' /\ truthy v' = truthy v.
Proof.
  induction keys as [ | k rest IH]; intros v v' Hdel.
  - injection Hdel as <-. auto.
  - destruct rest as [ | k2 r2].
    + cbn [delete_path] in *.
      destruct v as [ | b | z | s | id len props | o];
        cbn [js_delete] in Hdel; try discriminate.
      * injection Hdel as <-. auto.
      * injection Hdel as <-. auto.
      * destruct (String.eqb k "length") eqn:Hk; [discriminate | ].
        destruct (prop_get (indexed 0 (string_chars s)) k) eqn:Hget;
          [discriminate | ].
        injection Hdel as <-. cbn [js_delete]. now rewrite Hk, Hget.
      * destruct (String.eqb k "length") eqn:Hk; [discriminate | ].
        injection Hdel as <-. cbn [js_delete]. rewrite Hk.
        now rewrite prop_delete_absent by apply prop_get_delete_eq.
      * injection Hdel as <-. cbn [js_delete].
        now rewrite prop_delete_absent by apply prop_get_delete_eq.
    + rewrite delete_path_cons in Hdel.
      apply and_then_returns in Hdel. destruct Hdel as (read & Hget & Hdel).
      destruct read as [child | ].
      2:{ injection Hdel as <-. rewrite delete_path_cons, Hget. auto. }
      destruct (truthy child) eqn:Htruthy.
      2:{ injection Hdel as <-.
          rewrite delete_path_cons, Hget. cbn [and_then].
          rewrite Htruthy. auto. }
      apply and_then_returns in Hdel.
      destruct Hdel as (child' & Hchild & [= <-]).
      destruct (IH _ _ Hchild) as [Hagain Hsame].
      assert (Hget' : js_get (js_replace v k child') k
                      = Returns (Some child')).
      { apply (js_get_replace v child); [exact Hget | ].
        intros Hprim. eapply delete_path_primitive; eassumption. }
      split; [ | apply truthy_js_replace].
      rewrite delete_path_cons, Hget'. cbn [and_then].
      rewrite Hsame, Htruthy, Hagain. cbn [and_then].
      f_equal. now apply js_replace_same.
Qed.

(** Deleting a key twice is deleting it once: whenever
    [deleteNestedKey] returns, a second call with the same key returns
    the document as the first call left it. *)
Theorem deleteNestedKey_idempotent :
  forall (o o' : obj) (key : string),
    deleteNestedKey o key = Returns o' ->
    deleteNestedKey o' key = Returns o'.
Proof.
  intros o o' key Hdel. apply deleteNestedKey_delete_path in Hdel.
  apply delete_path_twice in Hdel as [Hagain _].
  unfold deleteNestedKey. now rewrite Hagain.
Qed.

Lemma deleteNestedKey_idempotent_witness :
  deleteNestedKey [("tags", VArray 0 2 [("1", VStr "b")])] "tags.0"
  = Returns [("tags", VArray 0 2 [("1", VStr "b")])].
Proof.
  apply (deleteNestedKey_idempotent
           [("tags", VArr 0 [VStr "a"; VStr "b"])]).
  reflexivity.
Defined.

(** ** The merged translations *)

Lemma merge_language_keys (newTranslations : translations)
    (changes : Changes) (merged merged' : translations) (language : string) :
  merge_language newTranslations changes merged language = Returns merged' ->
  forall l,
    In l (own_keys merged') <-> l = language \/ In l (own_keys merged).
Proof.
  intros Hrun. apply merge_language_returns in Hrun.
  destruct Hrun as (added & final & _ & _ & ->).
  intros l. apply In_own_keys_set.
Qed.

Lemma merge_languages_keys (newTranslations : translations)
    (changes : Changes) (languages : list string) :
  forall init final,
    fold_throwing (merge_language newTranslations changes) languages init
    = Returns final ->
    forall l,
      In l (own_keys final) <-> In l (own_keys init) \/ In l languages.
Proof.
  induction languages as [ | language rest IH]; intros init final.
  - rewrite fold_throwing_nil. intros [= <-] l. simpl. tauto.
  - rewrite fold_throwing_cons. intros Hrun.
    apply and_then_returns in Hrun. destruct Hrun as (next & Hstep & Hrest).
    intros l. rewrite (IH _ _ Hrest).
    rewrite (merge_language_keys _ _ _ _ _ Hstep). simpl.
    intuition congruence.
Qed.

(** The merged translations have an entry for every language the
    existing translations had and for every target language, and for no
    other: a language that only the reply has is left out. *)
Theorem mergeTranslations_languages :
  forall (next : nat) (existing newTranslations merged : translations)
         (changes : Changes),
    mergeTranslations next existing newTranslations changes
    = Returns merged ->
    forall language,
      In language (own_keys merged)
      <-> In language (own_keys existing) \/ In language targetLanguages.
Proof.
  intros next existing newTranslations merged changes Hmerge language.
  unfold mergeTranslations in Hmerge.
  rewrite (merge_languages_keys _ _ _ _ _ Hmerge).
  unfold clone_translations. now rewrite own_keys_clone_map.
Qed.

Lemma mergeTranslations_languages_witness :
  exists merged,
    mergeTranslations 0 Scenario.disk [] no_changes = Returns merged
    /\ (In "ja" (own_keys merged)
        <-> In "ja" (own_keys Scenario.disk) \/ In "ja" targetLanguages).
Proof.
  eexists. split; [vm_compute; reflexivity | ].
  apply (mergeTranslations_languages 0 Scenario.disk [] _ no_changes).
  vm_compute. reflexivity.
Defined.

(** A language that is not a target language keeps its documents, also
    when the reply has documents for it. *)
Theorem mergeTranslations_skips_other_languages :
  forall (next : nat) (existing newTranslations merged : translations)
         (changes : Changes) (language : string),
    mergeTranslations next existing newTranslations changes
    = Returns merged ->
    ~ In language targetLanguages ->
    option_map erase_files (prop_get merged language)
    = option_map erase_files (prop_get existing language).
Proof.
  intros next existing newTranslations merged changes language Hmerge Hnot.
  unfold mergeTranslations in Hmerge.
  rewrite <- !prop_get_erase_map.
  change (erase_map erase_files existing) with (erase_translations existing).
  rewrite <- (erase_clone_translations existing next).
  unfold erase_translations. rewrite !prop_get_erase_map. f_equal.
  apply (fold_throwing_invariant (merge_language newTranslations changes)
           (fun m => prop_get m language
                     = prop_get (fst (clone_translations existing next))
                         language)
           targetLanguages)
    with (init := fst (clone_translations existing next));
    [ | reflexivity | exact Hmerge].
  intros m l m' Hl Hm Hstep. apply merge_language_returns in Hstep.
  destruct Hstep as (added & final & _ & _ & ->).
  rewrite prop_get_set_ne; [exact Hm | ].
  intros ->. contradiction.
Qed.

Lemma mergeTranslations_skips_other_languages_witness :
  exists merged,
    mergeTranslations 0 [("en-gb", [("a.json", [("greeting", VStr "Hi")])])]
      [("en-gb", [("a.json", [("greeting", VStr "Hello")])])] no_changes
    = Returns merged
    /\ option_map erase_files (prop_get merged "en-gb")
       = option_map erase_files
           (prop_get [("en-gb", [("a.json", [("greeting", VStr "Hi")])])]
              "en-gb").
Proof.
  eexists. split; [vm_compute; reflexivity | ].
  eapply (mergeTranslations_skips_other_languages 0
            [("en-gb", [("a.json", [("greeting", VStr "Hi")])])]
            [("en-gb", [("a.json", [("greeting", VStr "Hello")])])]
            _ no_changes "en-gb").
  - vm_compute. reflexivity.
  - unfold targetLanguages. simpl. intuition discriminate.
Defined.

(** What the loop over the documents of a reply leaves under a file
    name, when it returns. *)
Lemma merge_files_get (newFiles : files) :
  NoDup (own_keys newFiles) ->
  forall (current final : files) (fileName : string),
    fold_throwing merge_file newFiles current = Returns final ->
    match prop_get newFiles fileName with
    | Some newContent =>
        match prop_get current fileName with
        | Some existing =>
            exists result,
              deepMerge existing newContent = Returns result
              /\ prop_get final fileName = Some result
        | None => prop_get final fileName = Some newContent
        end
    | None => prop_get final fileName = prop_get current fileName
    end.
Proof.
  induction newFiles as [ | [g d] rest IH];
    intros Hnd current final fileName.
  - rewrite fold_throwing_nil. now intros [= <-].
  - inversion Hnd as [ | ? ? Hnotin Hnd']; subst.
    rewrite fold_throwing_cons. intros Hrun.
    apply and_then_returns in Hrun. destruct Hrun as (next & Hstep & Hrest).
    specialize (IH Hnd' next final fileName Hrest).
    cbn [prop_get].
    destruct (String.eqb_spec g fileName) as [-> | Hne].
    + apply prop_get_None in Hnotin. rewrite Hnotin in IH.
      rewrite IH. unfold merge_file in Hstep.
      destruct (prop_get current fileName) as [existing | ] eqn:Hcur.
      * apply and_then_returns in Hstep.
        destruct Hstep as (result & Hresult & [= <-]).
        exists result. now rewrite prop_get_set_eq.
      * destruct (includes object_prototype fileName); [discriminate | ].
        injection Hstep as <-. rewrite prop_get_define by assumption.
        now rewrite String.eqb_refl.
    + rewrite <- (merge_file_other current next (g, d) fileName Hne Hstep).
      exact IH.
Qed.

Lemma deletions_keep (deleted : list string) (q : list string) :
  (forall key, In key deleted -> diverge (split_dot key) q = true) ->
  forall doc doc',
    fold_throwing deleteNestedKey deleted doc = Returns doc' ->
    lookup_path (VObj doc') q = lookup_path (VObj doc) q.
Proof.
  intros Hdiv doc doc' Hfold.
  apply (fold_throwing_invariant deleteNestedKey
           (fun d => lookup_path (VObj d) q = lookup_path (VObj doc) q)
           deleted) with (init := doc); [ | reflexivity | exact Hfold].
  intros d key d' Hkey Hd Hstep. rewrite <- Hd.
  apply deleteNestedKey_delete_path in Hstep.
  eapply delete_path_diverge; [apply Hdiv, Hkey | exact Hstep].
Qed.

Lemma merge_language_lands (newTranslations : translations)
    (changes : Changes) (merged merged' : translations)
    (language fileName : string) (newFiles : files) (d : obj)
    (q : list string) (l : value) :
  prop_get newTranslations language = Some newFiles ->
  NoDup (own_keys newFiles) ->
  prop_get newFiles fileName = Some d ->
  unique_keys (VObj d) ->
  forallb (fun k => negb (String.eqb k "__proto__")) q = true ->
  lookup_path (VObj d) q = Some l -> is_mapping l = false ->
  (forall deleted key,
      prop_get (deletedKeys changes) fileName = Some deleted ->
      In key deleted -> diverge (split_dot key) q = true) ->
  merge_language newTranslations changes merged language = Returns merged' ->
  exists doc,
    document_of merged' language fileName = Some doc
    /\ lookup_path (VObj doc) q = Some l.
Proof.
  intros Hnew Hnd Hd Hunique Hproto Hq Hl Hdiv Hrun.
  apply merge_language_returns in Hrun.
  destruct Hrun as (added & final & Hadded & Hfinal & ->).
  rewrite Hnew in Hadded.
  unfold document_of. rewrite prop_get_set_eq.
  apply (fold_throwing_invariant (delete_in_file changes)
           (fun fs => exists doc,
                prop_get fs fileName = Some doc
                /\ lookup_path (VObj doc) q = Some l)
           (modifiedFiles changes)) in Hfinal; [exact Hfinal | | ].
  - intros fs g fs' _ (doc & Hdoc & Hlook) Hstep.
    destruct (String.eqb_spec g fileName) as [-> | Hne].
    + unfold delete_in_file in Hstep. rewrite Hdoc in Hstep.
      destruct (prop_get (deletedKeys changes) fileName) as [deleted | ]
        eqn:Hdeleted.
      * apply and_then_returns in Hstep.
        destruct Hstep as (doc' & Hfold & [= <-]).
        exists doc'. rewrite prop_get_set_eq.
        split; [reflexivity | ]. rewrite <- Hlook.
        eapply deletions_keep; [ | exact Hfold].
        intros key Hkey. eapply Hdiv; eauto.
      * injection Hstep as <-. eauto.
    + exists doc. split; [ | exact Hlook].
      rewrite <- Hdoc. eapply delete_in_file_other; eassumption.
  - pose proof (merge_files_get newFiles Hnd _ _ fileName Hadded) as Hget.
    rewrite Hd in Hget.
    match type of Hget with
    | match ?g with Some _ => _ | None => _ end => destruct g as [existing | ]
    end.
    + destruct Hget as (result & Hresult & Hget).
      exists result. split; [exact Hget | ].
      eapply merge_loop_new_leaf; eassumption.
    + exists d. split; assumption.
Qed.

(** An accepted translation is in the merge: whenever the merge
    returns, a leaf of a document of the reply, for a target language,
    whose path has no key [__proto__], is found at its path in the
    merged document of that language, as long as every deleted key of
    the file parts from that path. *)
Theorem accepted_translation_is_merged :
  forall (next : nat) (existing newTranslations merged : translations)
         (changes : Changes) (language fileName : string) (newFiles : files)
         (d : obj) (q : list string) (l : value),
    mergeTranslations next existing newTranslations changes
    = Returns merged ->
    In language targetLanguages ->
    prop_get newTranslations language = Some newFiles ->
    NoDup (own_keys newFiles) ->
    prop_get newFiles fileName = Some d ->
    unique_keys (VObj d) ->
    forallb (fun k => negb (String.eqb k "__proto__")) q = true ->
    lookup_path (VObj d) q = Some l -> is_mapping l = false ->
    (forall deleted key,
        prop_get (deletedKeys changes) fileName = Some deleted ->
        In key deleted -> diverge (split_dot key) q = true) ->
    exists doc,
      document_of merged language fileName = Some doc
      /\ lookup_path (VObj doc) q = Some l.
Proof.
  intros next existing newTranslations merged changes language fileName
    newFiles d q l Hmerge Hlang Hnew Hnd Hd Hunique Hproto Hq Hl Hdiv.
  unfold mergeTranslations in Hmerge.
  apply (fold_throwing_establishes (merge_language newTranslations changes)
           (fun m => exists doc,
                document_of m language fileName = Some doc
                /\ lookup_path (VObj doc) q = Some l)
           language targetLanguages) in Hmerge; [exact Hmerge | | | exact Hlang].
  - intros m m' Hstep. eapply merge_language_lands; eassumption.
  - intros m other m' Hne (doc & Hdoc & Hlook) Hstep. exists doc.
    split; [ | exact Hlook]. rewrite <- Hdoc.
    eapply merge_language_other; [ | exact Hstep]. congruence.
Qed.

Lemma accepted_translation_is_merged_witness :
  exists doc,
    document_of
      [("es", [("a.json", [("greeting", VStr "Hola2")])]);
       ("de", []); ("fr", []); ("fr-ca", []); ("ja", []); ("ko", []);
       ("nl", []); ("pt", []); ("zh-cn", []); ("zh-hk", []); ("it", [])]
      "es" "a.json" = Some doc
    /\ lookup_path (VObj doc) ["greeting"] = Some (VStr "Hola2").
Proof.
  apply (accepted_translation_is_merged 0
           [("es", [("a.json", [("greeting", VStr "Hola")])])]
           [("es", [("a.json", [("greeting", VStr "Hola2")])])]
           _ no_changes "es" "a.json"
           [("a.json", [("greeting", VStr "Hola2")])]
           [("greeting", VStr "Hola2")]).
  - vm_compute. reflexivity.
  - unfold targetLanguages. simpl. tauto.
  - reflexivity.
  - repeat (constructor; [simpl; intuition discriminate | ]). constructor.
  - reflexivity.
  - simpl. repeat split;
      repeat (constructor; [simpl; intuition discriminate | ]);
      constructor.
  - reflexivity.
  - reflexivity.
  - reflexivity.
  - intros deleted key [=].
Defined.

(** ** Loading and saving *)

Lemma fold_set_keys {A : Type} (g : string -> A) (keys : list string) :
  forall acc : jsobject A,
    NoDup (own_keys acc ++ keys) ->
    own_keys (fold_left (fun e k => prop_set e k (g k)) keys acc)
    = own_keys acc ++ keys.
Proof.
  induction keys as [ | k rest IH]; intros acc Hnd.
  - simpl. now rewrite app_nil_r.
  - cbn [fold_left]. rewrite IH.
    + rewrite own_keys_set. unfold hasOwnProperty.
      replace (prop_get acc k) with (@None A);
        [now rewrite <- app_assoc | ].
      symmetry. apply prop_get_None. apply NoDup_remove_2 in Hnd.
      intros Hin. apply Hnd. apply in_app_iff. now left.
    + rewrite own_keys_set. unfold hasOwnProperty.
      replace (prop_get acc k) with (@None A);
        [now rewrite <- app_assoc | ].
      symmetry. apply prop_get_None. apply NoDup_remove_2 in Hnd.
      intros Hin. apply Hnd. apply in_app_iff. now left.
Qed.

Lemma fold_set_get {A : Type} (g : string -> A) (keys : list string)
    (k : string) :
  In k keys ->
  forall acc : jsobject A,
    prop_get (fold_left (fun e k => prop_set e k (g k)) keys acc) k
    = Some (g k).
Proof.
  assert (Hkeep : forall keys acc,
             prop_get acc k = Some (g k) ->
             prop_get (fold_left (fun e k => prop_set e k (g k)) keys acc) k
             = Some (g k)).
  { clear. induction keys as [ | k' rest IH]; intros acc Hacc; [exact Hacc | ].
    cbn [fold_left]. apply IH.
    destruct (String.eqb_spec k' k) as [-> | Hne];
      [apply prop_get_set_eq | now rewrite prop_get_set_ne]. }
  induction keys as [ | k' rest IH]; intros Hin acc; [contradiction | ].
  cbn [fold_left]. destruct (String.eqb_spec k' k) as [-> | Hne].
  - apply Hkeep. apply prop_get_set_eq.
  - destruct Hin as [-> | Hin]; [contradiction | now apply IH].
Qed.

Lemma load_files_get (langFiles : files) (fileName : string) :
  NoDup (own_keys langFiles) ->
  forall loaded : files,
    prop_get
      (fold_left
         (fun loaded entry =>
            if Nat.ltb 0 (List.length (own_keys (snd entry)))
            then prop_set loaded (fst entry) (snd entry)
            else loaded)
         langFiles loaded) fileName
    = match prop_get langFiles fileName with
      | Some d =>
          if Nat.ltb 0 (List.length (own_keys d)) then Some d
          else prop_get loaded fileName
      | None => prop_get loaded fileName
      end.
Proof.
  induction langFiles as [ | [f d] rest IH]; intros Hnd loaded;
    [reflexivity | ].
  inversion Hnd as [ | ? ? Hnotin Hnd']; subst.
  cbn [fold_left prop_get fst snd]. rewrite (IH Hnd').
  destruct (String.eqb_spec f fileName) as [-> | Hne].
  - apply prop_get_None in Hnotin. rewrite Hnotin.
    destruct (Nat.ltb 0 (List.length (own_keys d)));
      [apply prop_get_set_eq | reflexivity].
  - destruct (Nat.ltb 0 (List.length (own_keys d)));
      [ | reflexivity].
    now rewrite prop_get_set_ne.
Qed.

(** The loader returns an entry for every target language, in the order
    of the target list, whatever the disk holds; under a target language
    it has the documents of the disk that have a key, and no other. *)
Theorem loadExistingTranslations_loads_non_empty_documents :
  forall (disk : translations),
    own_keys (loadExistingTranslations disk) = targetLanguages
    /\ forall language fileName,
         In language targetLanguages ->
         (forall langFiles,
             prop_get disk language = Some langFiles ->
             NoDup (own_keys langFiles)) ->
         document_of (loadExistingTranslations disk) language fileName
         = match document_of disk language fileName with
           | Some d =>
               if Nat.ltb 0 (List.length (own_keys d)) then Some d else None
           | None => None
           end.
Proof.
  intros disk. unfold loadExistingTranslations. split.
  - rewrite (fold_set_keys
               (fun language =>
                  match prop_get disk language with
                  | Some langFiles =>
                      fold_left
                        (fun loaded entry =>
                           if Nat.ltb 0 (List.length (own_keys (snd entry)))
                           then prop_set loaded (fst entry) (snd entry)
                           else loaded)
                        langFiles []
                  | None => []
                  end)); [reflexivity | ].
    simpl. unfold targetLanguages.
    repeat (constructor; [simpl; intuition discriminate | ]). constructor.
  - intros language fileName Hin Hnd. unfold document_of.
    rewrite (fold_set_get
               (fun language =>
                  match prop_get disk language with
                  | Some langFiles =>
                      fold_left
                        (fun loaded entry =>
                           if Nat.ltb 0 (List.length (own_keys (snd entry)))
                           then prop_set loaded (fst entry) (snd entry)
                           else loaded)
                        langFiles []
                  | None => []
                  end) targetLanguages language Hin).
    destruct (prop_get disk language) as [langFiles | ]; [ | reflexivity].
    rewrite load_files_get by now apply Hnd.
    destruct (prop_get langFiles fileName) as [d | ]; [ | reflexivity].
    now destruct (Nat.ltb 0 (List.length (own_keys d))).
Qed.

(** What [saveTranslations] writes: the documents held under the target
    languages, each as it is, and nothing for any other language. *)
Theorem saveTranslations_writes_target_languages :
  forall (t : translations) (w : Write),
    In w (saveTranslations t)
    <-> In (w_language w) targetLanguages
        /\ exists langFiles,
             In (w_language w, langFiles) t
             /\ In (w_fileName w, w_content w) langFiles.
Proof.
  intros t w. unfold saveTranslations. rewrite in_flat_map. split.
  - intros ([language langFiles] & Hentry & Hw). cbn [fst snd] in Hw.
    destruct (includes targetLanguages language) eqn:Htarget;
      [ | contradiction].
    apply in_map_iff in Hw as ([f d] & <- & Hfile).
    cbn [w_language w_fileName w_content fst snd].
    split; [now apply includes_In | ]. now exists langFiles.
  - intros (Htarget & langFiles & Hentry & Hfile).
    exists (w_language w, langFiles). split; [exact Hentry | ].
    cbn [fst snd]. apply includes_In in Htarget. rewrite Htarget.
    apply in_map_iff. exists (w_fileName w, w_content w).
    split; [now destruct w | exact Hfile].
Qed.

(** ** The checks of the sibling class *)

Lemma find_first {A : Type} (test : A -> bool) (l : list A) :
  match find test l with
  | Some x =>
      exists before after,
        l = before ++ x :: after /\ test x = true
        /\ forall y, In y before -> test y = false
  | None => forall y, In y l -> test y = false
  end.
Proof.
  induction l as [ | a rest IH]; simpl; [tauto | ].
  destruct (test a) eqn:Ha.
  - exists [], rest. repeat split; auto. intros y [].
  - destruct (find test rest) as [x | ].
    + destruct IH as (before & after & -> & Hx & Hbefore).
      exists (a :: before), after. repeat split; auto.
      intros y [<- | Hy]; auto.
    + intros y [<- | Hy]; auto.
Qed.

(** The validation loop of the sibling class accepts a reply exactly
    when it has every expected language, and otherwise names the first
    expected language the reply lacks. *)
Theorem validate_names_first_missing_language :
  forall (expectedLanguages : list string) (parsed : translations),
    match IntelligentTranslationProcessorClaude.validate
            expectedLanguages parsed with
    | None =>
        forall lang, In lang expectedLanguages ->
                     hasOwnProperty parsed lang = true
    | Some message =>
        exists before lang after,
          expectedLanguages = before ++ lang :: after
          /\ (forall l, In l before -> hasOwnProperty parsed l = true)
          /\ hasOwnProperty parsed lang = false
          /\ message = ("Missing translation for language: " ++ lang)%string
    end.
Proof.
  intros expectedLanguages parsed.
  induction expectedLanguages as [ | lang rest IH]; simpl; [tauto | ].
  destruct (prop_get parsed lang) as [fs | ] eqn:Hget.
  - destruct (IntelligentTranslationProcessorClaude.validate rest parsed)
      as [message | ].
    + destruct IH as (before & missing & after & -> & Hbefore & Hmissing & ->).
      exists (lang :: before), missing, after. repeat split; auto.
      intros l [<- | Hl]; [ | now apply Hbefore].
      unfold hasOwnProperty. now rewrite Hget.
    + intros l [<- | Hl]; [ | now apply IH].
      unfold hasOwnProperty. now rewrite Hget.
  - exists [], lang, rest. split; [reflexivity | ].
    split; [intros l [] | ].
    split; [unfold hasOwnProperty; now rewrite Hget | reflexivity].
Qed.

(** The sibling class returns a reply only when the reply has every
    target language, and then returns it as it is. *)
Theorem sibling_returns_complete_replies_only :
  forall (api : Collaborator) (content : files) (parsed : translations),
    IntelligentTranslationProcessorClaude.callAnthropicAPI api content
    = inr parsed ->
    api content = inr parsed
    /\ forall lang,
         In lang IntelligentTranslationProcessorClaude.targetLanguages ->
         hasOwnProperty parsed lang = true.
Proof.
  intros api content parsed.
  unfold IntelligentTranslationProcessorClaude.callAnthropicAPI.
  destruct (api content) as [message | reply]; [discriminate | ].
  destruct (IntelligentTranslationProcessorClaude.validate
              IntelligentTranslationProcessorClaude.targetLanguages reply)
    as [message | ] eqn:Hvalid; [discriminate | ].
  intros [= <-]. split; [reflexivity | ].
  clear - Hvalid.
  induction IntelligentTranslationProcessorClaude.targetLanguages
    as [ | lang rest IH]; [intros l [] | ].
  simpl in Hvalid.
  destruct (prop_get reply lang) as [fs | ] eqn:Hget; [ | discriminate].
  intros l [<- | Hl]; [ | now apply IH].
  unfold hasOwnProperty. now rewrite Hget.
Qed.

Lemma sibling_returns_complete_replies_only_witness :
  (fun _ : files => @inr string translations Scenario.reply_with_all)
    Scenario.current_greeting
  = inr Scenario.reply_with_all
  /\ forall lang,
       In lang IntelligentTranslationProcessorClaude.targetLanguages ->
       hasOwnProperty Scenario.reply_with_all lang = true.
Proof.
  apply (sibling_returns_complete_replies_only
           (fun _ => inr Scenario.reply_with_all) Scenario.current_greeting
           Scenario.reply_with_all).
  vm_compute. reflexivity.
Defined.

(** The sibling class saves all or nothing: with a target language
    missing it throws, naming the first one missing, before any file is
    written; otherwise it writes what the incremental class writes. *)
Theorem sibling_saves_all_or_nothing :
  forall t : translations,
    match IntelligentTranslationProcessorClaude.saveTranslations t with
    | inl message =>
        exists before language after,
          IntelligentTranslationProcessorClaude.targetLanguages
          = before ++ language :: after
          /\ (forall l, In l before -> hasOwnProperty t l = true)
          /\ hasOwnProperty t language = false
          /\ message
             = ("Missing translations for language: " ++ language)%string
    | inr written =>
        (forall l,
            In l IntelligentTranslationProcessorClaude.targetLanguages ->
            hasOwnProperty t l = true)
        /\ written = saveTranslations t
    end.
Proof.
  intros t. unfold IntelligentTranslationProcessorClaude.saveTranslations.
  pose proof (find_first (fun language => negb (hasOwnProperty t language))
                IntelligentTranslationProcessorClaude.targetLanguages)
    as Hfind.
  destruct (find _ IntelligentTranslationProcessorClaude.targetLanguages)
    as [language | ].
  - destruct Hfind as (before & after & Hsplit & Hmissing & Hbefore).
    exists before, language, after. repeat split; auto.
    + intros l Hl. apply Hbefore in Hl. now apply negb_false_iff in Hl.
    + now apply negb_true_iff in Hmissing.
  - split; [ | reflexivity].
    intros l Hl. apply Hfind in Hl. now apply negb_false_iff in Hl.
Qed.


(** ** The run *)

(** When the collaborator fails, the run exits with its message wrapped
    and writes nothing, neither translations nor state. *)
Theorem failed_call_stops_the_run :
  forall (next : nat) (api : Collaborator) (baseFiles stateFile : files)
         (disk : translations) (changes : Changes) (content : files)
         (message : string),
    let currentFiles := fst (parse_files baseFiles next) in
    let next1 := snd (parse_files baseFiles next) in
    let previousFiles := fst (parse_files stateFile next1) in
    let next2 := snd (parse_files stateFile next1) in
    let reread := fst (parse_files baseFiles next2) in
    detectChanges previousFiles currentFiles = Returns changes ->
    translateChanges_request changes reread = Returns (CallClaude content) ->
    api content = inl message ->
    translateIncremental next api baseFiles stateFile disk
    = Exit ("Error calling Claude: " ++ message).
Proof.
  intros next api baseFiles stateFile disk changes content message.
  cbv zeta. unfold translateIncremental.
  destruct (parse_files baseFiles next) as [currentFiles next1].
  cbn [fst snd].
  destruct (parse_files stateFile next1) as [previousFiles next2].
  cbn [fst snd].
  destruct (parse_files baseFiles next2) as [reread next3].
  cbn [fst snd]. intros Hchanges Hrequest Hfail.
  rewrite Hchanges. cbn [and_then].
  unfold translateChanges. rewrite Hrequest. cbn [and_then].
  unfold translateChanges_request in Hrequest.
  destruct (hasChanges changes); [ | discriminate].
  cbn [negb] in Hrequest.
  apply and_then_returns in Hrequest.
  destruct Hrequest as (built & -> & _). cbn [and_then].
  unfold callClaude, callAnthropicAPI. now rewrite Hfail.
Qed.

Lemma failed_call_stops_the_run_witness :
  translateIncremental 0 (fun _ => inl "API Error: 500 - overloaded")
    Scenario.current_greeting Scenario.previous_greeting Scenario.disk
  = Exit "Error calling Claude: API Error: 500 - overloaded".
Proof.
  apply (failed_call_stops_the_run 0 _ Scenario.current_greeting
           Scenario.previous_greeting Scenario.disk
           (mkChanges true [] ["a.json"] [("a.json", [])]
              [("a.json", [mkModifiedKey "greeting" (VStr "Hi")
                             (VStr "Hello")])]
              [("a.json", [])])
           [("a.json", [("greeting", VStr "Hello")])]).
  - reflexivity.
  - reflexivity.
  - reflexivity.
Defined.

Lemma filter_all {A : Type} (f : A -> bool) (l : list A) :
  (forall x, f x = true) -> filter f l = l.
Proof.
  intros H. induction l as [ | x rest IH]; [reflexivity | ].
  cbn [filter]. now rewrite H, IH.
Qed.

(** With no previous state, the second loop of [detectChanges] finds no
    document to compare. *)
Lemma first_run_changes (currentFiles : files) :
  detectChanges [] currentFiles
  = Returns (fold_left (detect_new_file []) (own_keys currentFiles)
               no_changes).
Proof.
  unfold detectChanges. apply fold_throwing_fixed.
  intros [fileName currentContent] _. reflexivity.
Qed.

(** The loop over [changes.newFiles] copies the documents it names. *)
Lemma copy_new_files (currentFiles : files) :
  NoDup (own_keys currentFiles) ->
  forall rest content : files,
    currentFiles = content ++ rest ->
    fold_throwing
      (fun (content : files) fileName =>
         match prop_get currentFiles fileName with
         | Some doc => Returns (prop_set content fileName doc)
         | None => Beyond
         end)
      (own_keys rest) content
    = Returns currentFiles.
Proof.
  intros Hnd. induction rest as [ | [k d] rest IH]; intros content Hsplit.
  - now rewrite app_nil_r in Hsplit; subst.
  - cbn [own_keys map fst]. rewrite fold_throwing_cons.
    assert (Hfresh : prop_get content k = None).
    { apply prop_get_None. intros Hin. subst currentFiles.
      unfold own_keys in Hnd. rewrite map_app in Hnd.
      apply NoDup_remove_2 in Hnd. apply Hnd.
      apply in_app_iff. now left. }
    assert (Hget : prop_get currentFiles k = Some d).
    { subst currentFiles. rewrite prop_get_app, Hfresh. simpl.
      now rewrite String.eqb_refl. }
    rewrite Hget. cbn [and_then]. rewrite prop_set_absent by exact Hfresh.
    apply IH. now rewrite <- app_assoc.
Qed.

(** A first run, with no previous state, sends every document of a
    non-empty source tree, whole. *)
Theorem first_run_sends_every_document :
  forall currentFiles : files,
    NoDup (own_keys currentFiles) -> currentFiles <> [] ->
    exists changes,
      detectChanges [] currentFiles = Returns changes
      /\ translateChanges_request changes currentFiles
         = Returns (CallClaude currentFiles).
Proof.
  intros currentFiles Hnd Hne. eexists. split; [apply first_run_changes | ].
  destruct (detect_new_file_lists [] (own_keys currentFiles) no_changes)
    as (Hnew & Hmod & _ & _ & _ & Hflag).
  cbv zeta in Hnew, Hmod, Hflag.
  rewrite filter_all in Hnew by reflexivity.
  unfold translateChanges_request, contentToTranslate.
  rewrite Hflag, Hnew, Hmod. cbn [no_changes newFiles modifiedFiles app].
  replace (hasChanges no_changes
           || existsb (fun f => negb (hasOwnProperty (@nil (string * obj)) f))
                (own_keys currentFiles)) with true
    by (destruct currentFiles; [contradiction | reflexivity]).
  cbn [negb]. rewrite (copy_new_files currentFiles Hnd currentFiles [] eq_refl).
  cbn [and_then]. rewrite fold_throwing_nil. cbn [and_then].
  destruct currentFiles; [contradiction | reflexivity].
Qed.

Lemma first_run_sends_every_document_witness :
  exists changes,
    detectChanges [] Scenario.current_farewell = Returns changes
    /\ translateChanges_request changes Scenario.current_farewell
       = Returns (CallClaude Scenario.current_farewell).
Proof.
  apply first_run_sends_every_document.
  - repeat (constructor; [simpl; intuition discriminate | ]). constructor.
  - discriminate.
Defined.

(** ** What the merger writes to *)



Section Preservation.
Import Heap.
Context (h0 : list hobject).

Lemma preserves_ret {A : Type} (a : A) (post : A -> Prop) :
  post a -> preserves h0 (ret a) post.
Proof. intros Hpost h a' h' Hext [= <- <-]. auto. Qed.

Lemma preserves_throw {A : Type} (post : A -> Prop) :
  preserves h0 throw post.
Proof. intros h a h' _ H. discriminate. Qed.

Lemma preserves_bind {A B : Type} (c : M A) (k : A -> M B) (P : A -> Prop)
    (Q : B -> Prop) :
  preserves h0 c P -> (forall a, P a -> preserves h0 (k a) Q) ->
  preserves h0 (bind c k) Q.
Proof.
  intros Hc Hk h b h' Hext. unfold bind.
  destruct (c h) as [[a h1] | ] eqn:Hrun; [ | discriminate].
  destruct (Hc h a h1 Hext Hrun) as [Hext1 Hpost]. now apply Hk.
Qed.

Lemma preserves_alloc (o : hobject) :
  preserves h0 (alloc o) (fun l => created_after h0 (HRef l)).
Proof.
  intros h l h' [Hgrows Hsame] [= <- <-]. split; [split | exact Hgrows].
  - rewrite length_app. lia.
  - intros l Hlt. rewrite nth_error_app1 by lia. now apply Hsame.
Qed.

Lemma preserves_load (l : loc) : preserves h0 (load l) (fun _ => True).
Proof.
  intros h o h' Hext. unfold load.
  destruct (nth_error h l); [ | discriminate]. now intros [= <- <-].
Qed.

Lemma preserves_store (l : loc) (o : hobject) :
  created_after h0 (HRef l) -> preserves h0 (store l o) (fun _ => True).
Proof.
  intros Hnew h u h' [Hgrows Hsame]. unfold store. simpl in Hnew.
  destruct (Nat.ltb_spec l (List.length h)) as [Hlt | Hge]; [ | discriminate].
  intros [= <- <-]. split; [split | exact I].
  - now rewrite replace_nth_length.
  - intros l' Hlt'. rewrite nth_error_replace_nth by exact Hlt.
    destruct (Nat.eqb_spec l' l) as [-> | Hne]; [lia | now apply Hsame].
Qed.

Lemma preserves_for_each {X : Type} (xs : list X) (body : X -> M unit) :
  (forall x, In x xs -> preserves h0 (body x) (fun _ => True)) ->
  preserves h0 (for_each xs body) (fun _ => True).
Proof.
  induction xs as [ | x rest IH]; intros Hbody; simpl.
  - now apply preserves_ret.
  - eapply preserves_bind; [apply Hbody; now left | ].
    intros _ _. apply IH. intros y Hy. apply Hbody. now right.
Qed.

Lemma preserves_get_prop (v : hval) (k : string) :
  preserves h0 (get_prop v k) (fun _ => True).
Proof.
  destruct v as [ | b | z | s | l]; simpl;
    try apply preserves_throw; try now apply preserves_ret.
  eapply preserves_bind; [apply preserves_load | ].
  intros o _. now apply preserves_ret.
Qed.

Lemma preserves_set_prop (v : hval) (k : string) (x : hval) :
  created_after h0 v -> preserves h0 (set_prop v k x) (fun _ => True).
Proof.
  intros Hv. destruct v as [ | b | z | s | l]; simpl;
    try apply preserves_throw.
  eapply preserves_bind; [apply preserves_load | ]. intros o _.
  destruct (array_length o); [apply preserves_throw | ].
  now apply preserves_store.
Qed.

Lemma preserves_is_mapping (v : hval) :
  preserves h0 (is_mapping v) (fun _ => True).
Proof.
  destruct v as [ | b | z | s | l]; simpl; try now apply preserves_ret.
  eapply preserves_bind; [apply preserves_load | ].
  intros o _. now apply preserves_ret.
Qed.

Lemma preserves_object_entries (v : hval) :
  preserves h0 (object_entries v) (fun _ => True).
Proof.
  destruct v as [ | b | z | s | l]; simpl;
    try apply preserves_throw; try now apply preserves_ret.
  eapply preserves_bind; [apply preserves_load | ].
  intros o _. now apply preserves_ret.
Qed.

Lemma preserves_deepMerge (fuel : nat) :
  forall target source,
    preserves h0 (deepMerge fuel target source) (created_after h0).
Proof.
  induction fuel as [ | fuel IH]; intros target source;
    [apply preserves_throw | ].
  cbn [deepMerge].
  eapply preserves_bind; [apply preserves_object_entries | ].
  intros copied _.
  eapply preserves_bind; [apply preserves_alloc | ].
  intros result Hresult.
  eapply preserves_bind; [apply preserves_object_entries | ].
  intros entries _.
  eapply preserves_bind; [ | intros _ _; now apply preserves_ret].
  apply preserves_for_each. intros [key value] _.
  eapply preserves_bind; [apply preserves_is_mapping | ].
  intros nested _.
  destruct nested; [ | now apply preserves_set_prop].
  eapply preserves_bind; [apply preserves_get_prop | ].
  intros existing _.
  destruct (is_object existing); [ | now apply preserves_set_prop].
  destruct existing as [e | ]; [ | apply preserves_throw].
  eapply preserves_bind; [apply IH | ].
  intros merged _. now apply preserves_set_prop.
Qed.
End Preservation.

(** The deep merge writes to no object that was there before the call:
    the target, the new subtree and every other object are as they
    were, and what it returns is an object of its own making. *)
Theorem heap_deepMerge_writes_to_new_objects_only :
  forall (fuel : nat) (h h' : list Heap.hobject)
         (target source result : Heap.hval),
    Heap.deepMerge fuel target source h = Some (result, h') ->
    (forall l, l < List.length h -> nth_error h' l = nth_error h l)
    /\ exists l, result = Heap.HRef l /\ List.length h <= l.
Proof.
  intros fuel h h' target source result Hrun.
  destruct (preserves_deepMerge h fuel target source h result h') as
    [[_ Hsame] Hresult].
  - split; [apply Nat.le_refl | reflexivity].
  - exact Hrun.
  - split; [exact Hsame | ].
    destruct result as [ | b | z | s | l]; try contradiction.
    exists l. split; [reflexivity | exact Hresult].
Qed.

Lemma heap_deepMerge_writes_to_new_objects_only_witness :
  exists result h',
    Heap.deepMerge 2 (Heap.HRef 0) (Heap.HRef 1)
      [Heap.mkObject None [("greeting", Heap.HStr "Hola")];
       Heap.mkObject None [("greeting", Heap.HStr "Hola2")]]
    = Some (result, h')
    /\ (forall l, l < 2 ->
                  nth_error h' l
                  = nth_error
                      [Heap.mkObject None [("greeting", Heap.HStr "Hola")];
                       Heap.mkObject None [("greeting", Heap.HStr "Hola2")]]
                      l).
Proof.
  eexists. eexists. split; [vm_compute; reflexivity | ].
  eapply (fun Hrun =>
            proj1 (heap_deepMerge_writes_to_new_objects_only 2
                     [Heap.mkObject None [("greeting", Heap.HStr "Hola")];
                      Heap.mkObject None [("greeting", Heap.HStr "Hola2")]]
                     _ (Heap.HRef 0) (Heap.HRef 1) _ Hrun)).
  vm_compute. reflexivity.
Defined.


(** ** Where the conditions matter *)

(** With a key that itself has a dot and leads through a leaf, the
    delta builder throws: the nested value cannot be set in a string. *)
Example key_through_a_leaf_stops_the_delta :
  let current :=
    [("a.json", [("menu", VStr "Menu"); ("menu.open", VStr "Open")])] in
  exists changes,
    detectChanges [("a.json", [])] current = Returns changes
    /\ contentToTranslate changes current = Throws "TypeError".
Proof. eexists. split; reflexivity. Qed.

(** When a leaf of the source becomes a mapping, its path is deleted and
    the paths below it are new: the merge adds the new translation and
    the deletion then removes it with the old one. *)
Example leaf_turned_mapping_loses_its_translation :
  let previous := [("a.json", [("menu", VStr "Menu")])] in
  let current := [("a.json", [("menu", VObj [("open", VStr "Open")])])] in
  exists changes merged,
    detectChanges previous current = Returns changes
    /\ prop_get (deletedKeys changes) "a.json" = Some ["menu"]
    /\ mergeTranslations 0
         [("es", [("a.json", [("menu", VStr "Carta")])])]
         [("es", [("a.json", [("menu", VObj [("open", VStr "Abrir")])])])]
         changes
       = Returns merged
    /\ document_of merged "es" "a.json" = Some [].
Proof.
  eexists. eexists. split; [reflexivity | ]. split; [reflexivity | ].
  split; [vm_compute; reflexivity | reflexivity].
Qed.

(** A key that names a member of [Object.prototype] takes the walk of
    [setNestedValue] to that member, and a top-level key [__proto__]
    whose value is a string leaves no entry in the flat map. *)
Example prototype_member_names_leave_the_model :
  setNestedValue [] "constructor.title" (VStr "x") = Beyond
  /\ unflattenObject [("constructor.title", VStr "x")] = Beyond
  /\ deleteNestedKey [] "constructor.prototype" = Beyond
  /\ flattenObject [("__proto__", VStr "x"); ("title", VStr "Home")] ""
     = Returns [("title", VStr "Home")]
  /\ flattenObject [("__proto__", VNull)] "" = Beyond.
Proof. repeat split; reflexivity. Qed.

(** A flat key [hasOwnProperty] hides the method that
    [detectFileChanges] calls on the flat map. *)
Example hasOwnProperty_key_stops_the_detection :
  detectFileChanges [("hasOwnProperty", VStr "x")]
    [("hasOwnProperty", VStr "x")]
  = Throws "TypeError".
Proof. reflexivity. Qed.
